(** * image_reducer.py: a shallow embedding and its properties

    The program under study is a single Python script, [image_reducer.py],
    which compresses every picture of a folder: it backs each picture up,
    shrinks it when it is larger than a bounding box, and re-encodes it as
    JPEG.

    The script is glue around three libraries: Pillow ([Image],
    [ImageOps]), [os]/[os.path] and [shutil].  The functions of the script
    itself ([reduce_image_size], [get_image_files], [create_folders],
    [main]) are transcribed statement by statement.  The library calls they
    make are given small executable models, each documented where it is
    defined; the models keep the behaviour the script can observe (modes,
    sizes, which exception is raised and when) and leave out pixels,
    permissions, symbolic links and timestamps.  Python's floats are
    rationals rounded to the nearest double after each operation. *)

From Stdlib Require Import ZArith QArith Qround Qabs Qpower Lqa Ascii String.
From stdpp Require Import gmap strings list sorting.

Local Open Scope Z_scope.

(** ** Python exceptions *)

(** The exceptions the modelled calls raise.  All of them derive from
    [Exception] in Python, except [KeyboardInterrupt], which derives from
    [BaseException] only and is therefore not caught by [except Exception]. *)
Inductive exn : Type :=
  | FileNotFoundError
  | IsADirectoryError
  | NotADirectoryError
  | FileExistsError
  | SameFileError
  | UnidentifiedImageError
  | CannotWriteMode
  | EncoderError
  | ZeroDivisionError
  | OverflowError
  | ValueError
  | DecompressionBombError
  | KeyboardInterrupt.

Definition is_Exception (e : exn) : bool :=
  match e with
  | KeyboardInterrupt => false
  | _ => true
  end.

#[global] Instance exn_eq_dec : EqDecision exn.
Proof. solve_decision. Defined.

(** The result of running a Python expression: a value or a raised
    exception. *)
Inductive outcome (A : Type) : Type :=
  | Ok (a : A)
  | Raise (e : exn).
Arguments Ok {A} a.
Arguments Raise {A} e.

(** [o] followed by [k] when [o] is a value; the exception of [o]
    otherwise. *)
Definition and_then {A B : Type} (o : outcome A) (k : A -> outcome B)
  : outcome B :=
  match o with
  | Ok a => k a
  | Raise e => Raise e
  end.

(** ** Python floats

    A Python [float] is an IEEE 754 binary64 number.  Every finite double
    is a rational number, and an arithmetic operation returns the exact
    result rounded to the nearest double, a tie going to the double with
    the even significand.  The model keeps the value of a float as a
    rational and applies [round_double] after each operation.

    The exponent of a double is bounded.  A result of magnitude [2^1024]
    or more does not fit: Python raises [OverflowError] when an [int] is
    converted or two [int]s are divided, and [math.floor] and [math.ceil]
    raise it on the infinity a float operation returns; [finite] makes
    the test.  Below [2^-1022] binary64 rounds more coarsely than
    [round_double]; the only such values in the computations modelled
    here are quotients of the two bounds, which are compared with an
    aspect ratio far above them and serve no other purpose. *)

Local Open Scope Q_scope.

(** The integer nearest to [s], a tie going to the even one. *)
Definition round_half_even (s : Q) : Z :=
  let f := Qfloor s in
  match Qcompare (s - inject_Z f) (1 # 2) with
  | Lt => f
  | Gt => (f + 1)%Z
  | Eq => if Z.even f then f else (f + 1)%Z
  end.

(** For [q > 0], the integer [e] with [2^e <= q < 2^(e+1)]. *)
Definition exponent (q : Q) : Z :=
  let l := (Z.log2 (Qnum q) - Z.log2 (Zpos (Qden q)))%Z in
  if Qle_bool (2 ^ l) q then l else (l - 1)%Z.

(** For [q > 0], the nearest number with a significand of 53 bits. *)
Definition round_double_pos (q : Q) : Q :=
  let e := (exponent q - 52)%Z in
  inject_Z (round_half_even (q / 2 ^ e)) * 2 ^ e.

Definition round_double (q : Q) : Q :=
  match Qcompare q 0 with
  | Eq => 0
  | Gt => Qred (round_double_pos q)
  | Lt => Qred (- round_double_pos (- q))
  end.

(** The least magnitude that is too large for a double. *)
Definition float_overflow : Q := inject_Z (2 ^ 1024).

Definition finite (q : Q) : outcome Q :=
  if Qle_bool float_overflow (Qabs q) then Raise OverflowError else Ok q.

(** What the proofs use of a rounding function [fl]: it is monotone, it
    keeps the integers up to [2^53] and its own results, it commutes with
    the sign, and between [2^-80] and [2^80] its relative error is at
    most [2^-53]. *)
Definition unit_roundoff : Q := 1 # 9007199254740992.
Definition float_lo : Q := 1 # 1208925819614629174706176.
Definition float_hi : Q := 1208925819614629174706176 # 1.

Class FloatRounding (fl : Q -> Q) : Prop := {
  fl_mono : forall p q, p <= q -> fl p <= fl q;
  fl_int : forall z,
    (Z.abs z <= 9007199254740992)%Z -> fl (inject_Z z) == inject_Z z;
  fl_idem : forall q, fl (fl q) == fl q;
  fl_opp : forall q, fl (- q) == - fl q;
  fl_acc : forall q,
    float_lo <= q <= float_hi ->
    (1 - unit_roundoff) * q <= fl q <= (1 + unit_roundoff) * q
}.

Local Close Scope Q_scope.

Module Pillow.

(** ** Pillow images *)

(** Pillow's image modes ([Image.mode]).  The string each one stands for
    is given by [mode_name]. *)
Inductive mode : Type :=
  | M1 | L | P | RGB | RGBA | CMYK | YCbCr | LAB | HSV | I | F
  | LA | PA | RGBX | RGBa | La | I16.

Definition mode_name (m : mode) : string :=
  match m with
  | M1 => "1" | L => "L" | P => "P" | RGB => "RGB" | RGBA => "RGBA"
  | CMYK => "CMYK" | YCbCr => "YCbCr" | LAB => "LAB" | HSV => "HSV"
  | I => "I" | F => "F" | LA => "LA" | PA => "PA" | RGBX => "RGBX"
  | RGBa => "RGBa" | La => "La" | I16 => "I;16"
  end.

#[global] Instance mode_eq_dec : EqDecision mode.
Proof. solve_decision. Defined.

(** A mode carries an alpha channel when it stores transparency next to
    the colour: straight alpha ([LA], [PA], [RGBA]) or premultiplied alpha
    ([La], [RGBa]).  ([LAB]'s second band is the colour axis a*, not
    alpha.) *)
Definition has_alpha (m : mode) : bool :=
  match m with
  | LA | PA | RGBA | RGBa | La => true
  | _ => false
  end.

(** A mode is palette based when its pixels index a colour table. *)
Definition is_palette (m : mode) : bool :=
  match m with
  | P | PA => true
  | _ => false
  end.

(** An image in memory: its mode, its size and the EXIF orientation tag
    (0x0112) it carries, if any.  Pixels are not modelled. *)
Record Image : Type := mkImage {
  img_mode : mode;
  width : Z;
  height : Z;
  orientation : option Z
}.

Definition size (im : Image) : Z * Z := (width im, height im).

(** [ImageOps.exif_transpose]: orientations 2, 3 and 4 flip or rotate by
    180 degrees and keep the size; 5, 6, 7 and 8 transpose or rotate by a
    quarter turn and swap width and height.  The result no longer carries
    the tag.  Any other value leaves the pixels as they are. *)
Definition swaps_axes (o : option Z) : bool :=
  match o with
  | Some 5 | Some 6 | Some 7 | Some 8 => true
  | _ => false
  end.

Definition is_transposing (o : option Z) : bool :=
  match o with
  | Some 2 | Some 3 | Some 4 | Some 5 | Some 6 | Some 7 | Some 8 => true
  | _ => false
  end.

Definition exif_transpose (im : Image) : Image :=
  if is_transposing (orientation im) then
    if swaps_axes (orientation im)
    then mkImage (img_mode im) (height im) (width im) None
    else mkImage (img_mode im) (width im) (height im) None
  else im.

(** The modes [Image.resize] resizes without a reduction step first:
    [1] and [P], for which the filter becomes [NEAREST], and [LA] and
    [RGBA], which are resized through a premultiplied copy and without
    [reducing_gap]. *)
Definition resizes_directly (m : mode) : bool :=
  match m with
  | M1 | P | LA | RGBA => true
  | _ => false
  end.

(** [Image.convert('RGB')]. *)
Definition convert_RGB (im : Image) : Image :=
  mkImage RGB (width im) (height im) (orientation im).

(** *** [Image.thumbnail]

    [Image.thumbnail((x, y), resample)] picks the final size with its
    inner function [preserve_aspect_ratio] and resizes to it.  [aspect],
    the products and the quotients are Python floats. *)

Local Open Scope Q_scope.

(** Python's [min(a, b, key=key)]: the first of the two with the least
    key. *)
Definition min_by (key : Z -> Q) (a b : Z) : Z :=
  if Qle_bool (key a) (key b) then a else b.

(** [round_aspect(number, key) =
      max(min(math.floor(number), math.ceil(number), key=key), 1)]. *)
Definition round_aspect (number : Q) (key : Z -> Q) : Z :=
  Z.max (min_by key (Qfloor number) (Qceiling number)) 1.

(** [preserve_aspect_ratio()], for an image of size [w]x[h] and a
    requested size [(x, y)].  [None] is Python's [None] (nothing to do).
    [self.width / self.height], [x / y], [n / y] and [x / n] divide two
    [int]s; [y * aspect] and [x / aspect] convert the [int] first. *)
Definition preserve_aspect_ratio (w h x y : Z) : outcome (option (Z * Z)) :=
  if ((w <=? x) && (h <=? y))%Z then Ok None
  else if (h =? 0)%Z then Raise ZeroDivisionError
  else
    let aspect := round_double (inject_Z w / inject_Z h) in
    if (y =? 0)%Z then Raise ZeroDivisionError
    else
      and_then (finite (round_double (inject_Z x / inject_Z y)))
        (fun x_over_y =>
      if Qle_bool aspect x_over_y then
        and_then (finite (round_double (inject_Z y))) (fun y_float =>
        and_then (finite (round_double (y_float * aspect))) (fun number =>
        let key := fun n : Z =>
          Qabs (round_double
                  (aspect - round_double (inject_Z n / inject_Z y))) in
        Ok (Some (round_aspect number key, y))))
      else
        and_then (finite (round_double (inject_Z x))) (fun x_float =>
        if Qeq_bool aspect 0 then Raise ZeroDivisionError
        else
        and_then (finite (round_double (x_float / aspect))) (fun number =>
        let key := fun n : Z =>
          if (n =? 0)%Z then 0
          else Qabs (round_double
                       (aspect - round_double (inject_Z x / inject_Z n))) in
        Ok (Some (x, round_aspect number key))))).

Local Close Scope Q_scope.

(** [Image.resize((x, y), resample, reducing_gap=2.0)] with a filter
    other than [NEAREST], to a size other than the image's.  Unless the
    mode is resized directly, the reduction factors
    [int(width / x / reducing_gap)] and [int(height / y / reducing_gap)]
    are computed first, which divides by the requested size; the resize
    itself then refuses a size with a component that is not positive. *)
Definition resize (im : Image) (x y : Z) : outcome Image :=
  if resizes_directly (img_mode im) then
    if (x <=? 0) || (y <=? 0) then Raise ValueError
    else Ok (mkImage (img_mode im) x y (orientation im))
  else if (x =? 0) || (y =? 0) then Raise ZeroDivisionError
  else if (x <? 0) || (y <? 0) then Raise ValueError
  else Ok (mkImage (img_mode im) x y (orientation im)).

(** [Image.thumbnail]: the image is modified in place; the model returns
    the new image. *)
Definition thumbnail (im : Image) (x y : Z) : outcome Image :=
  match preserve_aspect_ratio (width im) (height im) x y with
  | Raise e => Raise e
  | Ok None => Ok im
  | Ok (Some (x', y')) =>
      if (x' =? width im) && (y' =? height im) then Ok im
      else resize im x' y'
  end.

(** *** Saving as JPEG

    [JpegImagePlugin._save] looks the mode up in its table [RAWMODE] and
    raises [OSError("cannot write mode ... as JPEG")] when it is absent. *)
Definition jpeg_rawmode (m : mode) : option string :=
  match m with
  | M1 => Some "L"
  | L => Some "L"
  | RGB => Some "RGB"
  | RGBX => Some "RGB"
  | CMYK => Some "CMYK;I"
  | YCbCr => Some "YCbCr"
  | _ => None
  end.

(** The mode Pillow reports when it opens the JPEG file written from an
    image of mode [m]: one component reads back as [L], three as [RGB],
    four as [CMYK]. *)
Definition jpeg_stored_mode (m : mode) : mode :=
  match m with
  | M1 | L => L
  | CMYK => CMYK
  | _ => RGB
  end.

(** The image Pillow decodes from the JPEG file written from [im]: the
    writer is given no EXIF block, so the file carries no orientation. *)
Definition jpeg_readback (im : Image) : Image :=
  mkImage (jpeg_stored_mode (img_mode im)) (width im) (height im) None.

(** What "the aspect ratio is kept within one pixel" means for an image
    of size [w]x[h] resized to [w']x[h'] inside the box [x]x[y]: one side
    takes the whole box, and the other is less than one pixel away from
    the exact proportional length. *)
Definition keeps_aspect (w h x y w' h' : Z) : Prop :=
  (h' = y /\
   Qabs (inject_Z w' - inject_Z h' * (inject_Z w / inject_Z h)) < 1)%Q \/
  (w' = x /\
   Qabs (inject_Z h' - inject_Z w' / (inject_Z w / inject_Z h)) < 1)%Q.

(** The width or height of an image that is not empty: Pillow keeps
    sizes in C [int]s. *)
Definition dim_ok (z : Z) : Prop := 1 <= z < 2147483648.

End Pillow.

(** ** Path names

    Python's [str] paths are modelled as Rocq strings (the UTF-8 bytes of
    the name). *)

Definition sep : ascii := "/"%char.

Definition startswith_sep (s : string) : bool :=
  match s with
  | String c _ => Ascii.eqb c sep
  | EmptyString => false
  end.

Fixpoint endswith_sep (s : string) : bool :=
  match s with
  | EmptyString => false
  | String c EmptyString => Ascii.eqb c sep
  | String _ r => endswith_sep r
  end.

(** [os.path.join(a, b)] (posixpath). *)
Definition join (a b : string) : string :=
  if startswith_sep b then b
  else if String.eqb a EmptyString || endswith_sep a then a +:+ b
  else a +:+ String sep b.

(** [p.split('/')]: the pieces between separators; never empty. *)
Fixpoint split_sep (p : string) : list string :=
  match p with
  | EmptyString => [EmptyString]
  | String c r =>
      if Ascii.eqb c sep then EmptyString :: split_sep r
      else match split_sep r with
           | [] => [String c EmptyString]
           | h :: t => String c h :: t
           end
  end.

(** [os.path.basename(p)]: what follows the last separator. *)
Definition basename (p : string) : string :=
  List.last (split_sep p) EmptyString.

(** ** The file system

    A file is a sequence of bytes; the model keeps what the script can
    observe of it: its length and what Pillow makes of it.  [Encoded fmt im
    n] is a well-formed picture file of [n] bytes in format [fmt] that
    [Image.open] decodes to [im]; such a file is never empty.  [Opaque n]
    is [n] bytes in which Pillow recognises no picture. *)
Inductive format : Type := JPEG | PNG | BMP | TIFF | WEBP.

Inductive content : Type :=
  | Encoded (fmt : format) (im : Pillow.Image) (nbytes : positive)
  | Opaque (nbytes : N).

Inductive node : Type :=
  | Dir
  | File (c : content).

Definition nbytes_of (c : content) : Z :=
  match c with
  | Encoded _ _ n => Z.pos n
  | Opaque n => Z.of_N n
  end.

(** A resolved path: the names from the root down.  [[]] is the root. *)
Definition key : Type := list string.

(** What is printed: one constructor for each [print] of the script, with
    the values its f-string interpolates. *)
Inductive line : Type :=
  | Resized (name : string) (w h w' h' : Z)                  (* line 29 *)
  | Compressed (name : string) (original_size new_size : Z)    (* line 38 *)
  | ErrorProcessing (what : string) (e : exn)             (* lines 43, 148 *)
  | PhotosFolderNotFound (input_folder : string)               (* line 94 *)
  | IsNotADirectory (input_folder : string)                    (* line 98 *)
  | NoImageFilesFound (input_folder : string)                 (* line 105 *)
  | SupportedFormats                                          (* line 106 *)
  | Starting                                                  (* line 112 *)
  | InputFolder (p : string)                                  (* line 113 *)
  | BackupFolder (p : string)                                 (* line 114 *)
  | ReducedFolder (p : string)                                (* line 115 *)
  | Settings (quality max_width max_height : Z)               (* line 116 *)
  | Found (n : nat)                                           (* line 117 *)
  | Rule                                                 (* lines 118, 150 *)
  | CreatedBackup (filename : string)                         (* line 132 *)
  | ProcessingComplete                                        (* line 151 *)
  | ImagesProcessed (processed_count : Z)                     (* line 152 *)
  | TotalSizeReduction (total_original_size total_new_size : Z)   (* 156 *)
  | BackedUpIn (p : string)                                   (* line 157 *)
  | SavedIn (p : string).                                     (* line 158 *)

(** The state the script runs in: the working directory, the files and
    what has been printed so far (oldest line first). *)
Record world : Type := mkWorld {
  cwd : key;
  files : gmap key node;
  console : list line
}.

Definition set_files (f : gmap key node) (w : world) : world :=
  mkWorld (cwd w) f (console w).

(** Path resolution, without symbolic links and on the names alone:
    empty names and [.] are skipped, [..] goes up.  The kernel looks at
    the files as well: it refuses the empty path, a [/] after the name of
    a regular file and a [..] after a name that does not exist.  The
    paths [main] builds, the script's directory joined with a folder name
    and a listed file name, contain none of these. *)
Definition resolve_step (k : key) (c : string) : key :=
  if String.eqb c EmptyString || String.eqb c "." then k
  else if String.eqb c ".." then removelast k
  else k ++ [c].

Definition resolve (w : world) (p : string) : key :=
  fold_left resolve_step (split_sep p)
            (if startswith_sep p then [] else cwd w).

(** The node at a resolved path; the root is always a directory. *)
Definition node_at (f : gmap key node) (k : key) : option node :=
  match k with
  | [] => Some Dir
  | _ => f !! k
  end.

Definition stat (w : world) (p : string) : option node :=
  node_at (files w) (resolve w p).

(** ** Computations: state and exceptions *)

Definition M (A : Type) : Type := world -> outcome A * world.

Definition ret {A} (a : A) : M A := fun w => (Ok a, w).

Definition raise {A} (e : exn) : M A := fun w => (Raise e, w).

Definition bind {A B} (c : M A) (k : A -> M B) : M B :=
  fun w => match c w with
           | (Ok a, w') => k a w'
           | (Raise e, w') => (Raise e, w')
           end.

(** [try: c except Exception as e: h e]. *)
Definition try_except {A} (c : M A) (h : exn -> M A) : M A :=
  fun w => match c w with
           | (Ok a, w') => (Ok a, w')
           | (Raise e, w') => if is_Exception e then h e w' else (Raise e, w')
           end.

Definition print (l : line) : M unit :=
  fun w => (Ok tt, mkWorld (cwd w) (files w) (console w ++ [l])).

Definition lift {A} (o : outcome A) : M A := fun w => (o, w).

Declare Scope py_scope.
Delimit Scope py_scope with py.
Notation "x <- c ;; k" := (bind c (fun x => k))
  (at level 100, c at next level, right associativity) : py_scope.
Notation "c ;;; k" := (bind c (fun _ => k))
  (at level 100, right associativity) : py_scope.
Local Open Scope py_scope.

(** ** The calls into [os], [os.path] and [shutil] *)

(** [os.path.exists(p)] and [os.path.isdir(p)]. *)
Definition exists_ (w : world) (p : string) : bool :=
  match stat w p with
  | Some _ => true
  | None => false
  end.

Definition isdir (w : world) (p : string) : bool :=
  match stat w p with
  | Some Dir => true
  | _ => false
  end.

(** [child_name k k'] is [Some n] when [k' = k ++ [n]]. *)
Fixpoint child_name (k k' : key) : option string :=
  match k, k' with
  | [], [n] => Some n
  | c :: k, c' :: k' => if String.eqb c c' then child_name k k' else None
  | _, _ => None
  end.

(** [os.listdir(p)]: the names of the entries of directory [p], files and
    directories alike, in the order the file system yields them. *)
Definition listdir (p : string) : M (list string) :=
  fun w =>
    match stat w p with
    | None => (Raise FileNotFoundError, w)
    | Some (File _) => (Raise NotADirectoryError, w)
    | Some Dir =>
        (Ok (omap (fun kn => child_name (resolve w p) (fst kn))
                  (map_to_list (files w))), w)
    end.

(** [os.path.getsize(p)].  For a directory [st_size] depends on the file
    system; the model takes one 4096-byte block. *)
Definition getsize (p : string) : M Z :=
  fun w =>
    match stat w p with
    | None => (Raise FileNotFoundError, w)
    | Some Dir => (Ok 4096, w)
    | Some (File c) => (Ok (nbytes_of c), w)
    end.

(** [os.mkdir] on a resolved path. *)
Definition mkdir_key (k : key) (f : gmap key node)
  : outcome unit * gmap key node :=
  match node_at f k with
  | Some _ => (Raise FileExistsError, f)
  | None =>
      match node_at f (removelast k) with
      | None => (Raise FileNotFoundError, f)
      | Some (File _) => (Raise NotADirectoryError, f)
      | Some Dir => (Ok tt, <[k := Dir]> f)
      end
  end.

(** [os.makedirs(name, exist_ok=True)], by recursion on the reversed
    resolved path [rk] (the leaf first, so that the tail of [rk] is
    [head]): the parents are made first when [head] does not exist, a
    [FileExistsError] from that call is swallowed, then the leaf is made,
    and an [OSError] from [mkdir] is swallowed when the leaf is a
    directory. *)
Fixpoint makedirs_rev (rk : list string) (f : gmap key node)
  : outcome unit * gmap key node :=
  let name := rev rk in
  let parents :=
    match rk with
    | _ :: ((_ :: _) as rhead) =>
        match node_at f (rev rhead) with
        | Some _ => (Ok tt, f)
        | None =>
            match makedirs_rev rhead f with
            | (Raise FileExistsError, f') => (Ok tt, f')
            | r => r
            end
        end
    | _ => (Ok tt, f)
    end in
  match parents with
  | (Raise e, f') => (Raise e, f')
  | (Ok _, f') =>
      match mkdir_key name f' with
      | (Ok _, f'') => (Ok tt, f'')
      | (Raise e, f'') =>
          match node_at f'' name with
          | Some Dir => (Ok tt, f'')
          | _ => (Raise e, f'')
          end
      end
  end.

Definition makedirs (name : string) : M unit :=
  fun w =>
    let (r, f) := makedirs_rev (rev (resolve w name)) (files w) in
    (r, set_files f w).

(** Opening [p] for writing ([open(p, 'wb')], [open(p, 'w+b')]): [p] must
    not be a directory and its parent must be one.  Returns the resolved
    path. *)
Definition open_for_writing (w : world) (p : string) : outcome key :=
  let k := resolve w p in
  match node_at (files w) k with
  | Some Dir => Raise IsADirectoryError
  | _ =>
      match node_at (files w) (removelast k) with
      | None => Raise FileNotFoundError
      | Some (File _) => Raise NotADirectoryError
      | Some Dir => Ok k
      end
  end.

(** Opening [p] for reading ([open(p, 'rb')]). *)
Definition open_for_reading (w : world) (p : string) : outcome content :=
  match stat w p with
  | None => Raise FileNotFoundError
  | Some Dir => Raise IsADirectoryError
  | Some (File c) => Ok c
  end.

(** [os.path.samefile(a, b)] as [shutil._samefile] uses it: false when
    either does not exist. *)
Definition samefile (w : world) (a b : string) : bool :=
  exists_ w a && exists_ w b && bool_decide (resolve w a = resolve w b).

(** [shutil.copy2(src, dst)]: when [dst] is a directory the copy goes
    inside it; the source is opened, then the destination, and the bytes
    are copied. *)
Definition copy2 (src dst : string) : M string :=
  fun w =>
    let dst := if isdir w dst then join dst (basename src) else dst in
    if samefile w src dst then (Raise SameFileError, w)
    else
      match open_for_reading w src with
      | Raise e => (Raise e, w)
      | Ok c =>
          match open_for_writing w dst with
          | Raise e => (Raise e, w)
          | Ok k => (Ok dst, set_files (<[k := File c]> (files w)) w)
          end
      end.

(** ** Strings: [str.lower], [str.endswith], [sorted] *)

(** [str.lower], on bytes: the letters A-Z become a-z and every other
    byte is kept.  Python also lowers letters outside ASCII; that does not
    change whether a name ends with one of the ASCII extensions tested on
    line 60. *)
Definition ascii_lower (c : ascii) : ascii :=
  let n := N_of_ascii c in
  if ((65 <=? n) && (n <=? 90))%N then ascii_of_N (n + 32) else c.

Fixpoint lower (s : string) : string :=
  match s with
  | EmptyString => EmptyString
  | String c r => String (ascii_lower c) (lower r)
  end.

(** [s.endswith(suffix)]. *)
Fixpoint endswith (s suffix : string) : bool :=
  String.eqb s suffix ||
  match s with
  | EmptyString => false
  | String _ r => endswith r suffix
  end.

(** [s.endswith(suffixes)] for a tuple of suffixes. *)
Definition endswith_any (s : string) (suffixes : list string) : bool :=
  existsb (endswith s) suffixes.

(** The order of Python's [<=] on [str]: lexicographic on code points,
    which is the lexicographic order of the UTF-8 bytes. *)
Definition str_le (a b : string) : Prop := String.leb a b = true.

#[global] Instance str_le_dec : RelDecision str_le.
Proof. intros a b. unfold str_le. apply _. Defined.

(** [sorted(l)] on a list of [str].  Python sorts with a stable merge
    sort (Timsort); so does the model. *)
Definition sorted (l : list string) : list string := merge_sort str_le l.

(** ** The script *)

Section Script.

(** The number of bytes of the JPEG stream the encoder produces for an
    image at a quality setting (with [optimize=True]): a function of the
    pixels, which the model does not have.  A JPEG stream is never
    empty. *)
Variable jpeg_nbytes : Pillow.Image -> Z -> positive.

Import Pillow.

(** [Image.MAX_IMAGE_PIXELS]. *)
Definition MAX_IMAGE_PIXELS : Z := 89478485.

(** [Image._decompression_bomb_check(size)]: whether [Image.open]
    refuses the picture, which it does above twice [MAX_IMAGE_PIXELS]
    pixels. *)
Definition is_decompression_bomb (im : Image) : bool :=
  2 * MAX_IMAGE_PIXELS <? Z.max 1 (width im) * Z.max 1 (height im).

(** [Image.open(p)]; the picture is identified from the bytes of the
    file. *)
Definition Image_open (p : string) : M Image :=
  fun w =>
    match open_for_reading w p with
    | Raise e => (Raise e, w)
    | Ok (Opaque _) => (Raise UnidentifiedImageError, w)
    | Ok (Encoded _ im _) =>
        if is_decompression_bomb im
        then (Raise DecompressionBombError, w)
        else (Ok im, w)
    end.

(** [img.save(p, 'JPEG', quality=quality, optimize=True)].  [Image.save]
    opens [p] with mode [w+b], which creates or empties it, and then runs
    the JPEG writer; when the writer raises, the file is removed if this
    call created it.  The writer refuses an empty image and a mode outside
    [RAWMODE], and libjpeg refuses a side longer than 65500 pixels.  The
    file written holds no EXIF block. *)
Definition Image_save_JPEG (im : Image) (p : string) (quality : Z) : M unit :=
  fun w =>
    match open_for_writing w p with
    | Raise e => (Raise e, w)
    | Ok k =>
        let created := negb (exists_ w p) in
        let failed (e : exn) : outcome unit * world :=
          (Raise e,
           if created then w
           else set_files (<[k := File (Opaque 0)]> (files w)) w) in
        if (width im =? 0) || (height im =? 0) then failed ValueError
        else
          match jpeg_rawmode (img_mode im) with
          | None => failed CannotWriteMode
          | Some _ =>
              if (65500 <? width im) || (65500 <? height im)
              then failed EncoderError
              else
              (Ok tt,
               set_files
                 (<[k := File (Encoded JPEG (jpeg_readback im)
                                       (jpeg_nbytes im quality))]>
                    (files w)) w)
          end
    end.

(** [img.mode in ('RGBA', 'P')] (line 22). *)
Definition mode_in_RGBA_P (im : Image) : bool :=
  existsb (String.eqb (mode_name (img_mode im))) ["RGBA"; "P"].

(** Lines 20-23: the image as it is when its size is read on line 25. *)
Definition normalize (img : Image) : Image :=
  let img := exif_transpose img in
  if mode_in_RGBA_P img then convert_RGB img else img.

(** Lines 27-29: the conditional resize, with its [print]. *)
Definition resize_step (image_path : string) (img : Image)
    (max_width max_height : Z) : M Image :=
  let '(original_width, original_height) := size img in
  if (original_width >? max_width) || (original_height >? max_height) then
    img' <- lift (thumbnail img max_width max_height) ;;
    print (Resized (basename image_path) original_width original_height
                   (width img') (height img')) ;;;
    ret img'
  else ret img.

(** Lines 19-40: the body of the [try]. *)
Definition reduce_image_size_body (image_path output_path : string)
    (quality max_width max_height : Z) : M (Z * Z) :=
  img <- Image_open image_path ;;
  let img := normalize img in
  img <- resize_step image_path img max_width max_height ;;
  original_size <- getsize image_path ;;
  Image_save_JPEG img output_path quality ;;;
  new_size <- getsize output_path ;;
  (if original_size =? 0 then raise ZeroDivisionError else ret tt) ;;;
  print (Compressed (basename image_path) original_size new_size) ;;;
  ret (original_size, new_size).

(** Lines 7-44. *)
Definition reduce_image_size (image_path output_path : string)
    (quality max_width max_height : Z) : M (Z * Z) :=
  try_except
    (reduce_image_size_body image_path output_path
                            quality max_width max_height)
    (fun e => print (ErrorProcessing image_path e) ;;; ret (0, 0)).

(** Line 56. *)
Definition supported_formats : list string :=
  [".jpg"; ".jpeg"; ".png"; ".bmp"; ".tiff"; ".webp"].

(** Line 60. *)
Definition is_supported (filename : string) : bool :=
  endswith_any (lower filename) supported_formats.

(** Lines 57-61: the loop that fills [image_files]. *)
Definition collect (folder_path : string) (names : list string)
  : list string :=
  fold_left
    (fun image_files filename =>
       if is_supported filename
       then image_files ++ [join folder_path filename]
       else image_files)
    names [].

(** Lines 46-63. *)
Definition get_image_files (folder_path : string) : M (list string) :=
  names <- listdir folder_path ;;
  ret (sorted (collect folder_path names)).

(** Lines 65-81. *)
Definition create_folders (base_path : string) : M (string * string) :=
  let backup_folder := join base_path "backup" in
  let reduced_folder := join base_path "reduced" in
  makedirs backup_folder ;;;
  makedirs reduced_folder ;;;
  ret (backup_folder, reduced_folder).

(** Lines 84-86. *)
Definition QUALITY : Z := 85.
Definition MAX_WIDTH : Z := 1200.
Definition MAX_HEIGHT : Z := 1200.

(** Lines 120-122: the three counters of [main]. *)
Record totals : Type := mkTotals {
  processed_count : Z;
  total_original_size : Z;
  total_new_size : Z
}.

(** The signature of [reduce_image_size], the function [main] calls on
    line 134. *)
Definition transform_fn : Type := string -> string -> Z -> Z -> Z -> M (Z * Z).

(** Lines 126-148: one turn of the loop, for the transform bound to the
    name [reduce_image_size]. *)
Definition process_file_with (transform : transform_fn)
    (backup_folder reduced_folder : string) (t : totals)
    (image_path : string) : M totals :=
  let filename := basename image_path in
  let backup_path := join backup_folder filename in
  let reduced_path := join reduced_folder filename in
  try_except
    (copy2 image_path backup_path ;;;
     print (CreatedBackup filename) ;;;
     sizes <- transform image_path reduced_path QUALITY MAX_WIDTH MAX_HEIGHT ;;
     let '(original_size, new_size) := sizes in
     if (original_size >? 0) && (new_size >? 0) then
       ret (mkTotals (processed_count t + 1)
                     (total_original_size t + original_size)
                     (total_new_size t + new_size))
     else ret t)
    (fun e => print (ErrorProcessing filename e) ;;; ret t).

Definition process_file : string -> string -> totals -> string -> M totals :=
  process_file_with reduce_image_size.

(** Lines 125-148: the loop. *)
Fixpoint process_files_with (transform : transform_fn)
    (backup_folder reduced_folder : string)
    (image_files : list string) (t : totals) : M totals :=
  match image_files with
  | [] => ret t
  | image_path :: rest =>
      t' <- process_file_with transform backup_folder reduced_folder
                              t image_path ;;
      process_files_with transform backup_folder reduced_folder rest t'
  end.

Definition process_files : string -> string -> list string -> totals -> M totals :=
  process_files_with reduce_image_size.

(** Lines 83-158.  [script_dir] is the value of
    [os.path.dirname(os.path.abspath(__file__))]. *)
Definition main (script_dir : string) : M unit :=
  let input_folder := join script_dir "photos" in
  fun w =>
    if negb (exists_ w input_folder) then
      print (PhotosFolderNotFound input_folder) w
    else if negb (isdir w input_folder) then
      print (IsNotADirectory input_folder) w
    else
      (image_files <- get_image_files input_folder ;;
       match image_files with
       | [] =>
           print (NoImageFilesFound input_folder) ;;;
           print SupportedFormats
       | _ =>
           folders <- create_folders script_dir ;;
           let '(backup_folder, reduced_folder) := folders in
           print Starting ;;;
           print (InputFolder input_folder) ;;;
           print (BackupFolder backup_folder) ;;;
           print (ReducedFolder reduced_folder) ;;;
           print (Settings QUALITY MAX_WIDTH MAX_HEIGHT) ;;;
           print (Found (length image_files)) ;;;
           print Rule ;;;
           t <- process_files backup_folder reduced_folder image_files
                              (mkTotals 0 0 0) ;;
           print Rule ;;;
           print ProcessingComplete ;;;
           print (ImagesProcessed (processed_count t)) ;;;
           if processed_count t >? 0 then
             print (TotalSizeReduction (total_original_size t)
                                       (total_new_size t)) ;;;
             print (BackedUpIn backup_folder) ;;;
             print (SavedIn reduced_folder)
           else ret tt
       end) w.

(** ** Vocabulary of the statements *)

(** Lines 20-28 without the [print]: the image handed to the encoder. *)
Definition prepared (img : Image) (max_width max_height : Z)
  : outcome Image :=
  let img := normalize img in
  if (width img >? max_width) || (height img >? max_height)
  then thumbnail img max_width max_height
  else Ok img.

(** What line 29 prints, if anything, when [img'] is the prepared image. *)
Definition resize_note (image_path : string) (img : Image)
    (max_width max_height : Z) (img' : Image) : list line :=
  let img := normalize img in
  if (width img >? max_width) || (height img >? max_height)
  then [Resized (basename image_path) (width img) (height img)
                (width img') (height img')]
  else [].

(** [w] with more lines on the console. *)
Definition printed (w : world) (ls : list line) : world :=
  mkWorld (cwd w) (files w) (console w ++ ls).

(** A file system is tree-like when every entry sits in a directory. *)
Definition tree_like (f : gmap key node) : Prop :=
  forall k n, f !! k = Some n -> node_at f (removelast k) = Some Dir.

(** The two steps of one turn of the loop of [main], seen from outside:
    [Some (original_size, new_size)] when the backup copy succeeds and
    then the body of [reduce_image_size] runs to its [return] on line 40;
    [None] when either step raises. *)
Definition contribution (backup_folder reduced_folder image_path : string)
    (w : world) : option (Z * Z) :=
  let filename := basename image_path in
  match copy2 image_path (join backup_folder filename) w with
  | (Raise _, _) => None
  | (Ok _, w1) =>
      match reduce_image_size_body image_path (join reduced_folder filename)
              QUALITY MAX_WIDTH MAX_HEIGHT
              (printed w1 [CreatedBackup filename]) with
      | (Ok sizes, _) => Some sizes
      | (Raise _, _) => None
      end
  end.

(** The contributions of the files of a run, each taken in the world the
    loop has reached when it comes to that file. *)
Fixpoint contributions (backup_folder reduced_folder : string)
    (image_files : list string) (w : world) : list (option (Z * Z)) :=
  match image_files with
  | [] => []
  | image_path :: rest =>
      contribution backup_folder reduced_folder image_path w ::
      contributions backup_folder reduced_folder rest
        (snd (process_file backup_folder reduced_folder (mkTotals 0 0 0)
                           image_path w))
  end.

(** The totals after the pairs [pairs] have been added to [t]. *)
Definition add_pairs (t : totals) (pairs : list (Z * Z)) : totals :=
  mkTotals (processed_count t + Z.of_nat (length pairs))
           (total_original_size t + foldr Z.add 0 (fst <$> pairs))
           (total_new_size t + foldr Z.add 0 (snd <$> pairs)).

End Script.

(** ** Example inputs *)

Module Examples.
Import Pillow.

(** A stand-in for the encoder: some positive number of bytes. *)
Definition sample_jpeg_nbytes (im : Image) (quality : Z) : positive :=
  Z.to_pos (width im * height im * quality / 1000 + 100).

(** A landscape JPEG photo stored with a quarter-turn orientation tag, a
    large RGBA PNG, a greyscale PNG with an alpha channel (Pillow mode
    [LA]) and a text file. *)
Definition rotated_jpeg : Image := mkImage RGB 800 600 (Some 6).
Definition large_rgba_png : Image := mkImage RGBA 2000 1500 None.
Definition grey_alpha_png : Image := mkImage LA 100 100 None.

Definition photos : list (key * node) :=
  [ (["app"], Dir);
    (["app"; "photos"], Dir);
    (["app"; "photos"; "a.jpg"], File (Encoded JPEG rotated_jpeg 90000));
    (["app"; "photos"; "b.PNG"], File (Encoded PNG large_rgba_png 500000));
    (["app"; "photos"; "c.png"], File (Encoded PNG grey_alpha_png 4000));
    (["app"; "photos"; "notes.txt"], File (Opaque 12)) ].

(** The script's directory before the first run. *)
Definition fresh_world : world := mkWorld [] (list_to_map photos) [].

(** The same with the two output folders in place. *)
Definition provisioned_world : world :=
  mkWorld []
    (list_to_map ((["app"; "backup"], Dir) :: (["app"; "reduced"], Dir)
                  :: photos)) [].

(** A [photos] folder that holds no picture. *)
Definition no_picture_world : world :=
  mkWorld []
    (list_to_map [ (["app"], Dir); (["app"; "photos"], Dir);
                   (["app"; "photos"; "notes.txt"], File (Opaque 12)) ]) [].

(** A transform that reports a new size of zero bytes. *)
Definition zero_new_size_transform : transform_fn :=
  fun _ _ _ _ _ => ret (5, 0).

End Examples.

(** ** Vocabulary of the further properties *)

(** [k] lies strictly below the directory [d]. *)
Definition below (d k : key) : Prop :=
  exists rest, rest <> [] /\ k = d ++ rest.

Module MoreExamples.

(** The script's directory with a regular file where the [backup]
    folder should go. *)
Definition blocked_world : world :=
  mkWorld []
    (list_to_map ((["app"; "backup"], File (Opaque 3)) :: Examples.photos))
    [].

(** A directory without a [photos] folder. *)
Definition no_photos_world : world :=
  mkWorld [] (list_to_map [ (["app"], Dir) ]) [].

End MoreExamples.

(** * Properties *)

(** ** Rounding functions

    What follows from the five properties of [FloatRounding], for any
    rounding function [fl]. *)

Module FloatFacts.
Import Pillow.
Local Open Scope Q_scope.

Section Rounding.
Context (fl : Q -> Q) {Hfl : FloatRounding fl}.

#[global] Instance fl_proper : Proper (Qeq ==> Qeq) fl.
Proof.
  intros p q E. apply Qle_antisym; apply fl_mono; rewrite E; apply Qle_refl.
Qed.

Lemma fl_0 : fl 0 == 0.
Proof. apply (fl_int 0%Z). simpl. lia. Qed.

Lemma fl_nonneg q : 0 <= q -> 0 <= fl q.
Proof. intros H. rewrite <- fl_0. now apply fl_mono. Qed.

Lemma fl_nonpos q : q <= 0 -> fl q <= 0.
Proof. intros H. rewrite <- fl_0. now apply fl_mono. Qed.

Lemma fl_le_int q z :
  (Z.abs z <= 9007199254740992)%Z -> q <= inject_Z z -> fl q <= inject_Z z.
Proof. intros Hz H. rewrite <- (fl_int z Hz). now apply fl_mono. Qed.

Lemma fl_ge_int q z :
  (Z.abs z <= 9007199254740992)%Z -> inject_Z z <= q -> inject_Z z <= fl q.
Proof. intros Hz H. rewrite <- (fl_int z Hz). now apply fl_mono. Qed.

Lemma fl_le_fl p q : p <= fl q -> fl p <= fl q.
Proof. intros H. rewrite <- (fl_idem q). now apply fl_mono. Qed.

Lemma fl_ge_fl p q : fl q <= p -> fl q <= fl p.
Proof. intros H. rewrite <- (fl_idem q). now apply fl_mono. Qed.

Lemma fl_up q : float_lo <= q <= float_hi -> fl q <= q + unit_roundoff * q.
Proof. intros H. destruct (fl_acc q H) as [_ H2]. lra. Qed.

Lemma fl_down q : float_lo <= q <= float_hi -> q - unit_roundoff * q <= fl q.
Proof. intros H. destruct (fl_acc q H) as [H1 _]. lra. Qed.

End Rounding.

(** A quotient of sizes lies where the relative error is bounded. *)
Lemma ratio_range (n d : Q) :
  1 # 4 <= n <= 1180591620717411303424 -> 1 <= d <= 1180591620717411303424 ->
  float_lo <= n / d <= float_hi.
Proof.
  intros Hn Hd. unfold float_lo, float_hi. split.
  - apply Qle_shift_div_l; lra.
  - apply Qle_shift_div_r; lra.
Qed.

(** The rounded product [y * a] against the quotients [j / y]: when [a]
    is at most the rounded [j / y], the product stays below [j + 1/2], and
    when [a] is at least the rounded [j / y], above [j - 1/2]. *)
Section Case1.
Context (fl : Q -> Q) {Hfl : FloatRounding fl}.
Variables (a Y : Q).
Hypothesis HY : 1 <= Y <= 2147483648.

Lemma below_grid (J : Q) :
  1 <= J <= 4294967296 -> a <= fl (J / Y) -> fl (Y * a) < J + (1 # 2).
Proof using HY Hfl.
  intros HJ Ha.
  assert (Hr : float_lo <= J / Y <= float_hi) by (apply ratio_range; lra).
  pose proof (fl_up fl _ Hr) as Hu.
  set (t := J / Y) in *.
  assert (Ht : t * Y == J) by (unfold t; field; lra).
  unfold unit_roundoff in *.
  assert (H1 : Y * a <= J + (1 # 4)) by nra.
  apply (fl_mono (fl:=fl)) in H1.
  assert (Hr2 : float_lo <= J + (1 # 4) <= float_hi)
    by (unfold float_lo, float_hi; lra).
  pose proof (fl_up fl _ Hr2) as Hu2. unfold unit_roundoff in *. lra.
Qed.

Lemma above_grid (J : Q) :
  1 <= J <= 4294967296 -> fl (J / Y) <= a -> J - (1 # 2) < fl (Y * a).
Proof using HY Hfl.
  intros HJ Ha.
  assert (Hr : float_lo <= J / Y <= float_hi) by (apply ratio_range; lra).
  pose proof (fl_down fl _ Hr) as Hu.
  set (t := J / Y) in *.
  assert (Ht : t * Y == J) by (unfold t; field; lra).
  unfold unit_roundoff in *.
  assert (H1 : J - (1 # 4) <= Y * a) by nra.
  apply (fl_mono (fl:=fl)) in H1.
  assert (Hr2 : float_lo <= J - (1 # 4) <= float_hi)
    by (unfold float_lo, float_hi; lra).
  pose proof (fl_down fl _ Hr2) as Hu2. unfold unit_roundoff in *. lra.
Qed.

End Case1.

(** Integers, floors and ceilings. *)
Lemma Zle_of_Qlt (a b : Z) : inject_Z a < inject_Z b + 1 -> (a <= b)%Z.
Proof.
  intros H. apply Z.lt_succ_r. rewrite Zlt_Qlt. unfold Z.succ.
  rewrite inject_Z_plus. exact H.
Qed.

Lemma inject_Z_succ (a : Z) : inject_Z (a + 1) == inject_Z a + 1.
Proof. now rewrite inject_Z_plus. Qed.

Lemma inject_Z_pred (a : Z) : inject_Z (a - 1) == inject_Z a - 1.
Proof. unfold Z.sub. rewrite inject_Z_plus. reflexivity. Qed.

(** [min(a, b, key=key)] is [a] unless the key of [b] is strictly less. *)
Lemma min_by_spec (key : Z -> Q) (a b : Z) :
  (min_by key a b = a /\ key a <= key b) \/
  (min_by key a b = b /\ key b < key a).
Proof.
  unfold min_by. destruct (Qle_bool (key a) (key b)) eqn:E.
  - left. split; [reflexivity|]. now apply Qle_bool_iff.
  - right. split; [reflexivity|]. apply Qnot_le_lt. intros H.
    apply Qle_bool_iff in H. congruence.
Qed.

Lemma floor_ceiling_cases (N : Q) :
  (Qceiling N = Qfloor N /\ N == inject_Z (Qfloor N)) \/
  (Qceiling N = (Qfloor N + 1)%Z /\ inject_Z (Qfloor N) < N /\
   N < inject_Z (Qfloor N) + 1).
Proof.
  pose proof (Qfloor_le N) as H1. pose proof (Qlt_floor N) as H2.
  pose proof (Qle_ceiling N) as H3. pose proof (Qceiling_lt N) as H4.
  rewrite inject_Z_succ in H2. rewrite inject_Z_pred in H4.
  destruct (Qlt_le_dec (inject_Z (Qfloor N)) N) as [Hlt|Hle].
  - right. split; [|split; assumption].
    apply Z.le_antisymm.
    + apply Zle_of_Qlt. rewrite inject_Z_succ. lra.
    + apply Zle_of_Qlt. rewrite inject_Z_succ. lra.
  - left. assert (E : N == inject_Z (Qfloor N)) by lra. split; [|exact E].
    apply Z.le_antisymm.
    + apply Zle_of_Qlt. lra.
    + apply Zle_of_Qlt. lra.
Qed.

Lemma dim_ok_Q (z : Z) : dim_ok z -> 1 <= inject_Z z <= 2147483648.
Proof.
  intros [H1 H2]. split.
  - change 1 with (inject_Z 1). now rewrite <- Zle_Qle.
  - change 2147483648 with (inject_Z 2147483648). rewrite <- Zle_Qle. lia.
Qed.

(** The keys [abs(a - g)], for rounded quotients [g]: of two quotients on
    the same side of [a], the nearer has the smaller key; the key is zero
    at [a] itself and positive away from it. *)
Section Keys.
Context (fl : Q -> Q) {Hfl : FloatRounding fl}.

Lemma key_below (a p q : Q) :
  a <= fl p -> fl p <= fl q ->
  Qabs (fl (a - fl p)) <= Qabs (fl (a - fl q)).
Proof using Hfl.
  intros H1 H2.
  assert (A : fl (a - fl p) <= 0) by (apply fl_nonpos; [assumption|lra]).
  assert (B : fl (a - fl q) <= fl (a - fl p)) by (apply fl_mono; lra).
  rewrite !Qabs_neg by lra. lra.
Qed.

Lemma key_above (a p q : Q) :
  fl p <= a -> fl q <= fl p ->
  Qabs (fl (a - fl p)) <= Qabs (fl (a - fl q)).
Proof using Hfl.
  intros H1 H2.
  assert (A : 0 <= fl (a - fl p)) by (apply fl_nonneg; [assumption|lra]).
  assert (B : fl (a - fl p) <= fl (a - fl q)) by (apply fl_mono; lra).
  rewrite !Qabs_pos by lra. lra.
Qed.

Lemma key_zero (a p : Q) : a == fl p -> Qabs (fl (a - fl p)) == 0.
Proof using Hfl.
  intros E. assert (E' : a - fl p == 0) by lra.
  rewrite (fl_proper fl _ _ E'). rewrite (fl_0 fl). reflexivity.
Qed.

Lemma key_positive (a p t : Q) :
  float_lo <= t <= float_hi -> t <= a - fl p \/ a - fl p <= - t ->
  0 < Qabs (fl (a - fl p)).
Proof using Hfl.
  intros Ht [H|H].
  - apply (fl_mono (fl:=fl)) in H. pose proof (fl_down fl t Ht) as D.
    unfold float_lo, unit_roundoff in *.
    rewrite Qabs_pos by lra. lra.
  - apply (fl_mono (fl:=fl)) in H. rewrite fl_opp in H.
    pose proof (fl_down fl t Ht) as D.
    unfold float_lo, unit_roundoff in *.
    rewrite Qabs_neg by lra. lra.
Qed.

End Keys.

Lemma grid_ok_Q (z : Z) :
  (1 <= z <= 4294967296)%Z -> 1 <= inject_Z z <= 4294967296.
Proof.
  intros [H1 H2]. split.
  - change 1 with (inject_Z 1). now rewrite <- Zle_Qle.
  - change 4294967296 with (inject_Z 4294967296). now rewrite <- Zle_Qle.
Qed.

Lemma nonneg_Q (z : Z) : (0 <= z)%Z -> 0 <= inject_Z z.
Proof. intros H. change 0 with (inject_Z 0). now rewrite <- Zle_Qle. Qed.

Lemma mul_le_of_le_div (a b c : Q) : 0 < c -> a <= b / c -> c * a <= b.
Proof.
  intros Hc H. set (t := b / c) in *.
  assert (E : t * c == b) by (unfold t; field; lra). nra.
Qed.

Lemma le_mul_of_div_le (a b c : Q) : 0 < c -> b / c <= a -> b <= c * a.
Proof.
  intros Hc H. set (t := b / c) in *.
  assert (E : t * c == b) by (unfold t; field; lra). nra.
Qed.

(** The rounded quotient [x / a] against the quotients [x / j]. *)
Section Case2.
Context (fl : Q -> Q) {Hfl : FloatRounding fl}.
Variables (a X : Q).
Hypothesis HX : 1 <= X <= 2147483648.
Hypothesis Ha : 0 < a.

Lemma below_grid_h (J : Q) :
  1 <= J <= 4294967296 -> fl (X / J) <= a -> fl (X / a) < J + (1 # 2).
Proof using HX Ha Hfl.
  intros HJ Hle.
  assert (Hr : float_lo <= X / J <= float_hi) by (apply ratio_range; lra).
  pose proof (fl_down fl _ Hr) as Hd.
  set (p := X / J) in *.
  assert (Ep : p * J == X) by (unfold p; field; lra).
  assert (P0 : 0 < p) by (unfold p; apply Qlt_shift_div_l; lra).
  unfold unit_roundoff in *.
  assert (H1 : X / a <= J + (1 # 4)).
  { apply Qle_shift_div_r; [assumption|].
    assert (B1 : X - (1 # 9007199254740992) * X <= a * J) by nra.
    assert (B2 : X <= 4294967296 * p) by nra.
    lra. }
  apply (fl_mono (fl:=fl)) in H1.
  assert (Hr2 : float_lo <= J + (1 # 4) <= float_hi)
    by (unfold float_lo, float_hi; lra).
  pose proof (fl_up fl _ Hr2) as Hu2. unfold unit_roundoff in *. lra.
Qed.

Lemma above_grid_h (J : Q) :
  1 <= J <= 4294967296 -> a <= fl (X / J) -> J - (1 # 2) < fl (X / a).
Proof using HX Ha Hfl.
  intros HJ Hle.
  assert (Hr : float_lo <= X / J <= float_hi) by (apply ratio_range; lra).
  pose proof (fl_up fl _ Hr) as Hd.
  set (p := X / J) in *.
  assert (Ep : p * J == X) by (unfold p; field; lra).
  assert (P0 : 0 < p) by (unfold p; apply Qlt_shift_div_l; lra).
  unfold unit_roundoff in *.
  assert (H1 : J - (1 # 4) <= X / a).
  { apply Qle_shift_div_l; [assumption|].
    assert (B1 : a * J <= X + (1 # 9007199254740992) * X) by nra.
    assert (B2 : X <= 4294967296 * p) by nra.
    assert (B3 : p - (1 # 9007199254740992) * p <= a \/
                 a < p - (1 # 9007199254740992) * p)
      by (destruct (Qlt_le_dec a (p - (1 # 9007199254740992) * p)); auto).
    destruct B3 as [B3|B3].
    - lra.
    - assert (B4 : a * J <= (p - (1 # 9007199254740992) * p) * J) by nra.
      nra. }
  apply (fl_mono (fl:=fl)) in H1.
  assert (Hr2 : float_lo <= J - (1 # 4) <= float_hi)
    by (unfold float_lo, float_hi; lra).
  pose proof (fl_down fl _ Hr2) as Hu2. unfold unit_roundoff in *. lra.
Qed.

End Case2.

End FloatFacts.

(** ** [round_double] is a rounding function

    [round_double] rounds to the nearest number with a significand of 53
    bits; it has the five properties of [FloatRounding]. *)

Module RoundDouble.
Import FloatFacts.
Local Open Scope Q_scope.

Lemma pow2_pos (k : Z) : 0 < 2 ^ k.
Proof. apply Qpower_0_lt. reflexivity. Qed.

Lemma pow2_succ (k : Z) : 2 ^ (k + 1) == 2 * 2 ^ k.
Proof. rewrite Qpower_plus by discriminate. rewrite Qpower_1_r. ring. Qed.

Lemma pow2_pred (k : Z) : 2 ^ (k - 1) == 2 ^ k / 2.
Proof. rewrite Qpower_minus by discriminate. rewrite Qpower_1_r. reflexivity. Qed.

Lemma pow2_Z (k : Z) : (0 <= k)%Z -> inject_Z (2 ^ k) == 2 ^ k.
Proof. intros H. now rewrite Zpower_Qpower. Qed.

Lemma Qdiv_le_cross (a b c d : Q) :
  0 < b -> 0 < d -> a * d <= c * b -> a / b <= c / d.
Proof.
  intros Hb Hd H. apply Qle_shift_div_l; [assumption|].
  assert (T : a / b * d == a * d / b) by (field; lra).
  rewrite T. apply Qle_shift_div_r; assumption.
Qed.

Lemma Qdiv_lt_cross (a b c d : Q) :
  0 < b -> 0 < d -> a * d < c * b -> a / b < c / d.
Proof.
  intros Hb Hd H. apply Qlt_shift_div_l; [assumption|].
  assert (T : a / b * d == a * d / b) by (field; lra).
  rewrite T. apply Qlt_shift_div_r; assumption.
Qed.

Lemma exponent_spec (q : Q) :
  0 < q -> 2 ^ exponent q <= q /\ q < 2 ^ (exponent q + 1).
Proof.
  intros Hq. destruct q as [n d].
  assert (Hn : (0 < n)%Z).
  { unfold Qlt in Hq. simpl in Hq. lia. }
  unfold exponent. cbn [Qnum Qden].
  set (ln := Z.log2 n). set (ld := Z.log2 (Z.pos d)).
  pose proof (Z.log2_spec n Hn) as [Hn1 Hn2].
  pose proof (Z.log2_spec (Z.pos d) eq_refl) as [Hd1 Hd2].
  pose proof (Z.log2_nonneg n) as Ln. pose proof (Z.log2_nonneg (Z.pos d)) as Ld.
  fold ln in Hn1, Hn2, Ln. fold ld in Hd1, Hd2, Ld.
  rewrite Z.pow_succ_r in Hn2, Hd2 by assumption.
  rewrite Zle_Qle in Hn1, Hd1. rewrite Zlt_Qlt in Hn2, Hd2.
  rewrite inject_Z_mult in Hn2, Hd2.
  rewrite pow2_Z in Hn1, Hn2, Hd1, Hd2 by assumption.
  change (inject_Z 2) with 2 in *.
  pose proof (pow2_pos ln) as PA. pose proof (pow2_pos ld) as PB.
  assert (El : 2 ^ (ln - ld) == 2 ^ ln / 2 ^ ld) by (apply Qpower_minus; discriminate).
  assert (Eq : n # d == inject_Z n / inject_Z (Z.pos d)) by apply Qmake_Qdiv.
  set (A := 2 ^ ln) in *. set (B := 2 ^ ld) in *.
  set (N := inject_Z n) in *. set (D := inject_Z (Z.pos d)) in *.
  assert (Lo : A / B / 2 <= N / D).
  { assert (T : A / B / 2 == A / (2 * B)) by (field; lra).
    rewrite T. apply Qdiv_le_cross; [lra|lra|]. nra. }
  assert (Hi : N / D < 2 * (A / B)).
  { assert (T : 2 * (A / B) == 2 * A / B) by (field; lra).
    rewrite T. apply Qdiv_lt_cross; [lra|lra|]. nra. }
  destruct (Qle_bool (2 ^ (ln - ld)) (n # d)) eqn:C.
  - apply Qle_bool_iff in C. split; [exact C|].
    rewrite pow2_succ, El, Eq. exact Hi.
  - assert (C' : n # d < 2 ^ (ln - ld)).
    { apply Qnot_le_lt. intros H. apply Qle_bool_iff in H. congruence. }
    split.
    + rewrite pow2_pred, El, Eq. exact Lo.
    + replace (ln - ld - 1 + 1)%Z with (ln - ld)%Z by lia. exact C'.
Qed.

Lemma exponent_unique (q : Q) (k : Z) :
  2 ^ k <= q -> q < 2 ^ (k + 1) -> exponent q = k.
Proof.
  intros H1 H2.
  assert (Hq : 0 < q) by (pose proof (pow2_pos k); lra).
  destruct (exponent_spec q Hq) as [E1 E2].
  assert (A : (exponent q < k + 1)%Z).
  { apply (Qpower_lt_compat_l_inv 2); [lra|reflexivity]. }
  assert (B : (k < exponent q + 1)%Z).
  { apply (Qpower_lt_compat_l_inv 2); [lra|reflexivity]. }
  lia.
Qed.

Lemma round_half_even_cases (s : Q) :
  (round_half_even s = Qfloor s /\ s - inject_Z (Qfloor s) <= 1 # 2 /\
   (s - inject_Z (Qfloor s) == 1 # 2 -> Z.even (Qfloor s) = true)) \/
  (round_half_even s = (Qfloor s + 1)%Z /\ 1 # 2 <= s - inject_Z (Qfloor s) /\
   (s - inject_Z (Qfloor s) == 1 # 2 -> Z.even (Qfloor s) = false)).
Proof.
  unfold round_half_even.
  destruct (Qcompare_spec (s - inject_Z (Qfloor s)) (1 # 2)) as [E|L|G].
  - destruct (Z.even (Qfloor s)) eqn:Ev.
    + left. split; [reflexivity|split; [lra|auto]].
    + right. split; [reflexivity|split; [lra|auto]].
  - left. split; [reflexivity|split; [lra|]]. intros E. lra.
  - right. split; [reflexivity|split; [lra|]]. intros E. lra.
Qed.

Lemma round_half_even_close (s : Q) :
  Qabs (inject_Z (round_half_even s) - s) <= 1 # 2.
Proof.
  pose proof (Qfloor_le s) as F1. pose proof (Qlt_floor s) as F2.
  rewrite inject_Z_succ in F2. apply Qabs_Qle_condition.
  destruct (round_half_even_cases s) as [(-> & A & _)|(-> & A & _)].
  - lra.
  - rewrite inject_Z_succ. lra.
Qed.

Lemma round_half_even_Z (z : Z) : round_half_even (inject_Z z) = z.
Proof.
  destruct (round_half_even_cases (inject_Z z)) as [(-> & _)|(_ & A & _)].
  - apply Qfloor_Z.
  - rewrite Qfloor_Z in A. lra.
Qed.

Lemma round_half_even_comp (s t : Q) :
  s == t -> round_half_even s = round_half_even t.
Proof.
  intros E. unfold round_half_even. rewrite (Qfloor_comp s t E).
  assert (C : Qcompare (s - inject_Z (Qfloor t)) (1 # 2)
              = Qcompare (t - inject_Z (Qfloor t)) (1 # 2))
    by (rewrite E; reflexivity).
  rewrite C. reflexivity.
Qed.

Lemma round_half_even_mono (s t : Q) :
  s <= t -> (round_half_even s <= round_half_even t)%Z.
Proof.
  intros L. pose proof (Qfloor_resp_le s t L) as F.
  destruct (round_half_even_cases s) as [(-> & A & A')|(-> & A & A')];
  destruct (round_half_even_cases t) as [(-> & B & B')|(-> & B & B')];
    try lia.
  destruct (Z_lt_ge_dec (Qfloor s) (Qfloor t)) as [?|G]; [lia|].
  assert (E : Qfloor s = Qfloor t) by lia.
  rewrite E in *.
  assert (E1 : s - inject_Z (Qfloor t) == 1 # 2) by lra.
  assert (E2 : t - inject_Z (Qfloor t) == 1 # 2) by lra.
  specialize (A' E1). specialize (B' E2). congruence.
Qed.

Lemma pow2_52 : 2 ^ 52 == 4503599627370496.
Proof. reflexivity. Qed.

Lemma scaled_range (q : Q) :
  0 < q ->
  4503599627370496 <= q / 2 ^ (exponent q - 52) /\
  q / 2 ^ (exponent q - 52) < 9007199254740992.
Proof.
  intros Hq. destruct (exponent_spec q Hq) as [E1 E2].
  set (e := (exponent q - 52)%Z).
  pose proof (pow2_pos e) as P.
  assert (X1 : 2 ^ exponent q == 4503599627370496 * 2 ^ e).
  { replace (exponent q) with (e + 52)%Z by (unfold e; lia).
    rewrite Qpower_plus by discriminate. rewrite pow2_52. ring. }
  assert (X2 : 2 ^ (exponent q + 1) == 9007199254740992 * 2 ^ e).
  { rewrite pow2_succ, X1. ring. }
  rewrite X1 in E1. rewrite X2 in E2. split.
  - apply Qle_shift_div_l; assumption.
  - apply Qlt_shift_div_r; assumption.
Qed.

Lemma mantissa_range (q : Q) :
  0 < q ->
  (4503599627370496 <= round_half_even (q / 2 ^ (exponent q - 52))
   <= 9007199254740992)%Z.
Proof.
  intros Hq. destruct (scaled_range q Hq) as [S1 S2]. split.
  - rewrite <- (round_half_even_Z 4503599627370496).
    apply round_half_even_mono. exact S1.
  - rewrite <- (round_half_even_Z 9007199254740992).
    apply round_half_even_mono. apply Qlt_le_weak. exact S2.
Qed.

Lemma round_double_pos_exact (q : Q) (k : Z) :
  q / 2 ^ (exponent q - 52) == inject_Z k -> round_double_pos q == q.
Proof.
  intros E. unfold round_double_pos. cbv zeta.
  rewrite (round_half_even_comp _ _ E), round_half_even_Z, <- E.
  field. pose proof (pow2_pos (exponent q - 52)). lra.
Qed.

Lemma round_double_pos_repr (m e : Z) :
  (4503599627370496 <= m <= 9007199254740992)%Z ->
  round_double_pos (inject_Z m * 2 ^ e) == inject_Z m * 2 ^ e.
Proof.
  intros [M1 M2]. pose proof (pow2_pos e) as P.
  rewrite Zle_Qle in M1, M2.
  change (inject_Z 4503599627370496) with 4503599627370496 in M1.
  change (inject_Z 9007199254740992) with 9007199254740992 in M2.
  set (M := inject_Z m) in *.
  destruct (Qlt_le_dec M 9007199254740992) as [L|G].
  - assert (X : exponent (M * 2 ^ e) = (e + 52)%Z).
    { apply exponent_unique.
      - rewrite Qpower_plus by discriminate. rewrite pow2_52. nra.
      - rewrite pow2_succ, Qpower_plus by discriminate. rewrite pow2_52. nra. }
    apply (round_double_pos_exact _ m). rewrite X.
    replace (e + 52 - 52)%Z with e by lia. fold M. field. lra.
  - assert (EM : M == 9007199254740992) by lra.
    assert (X : exponent (M * 2 ^ e) = (e + 53)%Z).
    { apply exponent_unique.
      - replace (e + 53)%Z with (e + 52 + 1)%Z by lia.
        rewrite pow2_succ, Qpower_plus by discriminate. rewrite pow2_52. nra.
      - replace (e + 53 + 1)%Z with (e + 52 + 1 + 1)%Z by lia.
        rewrite !pow2_succ, Qpower_plus by discriminate. rewrite pow2_52. nra. }
    apply (round_double_pos_exact _ 4503599627370496). rewrite X.
    replace (e + 53 - 52)%Z with (e + 1)%Z by lia.
    rewrite pow2_succ, EM. field. lra.
Qed.

Lemma round_double_pos_idem (q : Q) :
  0 < q -> round_double_pos (round_double_pos q) == round_double_pos q.
Proof.
  intros Hq. unfold round_double_pos at 2 3. cbv zeta.
  apply round_double_pos_repr, mantissa_range, Hq.
Qed.

Lemma round_double_pos_int (z : Z) :
  (1 <= z <= 9007199254740992)%Z -> round_double_pos (inject_Z z) == inject_Z z.
Proof.
  intros [Z1 Z2].
  destruct (Z.eq_dec z 9007199254740992%Z) as [->|N]; [reflexivity|].
  assert (Hq : 0 < inject_Z z).
  { change 0 with (inject_Z 0). rewrite <- Zlt_Qlt. lia. }
  destruct (exponent_spec _ Hq) as [E1 _].
  assert (X : (exponent (inject_Z z) < 53)%Z).
  { apply (Qpower_lt_compat_l_inv 2); [|reflexivity].
    assert (L : inject_Z z < 2 ^ 53).
    { change (2 ^ 53) with (inject_Z 9007199254740992).
      rewrite <- Zlt_Qlt. lia. }
    lra. }
  set (e := (exponent (inject_Z z) - 52)%Z) in *.
  apply (round_double_pos_exact _ (z * 2 ^ (- e))%Z). fold e.
  rewrite inject_Z_mult, pow2_Z by lia.
  rewrite Qpower_opp. field_simplify_eq; [reflexivity|].
  pose proof (pow2_pos e); lra.
Qed.

Lemma round_double_pos_close (q : Q) :
  0 < q ->
  Qabs (round_double_pos q - q) <= unit_roundoff * q.
Proof.
  intros Hq. destruct (scaled_range q Hq) as [S1 _].
  unfold round_double_pos. cbv zeta.
  set (e := (exponent q - 52)%Z) in *. set (s := q / 2 ^ e) in *.
  pose proof (pow2_pos e) as P.
  assert (Eq : q == s * 2 ^ e) by (unfold s; field; lra).
  pose proof (round_half_even_close s) as C.
  apply Qabs_Qle_condition in C. destruct C as [C1 C2].
  set (m := inject_Z (round_half_even s)) in *.
  apply Qabs_Qle_condition. unfold unit_roundoff.
  rewrite Eq at 1 2 3 4. set (t := 2 ^ e) in *. split; nra.
Qed.

Lemma round_double_pos_mono (p q : Q) :
  0 < p -> p <= q -> round_double_pos p <= round_double_pos q.
Proof.
  intros Hp L. assert (Hq : 0 < q) by lra.
  destruct (exponent_spec p Hp) as [P1 P2].
  destruct (exponent_spec q Hq) as [Q1 Q2].
  pose proof (mantissa_range p Hp) as [_ MP].
  pose proof (mantissa_range q Hq) as [MQ _].
  unfold round_double_pos. cbv zeta.
  set (ep := exponent p) in *. set (eq := exponent q) in *.
  assert (LE : (ep <= eq)%Z).
  { assert (ep < eq + 1)%Z; [|lia].
    apply (Qpower_lt_compat_l_inv 2); [lra|reflexivity]. }
  destruct (Z.eq_dec ep eq) as [E|N].
  - rewrite E. pose proof (pow2_pos (eq - 52)) as P.
    apply Qmult_le_compat_r; [|lra].
    rewrite <- Zle_Qle. apply round_half_even_mono.
    apply Qmult_le_compat_r; [exact L|].
    apply Qlt_le_weak, Qinv_lt_0_compat, P.
  - rewrite Zle_Qle in MP, MQ.
    change (inject_Z 9007199254740992) with 9007199254740992 in MP.
    change (inject_Z 4503599627370496) with 4503599627370496 in MQ.
    pose proof (pow2_pos (ep - 52)) as PP.
    pose proof (pow2_pos (eq - 52)) as PQ.
    assert (S : 2 * 2 ^ (ep - 52) <= 2 ^ (eq - 52)).
    { rewrite <- pow2_succ. apply Qpower_le_compat_l; [lia|lra]. }
    set (mp := inject_Z (round_half_even (p / 2 ^ (ep - 52)))) in *.
    set (mq := inject_Z (round_half_even (q / 2 ^ (eq - 52)))) in *.
    set (a := 2 ^ (ep - 52)) in *. set (b := 2 ^ (eq - 52)) in *.
    nra.
Qed.

Lemma round_double_pos_pos (q : Q) : 0 < q -> 0 < round_double_pos q.
Proof.
  intros Hq. pose proof (mantissa_range q Hq) as [M _].
  rewrite Zle_Qle in M.
  change (inject_Z 4503599627370496) with 4503599627370496 in M.
  unfold round_double_pos. cbv zeta.
  pose proof (pow2_pos (exponent q - 52)) as P.
  set (m := inject_Z _) in *. set (t := 2 ^ _) in *. nra.
Qed.

Lemma round_double_pos_comp (p q : Q) :
  0 < p -> p == q -> round_double_pos p == round_double_pos q.
Proof.
  intros Hp E. apply Qle_antisym; apply round_double_pos_mono; lra.
Qed.

Lemma round_double_of_pos (q : Q) :
  0 < q -> round_double q == round_double_pos q.
Proof.
  intros Hq. unfold round_double.
  destruct (Qcompare_spec q 0) as [E|L|G]; [lra|lra|apply Qred_correct].
Qed.

Lemma round_double_of_neg (q : Q) :
  q < 0 -> round_double q == - round_double_pos (- q).
Proof.
  intros Hq. unfold round_double.
  destruct (Qcompare_spec q 0) as [E|L|G]; [lra|apply Qred_correct|lra].
Qed.

Lemma round_double_of_zero (q : Q) : q == 0 -> round_double q == 0.
Proof.
  intros Hq. unfold round_double.
  destruct (Qcompare_spec q 0) as [E|L|G]; [reflexivity|lra|lra].
Qed.

Lemma round_double_mono (p q : Q) : p <= q -> round_double p <= round_double q.
Proof.
  intros L.
  destruct (Q_dec p 0) as [[Pn|Pp]|Pz]; destruct (Q_dec q 0) as [[Qn|Qp]|Qz];
    try (exfalso; lra).
  - rewrite (round_double_of_neg p Pn), (round_double_of_neg q Qn).
    assert (round_double_pos (- q) <= round_double_pos (- p))
      by (apply round_double_pos_mono; lra).
    lra.
  - rewrite (round_double_of_neg p Pn), (round_double_of_pos q Qp).
    pose proof (round_double_pos_pos (- p)). pose proof (round_double_pos_pos q).
    lra.
  - rewrite (round_double_of_neg p Pn), (round_double_of_zero q Qz).
    pose proof (round_double_pos_pos (- p)). lra.
  - rewrite (round_double_of_pos p Pp), (round_double_of_pos q Qp).
    apply round_double_pos_mono; assumption.
  - rewrite (round_double_of_zero p Pz), (round_double_of_pos q Qp).
    pose proof (round_double_pos_pos q). lra.
  - rewrite (round_double_of_zero p Pz), (round_double_of_zero q Qz). lra.
Qed.

Lemma round_double_comp (p q : Q) : p == q -> round_double p == round_double q.
Proof. intros E. apply Qle_antisym; apply round_double_mono; lra. Qed.

#[global] Instance round_double_rounding : FloatRounding round_double.
Proof.
  split.
  - exact round_double_mono.
  - intros z Hz. destruct (Z.lt_trichotomy z 0) as [N|[->|P]].
    + assert (Hq : inject_Z z < 0).
      { change 0 with (inject_Z 0). rewrite <- Zlt_Qlt. exact N. }
      rewrite (round_double_of_neg _ Hq).
      assert (E : - inject_Z z == inject_Z (- z)) by (rewrite inject_Z_opp; reflexivity).
      assert (Hp : 0 < - inject_Z z) by lra.
      rewrite (round_double_pos_comp _ _ Hp E).
      rewrite round_double_pos_int by lia. rewrite <- E. ring.
    + reflexivity.
    + assert (Hq : 0 < inject_Z z).
      { change 0 with (inject_Z 0). rewrite <- Zlt_Qlt. exact P. }
      rewrite (round_double_of_pos _ Hq). apply round_double_pos_int. lia.
  - intros q. destruct (Q_dec q 0) as [[Qn|Qp]|Qz].
    + pose proof (round_double_pos_pos (- q) ltac:(lra)) as P.
      pose proof (round_double_of_neg q Qn) as E.
      rewrite (round_double_comp _ _ E).
      rewrite round_double_of_neg by lra. rewrite E.
      assert (E2 : - - round_double_pos (- q) == round_double_pos (- q)) by ring.
      assert (Hp : 0 < - - round_double_pos (- q)) by lra.
      rewrite (round_double_pos_comp _ _ Hp E2).
      rewrite round_double_pos_idem by lra. reflexivity.
    + pose proof (round_double_pos_pos q Qp) as P.
      pose proof (round_double_of_pos q Qp) as E.
      rewrite (round_double_comp _ _ E).
      rewrite round_double_of_pos by lra. rewrite E.
      apply round_double_pos_idem, Qp.
    + pose proof (round_double_of_zero q Qz) as E.
      rewrite (round_double_comp _ _ E). rewrite E. reflexivity.
  - intros q. destruct (Q_dec q 0) as [[Qn|Qp]|Qz].
    + rewrite (round_double_of_pos (- q)) by lra.
      rewrite (round_double_of_neg q) by lra. ring.
    + rewrite (round_double_of_neg (- q)) by lra.
      rewrite (round_double_of_pos q) by lra.
      assert (E2 : - - q == q) by ring.
      assert (Hp : 0 < - - q) by lra.
      rewrite (round_double_pos_comp _ _ Hp E2). reflexivity.
    + rewrite (round_double_of_zero (- q)) by lra.
      rewrite (round_double_of_zero q) by lra. reflexivity.
  - intros q [L _].
    assert (Hq : 0 < q) by (unfold float_lo in L; lra).
    rewrite (round_double_of_pos q Hq).
    pose proof (round_double_pos_close q Hq) as C.
    apply Qabs_Qle_condition in C. lra.
Qed.

End RoundDouble.

(** ** [Image.thumbnail]: the size it picks *)

Module ThumbnailFacts.
Import Pillow FloatFacts.
Local Open Scope Q_scope.

(** The branch that computes the width, [x / y >= aspect].  [a] is
    [aspect], [N] the number handed to [round_aspect], [key] its key and
    [E] the exact proportional width. *)
Section Width.
Context (fl : Q -> Q) {Hfl : FloatRounding fl}.
Variables (w h x y : Z).
Hypotheses (Hw : dim_ok w) (Hh : dim_ok h) (Hx : dim_ok x) (Hy : dim_ok y).

Let W := inject_Z w.
Let H := inject_Z h.
Let X := inject_Z x.
Let Y := inject_Z y.
Let a := fl (W / H).
Let N := fl (fl Y * a).
Let key := fun n : Z => Qabs (fl (a - fl (inject_Z n / Y))).
Let E := Y * (W / H).

Hypothesis Hac : a <= fl (X / Y).

Local Lemma W_ok_w : 1 <= W <= 2147483648. Proof using Hw. apply dim_ok_Q, Hw. Qed.
Local Lemma H_ok_w : 1 <= H <= 2147483648. Proof using Hh. apply dim_ok_Q, Hh. Qed.
Local Lemma X_ok_w : 1 <= X <= 2147483648. Proof using Hx. apply dim_ok_Q, Hx. Qed.
Local Lemma Y_ok_w : 1 <= Y <= 2147483648. Proof using Hy. apply dim_ok_Q, Hy. Qed.

Local Lemma a_fl_w : fl a == a.
Proof using Hfl. apply fl_idem. Qed.

Local Lemma N_eq_w : N == fl (Y * a).
Proof using Hfl Hy.
  assert (E1 : fl Y == Y) by (apply fl_int; destruct Hy; lia).
  unfold N. rewrite E1. reflexivity.
Qed.

Local Lemma a_bounds_w :
  W / H - unit_roundoff * (W / H) <= a <= W / H + unit_roundoff * (W / H).
Proof using Hfl Hw Hh.
  pose proof W_ok_w. pose proof H_ok_w.
  assert (R : float_lo <= W / H <= float_hi) by (apply ratio_range; lra).
  split; [apply fl_down | apply fl_up]; assumption.
Qed.

Local Lemma N_above_w (j : Z) :
  (1 <= j <= 4294967296)%Z -> inject_Z j <= E -> inject_Z j - (1 # 2) < N.
Proof using Hfl Hw Hh Hy.
  intros Hj HE. rewrite N_eq_w. pose proof (grid_ok_Q j Hj) as HJ.
  pose proof Y_ok_w.
  apply above_grid; try assumption.
  apply fl_mono. apply Qle_shift_div_r; [lra|].
  unfold E in HE. lra.
Qed.

Local Lemma N_below_w (j : Z) :
  (1 <= j <= 4294967296)%Z -> E <= inject_Z j -> N < inject_Z j + (1 # 2).
Proof using Hfl Hw Hh Hy.
  intros Hj HE. rewrite N_eq_w. pose proof (grid_ok_Q j Hj) as HJ.
  pose proof Y_ok_w.
  apply below_grid; try assumption.
  apply fl_mono. apply Qle_shift_div_l; [lra|].
  unfold E in HE. lra.
Qed.

Local Lemma a_above_w (k : Z) :
  (0 <= k <= 4294967296)%Z -> inject_Z k < N -> fl (inject_Z k / Y) <= a.
Proof using Hfl Hy.
  intros Hk HN. pose proof Y_ok_w.
  destruct (Qlt_le_dec (inject_Z k / Y) a) as [L|L].
  - rewrite <- a_fl_w. apply fl_mono. lra.
  - exfalso. rewrite N_eq_w in HN.
    assert (B : Y * a <= inject_Z k).
    { apply mul_le_of_le_div; lra. }
    apply (fl_le_int fl) in B; [lra|lia].
Qed.

Local Lemma a_below_w (k : Z) :
  (0 <= k <= 4294967296)%Z -> N < inject_Z k -> a <= fl (inject_Z k / Y).
Proof using Hfl Hy.
  intros Hk HN. pose proof Y_ok_w.
  destruct (Qlt_le_dec a (inject_Z k / Y)) as [L|L].
  - rewrite <- a_fl_w. apply fl_mono. lra.
  - exfalso. rewrite N_eq_w in HN.
    assert (B : inject_Z k <= Y * a).
    { apply le_mul_of_div_le; lra. }
    apply (fl_ge_int fl) in B; [lra|lia].
Qed.

Local Lemma ratio_pos_w : 0 < W / H.
Proof using Hw Hh.
  pose proof W_ok_w. pose proof H_ok_w. apply Qlt_shift_div_l; lra.
Qed.

Local Lemma a_pos_w : 0 < a.
Proof using Hfl Hw Hh.
  pose proof a_bounds_w as B. pose proof ratio_pos_w. unfold unit_roundoff in B. lra.
Qed.

Local Lemma E_pos_w : 0 < E.
Proof using Hw Hh Hy.
  pose proof ratio_pos_w. pose proof Y_ok_w. unfold E. nra.
Qed.

Local Lemma N_nonneg_w : 0 <= N.
Proof using Hfl Hw Hh Hy.
  rewrite N_eq_w. apply fl_nonneg; [assumption|].
  pose proof a_pos_w. pose proof Y_ok_w. nra.
Qed.

Local Lemma N_top_w : N < X + (1 # 2).
Proof using Hfl Hx Hy Hac.
  rewrite N_eq_w. pose proof X_ok_w. pose proof Y_ok_w.
  apply below_grid; try assumption; lra.
Qed.

Local Lemma floor_range_w : (0 <= Qfloor N <= x)%Z.
Proof using Hfl Hw Hh Hx Hy Hac.
  pose proof N_nonneg_w as H0. pose proof N_top_w as H1.
  pose proof (Qfloor_le N) as F1. pose proof (Qlt_floor N) as F2.
  rewrite inject_Z_succ in F2. split.
  - apply Zle_of_Qlt. change (inject_Z 0) with 0. lra.
  - apply Zle_of_Qlt. fold X. lra.
Qed.

Lemma fit_width_bounds : (1 <= round_aspect N key <= x)%Z.
Proof using Hfl Hw Hh Hx Hy Hac.
  pose proof floor_range_w as Hk. pose proof Y_ok_w as HY. pose proof X_ok_w as HX.
  destruct Hx as [Hx1 Hx2].
  unfold round_aspect.
  destruct (min_by_spec key (Qfloor N) (Qceiling N)) as [[-> _]|[-> K]];
    [lia|].
  destruct (floor_ceiling_cases N) as [[-> _]|(EC & L1 & L2)]; [lia|].
  rewrite EC in *.
  destruct (Z_le_gt_dec (Qfloor N + 1) x) as [?|G]; [lia|].
  assert (Ek : Qfloor N = x) by lia. rewrite Ek in K.
  exfalso. apply (Qlt_not_le _ _ K). unfold key.
  apply key_below; [assumption|exact Hac|].
  apply fl_mono. rewrite inject_Z_succ. fold X.
  apply Qle_shift_div_l; [lra|].
  assert (T : X / Y * Y == X) by (field; lra). lra.
Qed.

Local Lemma a_le_grid_w (j : Z) : E <= inject_Z j -> a <= fl (inject_Z j / Y).
Proof using Hfl Hy.
  intros HE. pose proof Y_ok_w. apply fl_mono.
  apply Qle_shift_div_l; [lra|]. unfold E in HE. lra.
Qed.

Local Lemma grid_le_a_w (j : Z) : inject_Z j <= E -> fl (inject_Z j / Y) <= a.
Proof using Hfl Hy.
  intros HE. pose proof Y_ok_w. apply fl_mono.
  apply Qle_shift_div_r; [lra|]. unfold E in HE. lra.
Qed.

(** two neighbouring grid values are told apart by the key *)
Local Lemma key_separates_w (k : Z) :
  (0 <= k < 2147483648)%Z -> a == fl (inject_Z (k + 1) / Y) -> 0 < key k.
Proof using Hfl Hy.
  intros Hk Ea. pose proof Y_ok_w as HY. unfold key.
  set (K := inject_Z k).
  assert (HK : 0 <= K <= 2147483648).
  { split; [apply nonneg_Q; lia|].
    change 2147483648 with (inject_Z 2147483648). unfold K.
    rewrite <- Zle_Qle. lia. }
  apply key_positive with (t := (1 # 2) / Y); [assumption| |].
  { apply ratio_range; lra. }
  left. rewrite inject_Z_succ in Ea. fold K in Ea.
  assert (R1 : float_lo <= (K + 1) / Y <= float_hi) by (apply ratio_range; lra).
  pose proof (fl_down fl _ R1) as D1. rewrite <- Ea in D1.
  assert (S : unit_roundoff * (2 * K + 1) / Y <= (1 # 2) / Y).
  { apply Qmult_le_compat_r; [unfold unit_roundoff; lra|].
    apply Qlt_le_weak, Qinv_lt_0_compat. lra. }
  destruct (Qlt_le_dec 0 K) as [Kpos|K0].
  - assert (K1 : 1 <= K).
    { unfold K in *. change 0 with (inject_Z 0) in Kpos.
      rewrite <- Zlt_Qlt in Kpos. change 1 with (inject_Z 1).
      rewrite <- Zle_Qle. lia. }
    assert (R2 : float_lo <= K / Y <= float_hi) by (apply ratio_range; lra).
    pose proof (fl_up fl _ R2) as D2.
    assert (T : (K + 1) / Y - unit_roundoff * ((K + 1) / Y)
                - (K / Y + unit_roundoff * (K / Y))
                == (1 # 2) / Y + ((1 # 2) / Y - unit_roundoff * (2 * K + 1) / Y))
      by (field; lra).
    lra.
  - assert (EK : K == 0) by lra.
    assert (Z0 : fl (K / Y) == 0).
    { rewrite <- (fl_0 fl). apply fl_proper; [assumption|].
      rewrite EK. field. lra. }
    assert (T : (K + 1) / Y - unit_roundoff * ((K + 1) / Y)
                == (1 # 2) / Y + ((1 # 2) / Y - unit_roundoff * (2 * K + 1) / Y))
      by (rewrite EK; field; lra).
    lra.
Qed.

Lemma fit_width_close : Qabs (inject_Z (round_aspect N key) - E) < 1.
Proof using Hfl Hw Hh Hx Hy Hac.
  pose proof floor_range_w as Hk. pose proof E_pos_w as HE.
  pose proof (Qfloor_le N) as F1. pose proof (Qlt_floor N) as F2.
  rewrite inject_Z_succ in F2.
  destruct Hx as [Hx1 Hx2].
  apply Qabs_Qlt_condition. unfold round_aspect.
  match goal with |- ?A /\ ?B => cut (B /\ A); [tauto|] end.
  destruct (min_by_spec key (Qfloor N) (Qceiling N)) as [[-> K]|[-> K]].
  - (* the floor is chosen *)
    split.
    + (* lower *)
      destruct (Z_le_gt_dec (Qfloor N) 1) as [S|B].
      * rewrite Z.max_r by lia. change (inject_Z 1) with 1. lra.
      * rewrite Z.max_l by lia.
        destruct (Qlt_le_dec (inject_Z (Qfloor N) - 1) E) as [?|Bad]; [lra|].
        exfalso. rewrite <- inject_Z_pred in Bad.
        apply N_below_w in Bad; [|lia]. rewrite inject_Z_pred in Bad. lra.
    + (* upper *)
      destruct (Qlt_le_dec E (inject_Z (Z.max (Qfloor N) 1) + 1)) as [?|Bad];
        [lra|].
      exfalso. rewrite <- inject_Z_succ in Bad.
      pose proof (N_above_w (Z.max (Qfloor N) 1 + 1) ltac:(lia) Bad) as NA. rewrite inject_Z_succ in NA.
      destruct (Z_le_gt_dec (Qfloor N) 0) as [S|B].
      * rewrite Z.max_r in NA by lia. change (inject_Z 1) with 1 in NA.
        assert (Qfloor N = 0)%Z as E0 by lia. rewrite E0 in F2.
        change (inject_Z 0) with 0 in F2. lra.
      * rewrite Z.max_l in NA, Bad by lia.
        destruct (floor_ceiling_cases N) as [[_ EN]|(EC & L1 & L2)]; [lra|].
        rewrite EC in K.
        assert (Ea : a == fl (inject_Z (Qfloor N + 1) / Y)).
        { apply Qle_antisym.
          - apply a_below_w; [lia|]. rewrite inject_Z_succ. lra.
          - apply grid_le_a_w. exact Bad. }
        pose proof (key_separates_w (Qfloor N) ltac:(lia) Ea) as P.
        assert (Z0 : key (Qfloor N + 1) == 0) by (apply key_zero; assumption).
        lra.
  - (* the ceiling is chosen *)
    destruct (floor_ceiling_cases N) as [[EC _]|(EC & L1 & L2)].
    { rewrite EC in K. exfalso. exact (Qlt_irrefl _ K). }
    rewrite EC in *. rewrite Z.max_l by lia. rewrite inject_Z_succ. split.
    + destruct (Qlt_le_dec (inject_Z (Qfloor N)) E) as [?|Bad]; [lra|].
      exfalso.
      assert (Ea : a == fl (inject_Z (Qfloor N) / Y)).
      { apply Qle_antisym.
        - apply a_le_grid_w. exact Bad.
        - apply a_above_w; [lia|]. exact L1. }
      assert (Z0 : key (Qfloor N) == 0) by (apply key_zero; assumption).
      pose proof (Qabs_nonneg (fl (a - fl (inject_Z (Qfloor N + 1) / Y)))) as P.
      fold (key (Qfloor N + 1)) in P. lra.
    + destruct (Qlt_le_dec E (inject_Z (Qfloor N) + 1 + 1)) as [?|Bad]; [lra|].
      exfalso. rewrite <- !inject_Z_succ in Bad.
      apply N_above_w in Bad; [|lia]. rewrite !inject_Z_succ in Bad. lra.
Qed.

Lemma fit_width_shrinks :
  (x < w \/ y < h)%Z -> (y < h)%Z /\ (round_aspect N key <= w)%Z.
Proof using Hfl Hw Hh Hx Hy Hac.
  intros Hbig.
  pose proof W_ok_w as HW. pose proof H_ok_w as HH. pose proof X_ok_w as HX.
  pose proof Y_ok_w as HY. pose proof a_bounds_w as [A1 A2]. pose proof a_pos_w as A0.
  set (v := 1 / H).
  assert (Ev : v * H == 1) by (unfold v; field; lra).
  assert (Es : W / H == W * v) by (unfold v; field; lra).
  rewrite Es in A1, A2.
  assert (V0 : 0 < v) by (unfold v; apply Qlt_shift_div_l; lra).
  assert (Hyh : (y < h)%Z).
  { destruct (Z_lt_ge_dec y h) as [?|G]; [assumption|]. exfalso.
    assert (L : (x + 1 <= w)%Z) by lia.
    rewrite Zle_Qle, inject_Z_succ in L. fold X W in L.
    apply Z.ge_le in G. rewrite Zle_Qle in G. fold H Y in G.
    assert (R : float_lo <= (W - 1) / H <= float_hi)
      by (apply ratio_range; lra).
    pose proof (fl_up fl _ R) as U.
    assert (M : X / Y <= (W - 1) / H).
    { apply Qle_shift_div_r; [lra|].
      assert (T : (W - 1) / H * Y == (W - 1) * v * Y) by (unfold v; field; lra).
      rewrite T. assert (VY : 1 <= v * Y) by nra.
      assert (T2 : (W - 1) * v * Y == (W - 1) * (v * Y)) by ring.
      rewrite T2. nra. }
    apply (fl_mono (fl:=fl)) in M.
    assert (T : (W - 1) / H == W * v - v) by (unfold v; field; lra).
    rewrite T in U, M.
    assert (Z1 : W * v <= 2147483648 * v) by nra.
    unfold unit_roundoff in *. lra. }
  split; [assumption|].
  assert (L : (y + 1 <= h)%Z) by lia.
  rewrite Zle_Qle, inject_Z_succ in L. fold Y H in L.
  assert (V1 : 1 <= v * 2147483648) by nra.
  assert (B : Y * a <= W).
  { unfold unit_roundoff in *.
    assert (B1 : Y * a <= (H - 1) * a) by nra.
    assert (B2 : (H - 1) * a <= (H - 1) * (W * v + (1 # 9007199254740992) * (W * v)))
      by nra.
    assert (B3 : (H - 1) * (W * v + (1 # 9007199254740992) * (W * v))
                 == W * ((1 + (1 # 9007199254740992)) * (1 - v)))
      by (unfold v; field; lra).
    assert (B4 : W * ((1 + (1 # 9007199254740992)) * (1 - v)) <= W) by nra.
    lra. }
  apply (fl_le_int fl) in B; [|destruct Hw; lia].
  rewrite <- N_eq_w in B.
  assert (C : (Qceiling N <= w)%Z).
  { rewrite <- (Qceiling_Z w). apply Qceiling_resp_le. exact B. }
  pose proof (Qle_floor_ceiling N) as FC. rewrite <- Zle_Qle in FC.
  destruct Hw as [Hw1 _].
  unfold round_aspect.
  destruct (min_by_spec key (Qfloor N) (Qceiling N)) as [[-> _]|[-> _]]; lia.
Qed.

End Width.

(** The branch that computes the height, [x / y < aspect], with the same
    names; [E] is the exact proportional height. *)
Section Height.
Context (fl : Q -> Q) {Hfl : FloatRounding fl}.
Variables (w h x y : Z).
Hypotheses (Hw : dim_ok w) (Hh : dim_ok h) (Hx : dim_ok x) (Hy : dim_ok y).

Let W := inject_Z w.
Let H := inject_Z h.
Let X := inject_Z x.
Let Y := inject_Z y.
Let a := fl (W / H).
Let N := fl (fl X / a).
Let key := fun n : Z =>
  if (n =? 0)%Z then 0 else Qabs (fl (a - fl (X / inject_Z n))).
Let E := X / (W / H).

Hypothesis Hac : fl (X / Y) < a.

Local Lemma W_ok_h : 1 <= W <= 2147483648. Proof using Hw. apply dim_ok_Q, Hw. Qed.
Local Lemma H_ok_h : 1 <= H <= 2147483648. Proof using Hh. apply dim_ok_Q, Hh. Qed.
Local Lemma X_ok_h : 1 <= X <= 2147483648. Proof using Hx. apply dim_ok_Q, Hx. Qed.
Local Lemma Y_ok_h : 1 <= Y <= 2147483648. Proof using Hy. apply dim_ok_Q, Hy. Qed.

Local Lemma a_fl_h : fl a == a.
Proof using Hfl. apply fl_idem. Qed.

Local Lemma ratio_pos_h : 0 < W / H.
Proof using Hw Hh.
  pose proof W_ok_h. pose proof H_ok_h. apply Qlt_shift_div_l; lra.
Qed.

Local Lemma a_bounds_h :
  W / H - unit_roundoff * (W / H) <= a <= W / H + unit_roundoff * (W / H).
Proof using Hfl Hw Hh.
  pose proof W_ok_h. pose proof H_ok_h.
  assert (R : float_lo <= W / H <= float_hi) by (apply ratio_range; lra).
  split; [apply fl_down | apply fl_up]; assumption.
Qed.

Local Lemma a_pos_h : 0 < a.
Proof using Hfl Hw Hh.
  pose proof a_bounds_h as B. pose proof ratio_pos_h. unfold unit_roundoff in B. lra.
Qed.

Local Lemma N_eq_h : N == fl (X / a).
Proof using Hfl Hx.
  assert (E1 : fl X == X) by (apply fl_int; destruct Hx; lia).
  unfold N. rewrite E1. reflexivity.
Qed.

Local Lemma E_pos_h : 0 < E.
Proof using Hw Hh Hx.
  pose proof ratio_pos_h. pose proof X_ok_h. unfold E. apply Qlt_shift_div_l; lra.
Qed.

Local Lemma key_nonneg_h (n : Z) : 0 <= key n.
Proof.
  unfold key. destruct (n =? 0)%Z; [lra|apply Qabs_nonneg].
Qed.

Local Lemma key_at_h (n : Z) :
  (1 <= n)%Z -> key n = Qabs (fl (a - fl (X / inject_Z n))).
Proof.
  intros Hn. unfold key. destruct (Z.eqb_spec n 0) as [?|?]; [lia|reflexivity].
Qed.

(** [E <= j] is [X / j <= W / H] *)
Local Lemma grid_le_a_h (j : Z) :
  (1 <= j)%Z -> E <= inject_Z j -> fl (X / inject_Z j) <= a.
Proof using Hfl Hw Hh Hx.
  intros Hj HE. pose proof X_ok_h. pose proof ratio_pos_h as RP.
  assert (J1 : 1 <= inject_Z j)
    by (change 1 with (inject_Z 1); now rewrite <- Zle_Qle).
  apply fl_mono. apply Qle_shift_div_r; [lra|].
  unfold E in HE. apply le_mul_of_div_le in HE; [|assumption]. lra.
Qed.

Local Lemma a_le_grid_h (j : Z) :
  (1 <= j)%Z -> inject_Z j <= E -> a <= fl (X / inject_Z j).
Proof using Hfl Hw Hh Hx.
  intros Hj HE. pose proof X_ok_h. pose proof ratio_pos_h as RP.
  assert (J1 : 1 <= inject_Z j)
    by (change 1 with (inject_Z 1); now rewrite <- Zle_Qle).
  apply fl_mono. apply Qle_shift_div_l; [lra|].
  unfold E in HE. apply mul_le_of_le_div in HE; [|assumption]. lra.
Qed.

Local Lemma N_above_h (j : Z) :
  (1 <= j <= 4294967296)%Z -> inject_Z j <= E -> inject_Z j - (1 # 2) < N.
Proof using Hfl Hw Hh Hx.
  intros Hj HE. rewrite N_eq_h. pose proof (grid_ok_Q j Hj) as HJ.
  apply above_grid_h; try assumption.
  - apply X_ok_h.
  - apply a_pos_h.
  - apply a_le_grid_h; [lia|assumption].
Qed.

Local Lemma N_below_h (j : Z) :
  (1 <= j <= 4294967296)%Z -> E <= inject_Z j -> N < inject_Z j + (1 # 2).
Proof using Hfl Hw Hh Hx.
  intros Hj HE. rewrite N_eq_h. pose proof (grid_ok_Q j Hj) as HJ.
  apply below_grid_h; try assumption.
  - apply X_ok_h.
  - apply a_pos_h.
  - apply grid_le_a_h; [lia|assumption].
Qed.

Local Lemma a_below_h (k : Z) :
  (1 <= k <= 4294967296)%Z -> inject_Z k < N -> a <= fl (X / inject_Z k).
Proof using Hfl Hw Hh Hx.
  intros Hk HN. pose proof X_ok_h. pose proof a_pos_h as A0.
  pose proof (grid_ok_Q k Hk) as HK.
  destruct (Qlt_le_dec (X / inject_Z k) a) as [L|L].
  - exfalso. rewrite N_eq_h in HN.
    assert (B : X / a <= inject_Z k).
    { apply Qle_shift_div_r; [assumption|].
      apply Qlt_le_weak in L. apply le_mul_of_div_le in L; lra. }
    apply (fl_le_int fl) in B; [lra|lia].
  - rewrite <- a_fl_h. apply fl_mono. lra.
Qed.

Local Lemma a_above_h (k : Z) :
  (1 <= k <= 4294967296)%Z -> N < inject_Z k -> fl (X / inject_Z k) <= a.
Proof using Hfl Hw Hh Hx.
  intros Hk HN. pose proof X_ok_h. pose proof a_pos_h as A0.
  pose proof (grid_ok_Q k Hk) as HK.
  destruct (Qlt_le_dec a (X / inject_Z k)) as [L|L].
  - exfalso. rewrite N_eq_h in HN.
    assert (B : inject_Z k <= X / a).
    { apply Qle_shift_div_l; [assumption|].
      apply Qlt_le_weak in L. apply mul_le_of_le_div in L; lra. }
    apply (fl_ge_int fl) in B; [lra|lia].
  - rewrite <- a_fl_h. apply fl_mono. lra.
Qed.

Local Lemma N_nonneg_h : 0 <= N.
Proof using Hfl Hw Hh Hx.
  rewrite N_eq_h. apply fl_nonneg; [assumption|].
  pose proof a_pos_h. pose proof X_ok_h. apply Qle_shift_div_l; lra.
Qed.

Local Lemma N_top_h : N < Y + (1 # 2).
Proof using Hfl Hw Hh Hx Hy Hac.
  rewrite N_eq_h. pose proof X_ok_h. pose proof Y_ok_h.
  apply below_grid_h; try assumption; try lra.
  apply a_pos_h.
Qed.

Local Lemma floor_range_h : (0 <= Qfloor N <= y)%Z.
Proof using Hfl Hw Hh Hx Hy Hac.
  pose proof N_nonneg_h as H0. pose proof N_top_h as H1.
  pose proof (Qfloor_le N) as F1. pose proof (Qlt_floor N) as F2.
  rewrite inject_Z_succ in F2. split.
  - apply Zle_of_Qlt. change (inject_Z 0) with 0. lra.
  - apply Zle_of_Qlt. fold Y. lra.
Qed.

Lemma fit_height_bounds : (1 <= round_aspect N key <= y)%Z.
Proof using Hfl Hw Hh Hx Hy Hac.
  pose proof floor_range_h as Hk. pose proof Y_ok_h as HY. pose proof X_ok_h as HX.
  destruct Hy as [Hy1 Hy2].
  unfold round_aspect.
  destruct (min_by_spec key (Qfloor N) (Qceiling N)) as [[-> _]|[-> K]];
    [lia|].
  destruct (floor_ceiling_cases N) as [[-> _]|(EC & L1 & L2)]; [lia|].
  rewrite EC in *.
  destruct (Z_le_gt_dec (Qfloor N + 1) y) as [?|G]; [lia|].
  assert (Ek : Qfloor N = y) by lia. rewrite Ek in K.
  exfalso. apply (Qlt_not_le _ _ K).
  rewrite !key_at_h by lia.
  apply key_above; [assumption|apply Qlt_le_weak, Hac|].
  apply fl_mono. rewrite inject_Z_succ. fold Y.
  apply Qle_shift_div_r; [lra|].
  assert (T : X / Y * (Y + 1) == X + X / Y) by (field; lra).
  assert (0 < X / Y) by (apply Qlt_shift_div_l; lra). lra.
Qed.

Local Lemma key_separates_h (k : Z) :
  (1 <= k < 2147483648)%Z -> a == fl (X / inject_Z (k + 1)) -> 0 < key k.
Proof using Hfl Hx.
  intros Hk Ea. pose proof X_ok_h as HX. rewrite key_at_h by lia.
  set (K := inject_Z k).
  assert (HK : 1 <= K <= 2147483648).
  { split.
    - change 1 with (inject_Z 1). unfold K. rewrite <- Zle_Qle. lia.
    - change 2147483648 with (inject_Z 2147483648). unfold K.
      rewrite <- Zle_Qle. lia. }
  set (q := X / (K * (K + 1))).
  assert (Q0 : 0 <= q).
  { unfold q. apply Qle_shift_div_l; nra. }
  apply key_positive with (t := (1 # 2) * q); [assumption| |].
  { assert (Eq : (1 # 2) * q == X / (2 * K * (K + 1))) by (unfold q; field; lra).
    rewrite Eq. apply ratio_range; [lra|]. nra. }
  right. rewrite inject_Z_succ in Ea. fold K in Ea.
  assert (R1 : float_lo <= X / (K + 1) <= float_hi) by (apply ratio_range; lra).
  pose proof (fl_up fl _ R1) as D1. rewrite <- Ea in D1.
  assert (R2 : float_lo <= X / K <= float_hi) by (apply ratio_range; lra).
  pose proof (fl_down fl _ R2) as D2.
  assert (S : unit_roundoff * (2 * K + 1) * q <= (1 # 2) * q).
  { apply Qmult_le_compat_r; [unfold unit_roundoff; lra|assumption]. }
  assert (T : X / K - unit_roundoff * (X / K)
              - (X / (K + 1) + unit_roundoff * (X / (K + 1)))
              == (1 # 2) * q + ((1 # 2) * q - unit_roundoff * (2 * K + 1) * q))
    by (unfold q; field; lra).
  lra.
Qed.

Lemma fit_height_close : Qabs (inject_Z (round_aspect N key) - E) < 1.
Proof using Hfl Hw Hh Hx Hy Hac.
  pose proof floor_range_h as Hk. pose proof E_pos_h as HE.
  pose proof (Qfloor_le N) as F1. pose proof (Qlt_floor N) as F2.
  rewrite inject_Z_succ in F2.
  destruct Hy as [Hy1 Hy2].
  apply Qabs_Qlt_condition. unfold round_aspect.
  match goal with |- ?A /\ ?B => cut (B /\ A); [tauto|] end.
  destruct (min_by_spec key (Qfloor N) (Qceiling N)) as [[-> K]|[-> K]].
  - (* the floor is chosen *)
    split.
    + destruct (Z_le_gt_dec (Qfloor N) 1) as [S|B].
      * rewrite Z.max_r by lia. change (inject_Z 1) with 1. lra.
      * rewrite Z.max_l by lia.
        destruct (Qlt_le_dec (inject_Z (Qfloor N) - 1) E) as [?|Bad]; [lra|].
        exfalso. rewrite <- inject_Z_pred in Bad.
        apply N_below_h in Bad; [|lia]. rewrite inject_Z_pred in Bad. lra.
    + destruct (Qlt_le_dec E (inject_Z (Z.max (Qfloor N) 1) + 1)) as [?|Bad];
        [lra|].
      exfalso. rewrite <- inject_Z_succ in Bad.
      pose proof (N_above_h (Z.max (Qfloor N) 1 + 1) ltac:(lia) Bad) as NA.
      rewrite inject_Z_succ in NA.
      destruct (Z_le_gt_dec (Qfloor N) 0) as [S|B].
      * rewrite Z.max_r in NA by lia. change (inject_Z 1) with 1 in NA.
        assert (Qfloor N = 0)%Z as E0 by lia. rewrite E0 in F2.
        change (inject_Z 0) with 0 in F2. lra.
      * rewrite Z.max_l in NA, Bad by lia.
        destruct (floor_ceiling_cases N) as [[_ EN]|(EC & L1 & L2)]; [lra|].
        rewrite EC in K.
        assert (Ea : a == fl (X / inject_Z (Qfloor N + 1))).
        { apply Qle_antisym.
          - apply a_le_grid_h; [lia|]. exact Bad.
          - apply a_above_h; [lia|]. rewrite inject_Z_succ. lra. }
        pose proof (key_separates_h (Qfloor N) ltac:(lia) Ea) as P.
        assert (Z0 : key (Qfloor N + 1) == 0).
        { rewrite key_at_h by lia. apply key_zero; assumption. }
        lra.
  - (* the ceiling is chosen *)
    destruct (floor_ceiling_cases N) as [[EC _]|(EC & L1 & L2)].
    { rewrite EC in K. exfalso. exact (Qlt_irrefl _ K). }
    rewrite EC in *.
    assert (K1 : (1 <= Qfloor N)%Z).
    { destruct (Z_le_gt_dec 1 (Qfloor N)) as [?|G]; [assumption|]. exfalso.
      assert (E0 : Qfloor N = 0%Z) by lia. rewrite E0 in K.
      pose proof (key_nonneg_h (0 + 1)) as P.
      change (key 0) with 0 in K. lra. }
    rewrite Z.max_l by lia. rewrite inject_Z_succ. split.
    + destruct (Qlt_le_dec (inject_Z (Qfloor N)) E) as [?|Bad]; [lra|].
      exfalso.
      assert (Ea : a == fl (X / inject_Z (Qfloor N))).
      { apply Qle_antisym.
        - apply a_below_h; [lia|]. exact L1.
        - apply grid_le_a_h; [lia|]. exact Bad. }
      assert (Z0 : key (Qfloor N) == 0).
      { rewrite key_at_h by lia. apply key_zero; assumption. }
      pose proof (key_nonneg_h (Qfloor N + 1)) as P. lra.
    + destruct (Qlt_le_dec E (inject_Z (Qfloor N) + 1 + 1)) as [?|Bad]; [lra|].
      exfalso. rewrite <- !inject_Z_succ in Bad.
      apply N_above_h in Bad; [|lia]. rewrite !inject_Z_succ in Bad. lra.
Qed.

Lemma fit_height_shrinks :
  (x < w \/ y < h)%Z -> (x < w)%Z /\ (round_aspect N key <= h)%Z.
Proof using Hfl Hw Hh Hx Hy Hac.
  intros Hbig.
  pose proof W_ok_h as HW. pose proof H_ok_h as HH. pose proof X_ok_h as HX.
  pose proof Y_ok_h as HY. pose proof a_bounds_h as [A1 A2]. pose proof a_pos_h as A0.
  set (s := W / H) in *.
  assert (Es : s * H == W) by (unfold s; field; lra).
  assert (S0 : 0 < s) by apply ratio_pos_h.
  assert (Hxw : (x < w)%Z).
  { destruct (Z_lt_ge_dec x w) as [?|G]; [assumption|]. exfalso.
    assert (L : (y + 1 <= h)%Z) by lia.
    rewrite Zle_Qle, inject_Z_succ in L. fold Y H in L.
    apply Z.ge_le in G. rewrite Zle_Qle in G. fold X W in G.
    assert (R : float_lo <= W / (H - 1) <= float_hi)
      by (apply ratio_range; lra).
    pose proof (fl_down fl _ R) as D.
    set (p := W / (H - 1)) in *.
    assert (Ep : p * (H - 1) == W) by (unfold p; field; lra).
    assert (P0 : 0 < p) by (unfold p; apply Qlt_shift_div_l; lra).
    assert (M : p <= X / Y).
    { apply Qle_shift_div_l; [lra|]. nra. }
    apply (fl_mono (fl:=fl)) in M.
    assert (I : p - unit_roundoff * p < s + unit_roundoff * s) by lra.
    assert (P1 : W <= 2147483648 * p) by nra.
    assert (P2 : s * H == p * H - p) by lra.
    assert (P3 : (p - unit_roundoff * p) * H < (s + unit_roundoff * s) * H).
    { apply Qmult_lt_compat_r; lra. }
    unfold unit_roundoff in *. nra. }
  split; [assumption|].
  assert (L : (x + 1 <= w)%Z) by lia.
  rewrite Zle_Qle, inject_Z_succ in L. fold X W in L.
  assert (B : X / a <= H).
  { apply Qle_shift_div_r; [assumption|].
    unfold unit_roundoff in *.
    assert (B1 : W - (1 # 9007199254740992) * W <= H * a) by nra.
    lra. }
  apply (fl_le_int fl) in B; [|destruct Hh; lia].
  rewrite <- N_eq_h in B.
  assert (C : (Qceiling N <= h)%Z).
  { rewrite <- (Qceiling_Z h). apply Qceiling_resp_le. exact B. }
  pose proof (Qle_floor_ceiling N) as FC. rewrite <- Zle_Qle in FC.
  destruct Hh as [Hh1 _].
  unfold round_aspect.
  destruct (min_by_spec key (Qfloor N) (Qceiling N)) as [[-> _]|[-> _]]; lia.
Qed.

End Height.

Lemma finite_ok (q v : Q) : finite q = Ok v -> v = q.
Proof. unfold finite. destruct (Qle_bool _ _); congruence. Qed.

Lemma finite_small (q : Q) : Qabs q < float_overflow -> finite q = Ok q.
Proof.
  intros H. unfold finite.
  destruct (Qle_bool float_overflow (Qabs q)) eqn:E; [|reflexivity].
  apply Qle_bool_iff in E. exfalso. exact (Qlt_not_le _ _ H E).
Qed.

Lemma small_is_finite (q : Q) : 0 <= q <= 4294967296 -> finite q = Ok q.
Proof.
  intros [H0 H1]. apply finite_small. rewrite Qabs_pos by assumption.
  apply Qle_lt_trans with (1 := H1). reflexivity.
Qed.

(** Which branch is taken, for a box that the image exceeds. *)
Section Guard.
Context (fl : Q -> Q) {Hfl : FloatRounding fl}.
Variables (w h x y : Z).
Hypotheses (Hw : dim_ok w) (Hh : dim_ok h).

(** A wider box of the same height has the larger quotient. *)
Lemma ratio_gap_w :
  (1 <= x < w)%Z ->
  fl (inject_Z x / inject_Z h) < fl (inject_Z w / inject_Z h).
Proof using Hfl Hw Hh.
  intros [Hx1 Hx2].
  pose proof (dim_ok_Q w Hw) as HW. pose proof (dim_ok_Q h Hh) as HH.
  set (W := inject_Z w) in *. set (H := inject_Z h) in *.
  assert (L : (x + 1 <= w)%Z) by lia.
  rewrite Zle_Qle, inject_Z_succ in L. fold W in L.
  assert (X1 : 1 <= inject_Z x)
    by (change 1 with (inject_Z 1); now rewrite <- Zle_Qle).
  set (X := inject_Z x) in *.
  set (v := 1 / H).
  assert (Ev : v * H == 1) by (unfold v; field; lra).
  assert (V0 : 0 < v) by (unfold v; apply Qlt_shift_div_l; lra).
  assert (R1 : float_lo <= W / H <= float_hi) by (apply ratio_range; lra).
  assert (R2 : float_lo <= (W - 1) / H <= float_hi)
    by (apply ratio_range; lra).
  pose proof (fl_down fl _ R1) as D. pose proof (fl_up fl _ R2) as U.
  assert (M : X / H <= (W - 1) / H).
  { apply Qmult_le_compat_r; [lra|].
    apply Qlt_le_weak, Qinv_lt_0_compat. lra. }
  apply (fl_mono (fl:=fl)) in M.
  assert (T1 : W / H == W * v) by (unfold v; field; lra).
  assert (T2 : (W - 1) / H == W * v - v) by (unfold v; field; lra).
  rewrite T1 in D. rewrite T2 in U, M. rewrite T1.
  assert (Z1 : W * v <= 2147483648 * v) by nra.
  unfold unit_roundoff in *. lra.
Qed.

(** A taller box of the same width has the smaller quotient. *)
Lemma ratio_le_h :
  (1 <= y <= h)%Z ->
  fl (inject_Z w / inject_Z h) <= fl (inject_Z w / inject_Z y).
Proof using Hfl Hw Hh.
  intros [Hy1 Hy2].
  pose proof (dim_ok_Q w Hw) as HW. pose proof (dim_ok_Q h Hh) as HH.
  rewrite Zle_Qle in Hy1, Hy2. change (inject_Z 1) with 1 in Hy1.
  apply fl_mono. apply Qle_shift_div_l; [lra|].
  assert (T : inject_Z w / inject_Z h * inject_Z y
              == inject_Z w * inject_Z y / inject_Z h) by (field; lra).
  rewrite T. apply Qle_shift_div_r; [lra|]. nra.
Qed.

Hypotheses (Hx : (1 <= x)%Z) (Hy : (1 <= y)%Z).
Hypothesis Hbig : (x < w \/ y < h)%Z.

(** The width is the side computed only when the box is the lower. *)
Lemma width_case_height :
  fl (inject_Z w / inject_Z h) <= fl (inject_Z x / inject_Z y) -> (y < h)%Z.
Proof using Hfl Hw Hh Hx Hy Hbig.
  intros Hac.
  destruct (Z_lt_ge_dec y h) as [?|G]; [assumption|]. exfalso.
  assert (Hxw : (1 <= x < w)%Z) by lia.
  pose proof (ratio_gap_w Hxw) as Gap.
  pose proof (dim_ok_Q h Hh) as HH.
  assert (M : inject_Z x / inject_Z y <= inject_Z x / inject_Z h).
  { apply Z.ge_le in G. rewrite Zle_Qle in G, Hx.
    change (inject_Z 1) with 1 in Hx.
    apply Qle_shift_div_l; [lra|].
    assert (T : inject_Z x / inject_Z y * inject_Z h
                == inject_Z x * inject_Z h / inject_Z y) by (field; lra).
    rewrite T. apply Qle_shift_div_r; [lra|]. nra. }
  apply (fl_mono (fl:=fl)) in M. lra.
Qed.

(** The height is the side computed only when the box is the narrower. *)
Lemma height_case_width :
  fl (inject_Z x / inject_Z y) < fl (inject_Z w / inject_Z h) -> (x < w)%Z.
Proof using Hfl Hw Hh Hx Hy Hbig.
  intros Hac.
  destruct (Z_lt_ge_dec x w) as [?|G]; [assumption|]. exfalso.
  assert (Hyh : (1 <= y <= h)%Z) by lia.
  pose proof (ratio_le_h Hyh) as Le.
  pose proof (dim_ok_Q w Hw) as HW.
  assert (M : inject_Z w / inject_Z y <= inject_Z x / inject_Z y).
  { apply Z.ge_le in G. rewrite Zle_Qle in G, Hy.
    change (inject_Z 1) with 1 in Hy.
    apply Qmult_le_compat_r; [lra|].
    apply Qlt_le_weak, Qinv_lt_0_compat. lra. }
  apply (fl_mono (fl:=fl)) in M. lra.
Qed.

End Guard.

(** The size [preserve_aspect_ratio] returns for an image larger than
    the box: it fits the box, it is no larger than the image, and it keeps
    the aspect ratio within one pixel. *)
Lemma preserve_aspect_ratio_ok (w h x y : Z) (r : option (Z * Z)) :
  dim_ok w -> dim_ok h -> (1 <= x)%Z -> (1 <= y)%Z -> (x < w \/ y < h)%Z ->
  preserve_aspect_ratio w h x y = Ok r ->
  exists x' y',
    r = Some (x', y') /\
    (1 <= x' <= x)%Z /\ (1 <= y' <= y)%Z /\ (x' <= w)%Z /\ (y' <= h)%Z /\
    keeps_aspect w h x y x' y'.
Proof.
  intros Hw Hh Hx Hy Hbig. unfold preserve_aspect_ratio.
  replace ((w <=? x) && (h <=? y))%Z with false
    by (symmetry; apply andb_false_iff; rewrite !Z.leb_gt; lia).
  replace (h =? 0)%Z with false
    by (symmetry; apply Z.eqb_neq; destruct Hh; lia).
  replace (y =? 0)%Z with false by (symmetry; apply Z.eqb_neq; lia).
  cbv zeta.
  destruct (finite (round_double (inject_Z x / inject_Z y))) as [c|] eqn:Fc;
    [|discriminate].
  apply finite_ok in Fc. subst c. cbn [and_then].
  destruct (Qle_bool _ _) eqn:C.
  - apply Qle_bool_iff in C.
    destruct (finite (round_double (inject_Z y))) as [fy|] eqn:Fy;
      [|discriminate].
    apply finite_ok in Fy. subst fy. cbn [and_then].
    destruct (finite (round_double (_ * _))) as [n|] eqn:Fn; [|discriminate].
    apply finite_ok in Fn. subst n. cbn [and_then].
    intros [= <-].
    pose proof (width_case_height round_double w h x y Hw Hh Hx Hy Hbig C)
      as Hyh.
    assert (Hy' : dim_ok y) by (destruct Hh; split; lia).
    assert (Hx0 : dim_ok (Z.min x w)) by (destruct Hw; split; lia).
    assert (C0 : round_double (inject_Z w / inject_Z h)
                 <= round_double (inject_Z (Z.min x w) / inject_Z y)).
    { destruct (Z_lt_ge_dec x w) as [L|G].
      - rewrite Z.min_l by lia. exact C.
      - rewrite Z.min_r by lia. apply (ratio_le_h round_double w h y Hw Hh). lia. }
    pose proof (fit_width_bounds round_double w h _ y Hw Hh Hx0 Hy' C0) as B.
    pose proof (fit_width_close round_double w h _ y Hw Hh Hx0 Hy' C0) as K.
    pose proof (fit_width_shrinks round_double w h _ y Hw Hh Hx0 Hy' C0
                  ltac:(right; exact Hyh)) as [_ S].
    eexists _, _. split; [reflexivity|].
    repeat split; try lia.
    left. split; [reflexivity|]. exact K.
  - assert (C' : round_double (inject_Z x / inject_Z y)
                 < round_double (inject_Z w / inject_Z h)).
    { apply Qnot_le_lt. intros Le. apply Qle_bool_iff in Le. congruence. }
    destruct (finite (round_double (inject_Z x))) as [fx|] eqn:Fx;
      [|discriminate].
    apply finite_ok in Fx. subst fx. cbn [and_then].
    destruct (Qeq_bool _ 0) eqn:Z0; [discriminate|].
    destruct (finite (round_double (_ / _))) as [n|] eqn:Fn; [|discriminate].
    apply finite_ok in Fn. subst n. cbn [and_then].
    intros [= <-].
    pose proof (height_case_width round_double w h x y Hw Hh Hx Hy Hbig C')
      as Hxw.
    assert (Hx' : dim_ok x) by (destruct Hw; split; lia).
    assert (Hy0 : dim_ok (Z.min y h)) by (destruct Hh; split; lia).
    assert (C0 : round_double (inject_Z x / inject_Z (Z.min y h))
                 < round_double (inject_Z w / inject_Z h)).
    { destruct (Z_lt_ge_dec y h) as [L|G].
      - rewrite Z.min_l by lia. exact C'.
      - rewrite Z.min_r by lia. apply (ratio_gap_w round_double w h x Hw Hh). lia. }
    pose proof (fit_height_bounds round_double w h x _ Hw Hh Hx' Hy0 C0) as B.
    pose proof (fit_height_close round_double w h x _ Hw Hh Hx' Hy0 C0) as K.
    pose proof (fit_height_shrinks round_double w h x _ Hw Hh Hx' Hy0 C0
                  ltac:(left; exact Hxw)) as [_ S].
    eexists _, _. split; [reflexivity|].
    repeat split; try lia.
    right. split; [reflexivity|]. exact K.
Qed.

(** With a box within the range of sizes, no quotient overflows and a
    size is returned. *)
Lemma preserve_aspect_ratio_succeeds (w h x y : Z) :
  dim_ok w -> dim_ok h -> dim_ok x -> dim_ok y -> (x < w \/ y < h)%Z ->
  exists r, preserve_aspect_ratio w h x y = Ok r.
Proof.
  intros Hw Hh Hx Hy Hbig. unfold preserve_aspect_ratio.
  replace ((w <=? x) && (h <=? y))%Z with false
    by (symmetry; apply andb_false_iff; rewrite !Z.leb_gt; lia).
  replace (h =? 0)%Z with false
    by (symmetry; apply Z.eqb_neq; destruct Hh; lia).
  replace (y =? 0)%Z with false
    by (symmetry; apply Z.eqb_neq; destruct Hy; lia).
  cbv zeta.
  pose proof (dim_ok_Q x Hx) as HX. pose proof (dim_ok_Q y Hy) as HY.
  assert (Fc : finite (round_double (inject_Z x / inject_Z y))
               = Ok (round_double (inject_Z x / inject_Z y))).
  { apply small_is_finite.
    assert (R : float_lo <= inject_Z x / inject_Z y <= float_hi)
      by (apply ratio_range; lra).
    pose proof (fl_up round_double _ R) as U.
    assert (P : 0 <= inject_Z x / inject_Z y)
      by (apply Qle_shift_div_l; lra).
    assert (B : inject_Z x / inject_Z y <= 2147483648)
      by (apply Qle_shift_div_r; lra).
    split; [apply (fl_nonneg round_double); exact P|].
    unfold unit_roundoff in U. lra. }
  rewrite Fc. cbn [and_then].
  destruct (Qle_bool _ _) eqn:C.
  - apply Qle_bool_iff in C.
    assert (Fy : finite (round_double (inject_Z y))
                 = Ok (round_double (inject_Z y))).
    { apply small_is_finite.
      rewrite (fl_int (fl:=round_double) y) by (destruct Hy; lia). lra. }
    rewrite Fy. cbn [and_then].
    pose proof (N_nonneg_w round_double w h y Hw Hh Hy) as N0.
    pose proof (N_top_w round_double w h x y Hx Hy C) as N1.
    rewrite small_is_finite by lra. cbn [and_then]. eauto.
  - assert (C' : round_double (inject_Z x / inject_Z y)
                 < round_double (inject_Z w / inject_Z h)).
    { apply Qnot_le_lt. intros Le. apply Qle_bool_iff in Le. congruence. }
    assert (Fx : finite (round_double (inject_Z x))
                 = Ok (round_double (inject_Z x))).
    { apply small_is_finite.
      rewrite (fl_int (fl:=round_double) x) by (destruct Hx; lia). lra. }
    rewrite Fx. cbn [and_then].
    pose proof (a_pos_h round_double w h Hw Hh) as A0.
    destruct (Qeq_bool _ 0) eqn:Z0.
    { apply Qeq_bool_iff in Z0. lra. }
    pose proof (N_nonneg_h round_double w h x Hw Hh Hx) as N0.
    pose proof (N_top_h round_double w h x y Hw Hh Hx Hy C') as N1.
    rewrite small_is_finite by lra. cbn [and_then]. eauto.
Qed.

(** [Image.thumbnail] on an image larger than the box. *)
Lemma thumbnail_spec (im im' : Image) (x y : Z) :
  dim_ok (width im) -> dim_ok (height im) -> (1 <= x)%Z -> (1 <= y)%Z ->
  (x < width im \/ y < height im)%Z ->
  thumbnail im x y = Ok im' ->
  img_mode im' = img_mode im /\ orientation im' = orientation im /\
  (1 <= width im' <= x)%Z /\ (1 <= height im' <= y)%Z /\
  (width im' <= width im)%Z /\ (height im' <= height im)%Z /\
  keeps_aspect (width im) (height im) x y (width im') (height im').
Proof.
  intros Hw Hh Hx Hy Hbig. unfold thumbnail.
  destruct (preserve_aspect_ratio _ _ _ _) as [r|] eqn:E; [|discriminate].
  destruct (preserve_aspect_ratio_ok _ _ _ _ _ Hw Hh Hx Hy Hbig E)
    as (x' & y' & -> & Bx & By & Sx & Sy & K).
  replace ((x' =? width im) && (y' =? height im))%Z with false
    by (symmetry; apply andb_false_iff; rewrite !Z.eqb_neq; lia).
  unfold resize.
  replace ((x' <=? 0) || (y' <=? 0))%Z with false
    by (symmetry; apply orb_false_iff; rewrite !Z.leb_gt; lia).
  replace ((x' =? 0) || (y' =? 0))%Z with false
    by (symmetry; apply orb_false_iff; rewrite !Z.eqb_neq; lia).
  replace ((x' <? 0) || (y' <? 0))%Z with false
    by (symmetry; apply orb_false_iff; rewrite !Z.ltb_ge; lia).
  destruct (resizes_directly _); intros [= <-]; cbn; repeat split; try lia;
    exact K.
Qed.

Lemma thumbnail_succeeds (im : Image) (x y : Z) :
  dim_ok (width im) -> dim_ok (height im) -> dim_ok x -> dim_ok y ->
  (x < width im \/ y < height im)%Z ->
  exists im', thumbnail im x y = Ok im'.
Proof.
  intros Hw Hh Hx Hy Hbig.
  destruct (preserve_aspect_ratio_succeeds _ _ _ _ Hw Hh Hx Hy Hbig)
    as [r E].
  assert (Hx1 : (1 <= x)%Z) by (destruct Hx; lia).
  assert (Hy1 : (1 <= y)%Z) by (destruct Hy; lia).
  destruct (preserve_aspect_ratio_ok _ _ _ _ _ Hw Hh Hx1 Hy1 Hbig E)
    as (x' & y' & -> & Bx & By & Sx & Sy & K).
  unfold thumbnail. rewrite E.
  replace ((x' =? width im) && (y' =? height im))%Z with false
    by (symmetry; apply andb_false_iff; rewrite !Z.eqb_neq; lia).
  unfold resize.
  replace ((x' <=? 0) || (y' <=? 0))%Z with false
    by (symmetry; apply orb_false_iff; rewrite !Z.leb_gt; lia).
  replace ((x' =? 0) || (y' =? 0))%Z with false
    by (symmetry; apply orb_false_iff; rewrite !Z.eqb_neq; lia).
  replace ((x' <? 0) || (y' <? 0))%Z with false
    by (symmetry; apply orb_false_iff; rewrite !Z.ltb_ge; lia).
  destruct (resizes_directly _); eauto.
Qed.

End ThumbnailFacts.

(** Sizes at which the rounding of doubles shows.  For 1032x1280 and for
    1298x351 in a box of 1200x1200 the two candidate lengths are equally
    near in exact arithmetic, and [min] would take the first, 967 and 324;
    the keys computed in doubles differ and the second is taken.  For
    1100x500 in 220x100 the product [100 * 2.2] is a little above 220, the
    candidates are 220 and 221, and the key keeps 220. *)
Lemma thumbnail_sizes_in_doubles :
  Pillow.preserve_aspect_ratio 1032 1280 1200 1200 = Ok (Some (968, 1200)) /\
  Pillow.preserve_aspect_ratio 1298 351 1200 1200 = Ok (Some (1200, 325)) /\
  Pillow.preserve_aspect_ratio 1100 500 220 100 = Ok (Some (220, 100)).
Proof. repeat split; vm_compute; reflexivity. Qed.

(** [Image.open] lets 13377x13377 pixels through and refuses
    14000x13000. *)
Lemma decompression_bomb_limit :
  is_decompression_bomb (Pillow.mkImage Pillow.RGB 13377 13377 None) = false /\
  is_decompression_bomb (Pillow.mkImage Pillow.RGB 14000 13000 None) = true.
Proof. split; reflexivity. Qed.

(** A bound too large for a double, and a bound of zero. *)
Lemma thumbnail_refusals :
  Pillow.preserve_aspect_ratio 100 50 (10 ^ 400) 10 = Raise OverflowError /\
  Pillow.thumbnail (Pillow.mkImage Pillow.RGB 100 50 None) 0 10
  = Raise ZeroDivisionError /\
  Pillow.thumbnail (Pillow.mkImage Pillow.LA 100 50 None) 0 10
  = Raise ValueError.
Proof. repeat split; vm_compute; reflexivity. Qed.

(** ** Worlds, paths and the file system *)

Lemma stat_eq (w w' : world) (p : string) :
  cwd w = cwd w' -> files w = files w' -> stat w p = stat w' p.
Proof. unfold stat, resolve. by intros -> ->. Qed.

Lemma resolve_eq (w w' : world) (p : string) :
  cwd w = cwd w' -> resolve w p = resolve w' p.
Proof. unfold resolve. by intros ->. Qed.

Lemma printed_nil (w : world) : printed w [] = w.
Proof. unfold printed. rewrite app_nil_r. by destruct w. Qed.

Lemma printed_printed (w : world) (l1 l2 : list line) :
  printed (printed w l1) l2 = printed w (l1 ++ l2).
Proof. unfold printed. simpl. by rewrite app_assoc. Qed.

Lemma print_printed (l : line) (w : world) :
  print l w = (Ok tt, printed w [l]).
Proof. reflexivity. Qed.

Lemma stat_printed (w : world) (ls : list line) (p : string) :
  stat (printed w ls) p = stat w p.
Proof. by apply stat_eq. Qed.

Lemma node_at_insert (f : gmap key node) (k : key) (n : node) :
  k <> [] -> node_at (<[k := n]> f) k = Some n.
Proof. destruct k; [done|]. intros _. simpl. apply lookup_insert_eq. Qed.

Lemma node_at_insert_ne (f : gmap key node) (k k' : key) (n : node) :
  k <> k' -> node_at (<[k := n]> f) k' = node_at f k'.
Proof. destruct k'; [done|]. intros H. simpl. by apply lookup_insert_ne. Qed.

Lemma open_for_writing_nonroot (w : world) (p : string) (k : key) :
  open_for_writing w p = Ok k -> k = resolve w p /\ k <> [].
Proof.
  unfold open_for_writing. intros H.
  destruct (resolve w p) eqn:E; simpl in H; [done|].
  repeat case_match; simplify_eq; done.
Qed.

Lemma open_for_writing_printed (w : world) (ls : list line) (p : string) :
  open_for_writing (printed w ls) p = open_for_writing w p.
Proof. reflexivity. Qed.

(** Every exception the modelled calls raise derives from [Exception]. *)
Lemma thumbnail_raises (im : Pillow.Image) (x y : Z) (e : exn) :
  Pillow.thumbnail im x y = Raise e -> is_Exception e = true.
Proof.
  unfold Pillow.thumbnail, Pillow.preserve_aspect_ratio, Pillow.resize,
    and_then, finite.
  repeat case_match; intros; simplify_eq; done.
Qed.

Lemma copy2_raises (src dst : string) (w w' : world) (e : exn) :
  copy2 src dst w = (Raise e, w') -> is_Exception e = true /\ w' = w.
Proof.
  unfold copy2, open_for_reading, open_for_writing.
  repeat case_match; intros; simplify_eq; done.
Qed.

Lemma copy2_ok (src dst : string) (w w' : world) (d : string) :
  copy2 src dst w = (Ok d, w') ->
  exists c k,
    stat w src = Some (File c) /\
    open_for_writing w d = Ok k /\
    w' = set_files (<[k := File c]> (files w)) w.
Proof.
  unfold copy2, open_for_reading.
  repeat case_match; intros; simplify_eq; eauto.
Qed.

(** ** The Image Transform *)

Section TransformFacts.
Import Pillow.
Variable jpeg_nbytes : Image -> Z -> positive.

Lemma resize_step_spec (ip : string) (img : Image) (mw mh : Z) (w : world) :
  resize_step ip (normalize img) mw mh w =
  match prepared img mw mh with
  | Ok img' => (Ok img', printed w (resize_note ip img mw mh img'))
  | Raise e => (Raise e, w)
  end.
Proof.
  unfold resize_step, prepared, resize_note. simpl.
  destruct (_ || _); simpl.
  - unfold bind, lift. destruct (thumbnail _ _ _); simpl; done.
  - unfold ret. by rewrite printed_nil.
Qed.

Lemma prepared_raises (img : Image) (mw mh : Z) (e : exn) :
  prepared img mw mh = Raise e -> is_Exception e = true.
Proof.
  unfold prepared. simpl. destruct (_ || _); [|done].
  apply thumbnail_raises.
Qed.

Lemma Image_save_JPEG_raises (im : Image) (p : string) (q : Z)
    (w w' : world) (e : exn) :
  Image_save_JPEG jpeg_nbytes im p q w = (Raise e, w') ->
  is_Exception e = true.
Proof.
  unfold Image_save_JPEG, open_for_writing.
  repeat case_match; intros; simplify_eq; done.
Qed.

Lemma Image_save_JPEG_ok (im : Image) (p : string) (q : Z)
    (w w' : world) (u : unit) :
  Image_save_JPEG jpeg_nbytes im p q w = (Ok u, w') ->
  exists k,
    open_for_writing w p = Ok k /\
    is_Some (jpeg_rawmode (img_mode im)) /\
    w' = set_files
           (<[k := File (Encoded JPEG (jpeg_readback im) (jpeg_nbytes im q))]>
              (files w)) w /\
    stat w' p =
      Some (File (Encoded JPEG (jpeg_readback im) (jpeg_nbytes im q))).
Proof.
  unfold Image_save_JPEG.
  destruct (open_for_writing w p) as [k|] eqn:Hopen; [|done].
  destruct (open_for_writing_nonroot _ _ _ Hopen) as [Hk Hk0].
  destruct (_ || _); [by destruct (negb _)|].
  destruct (jpeg_rawmode (img_mode im)) eqn:Hraw; [|by destruct (negb _)].
  destruct (_ || _); [by destruct (negb _)|].
  intros [= _ <-].
  exists k. repeat split; [by eexists|].
  unfold stat. rewrite (resolve_eq _ w) by done. rewrite <- Hk.
  by apply node_at_insert.
Qed.

(** The body of [reduce_image_size], step by step. *)
Lemma reduce_image_size_body_eq (ip op : string) (q mw mh : Z) (w : world) :
  reduce_image_size_body jpeg_nbytes ip op q mw mh w =
  match stat w ip with
  | None => (Raise FileNotFoundError, w)
  | Some Dir => (Raise IsADirectoryError, w)
  | Some (File (Opaque _)) => (Raise UnidentifiedImageError, w)
  | Some (File (Encoded _ img nb)) =>
      if is_decompression_bomb img then (Raise DecompressionBombError, w)
      else
      match prepared img mw mh with
      | Raise e => (Raise e, w)
      | Ok img2 =>
          match Image_save_JPEG jpeg_nbytes img2 op q
                  (printed w (resize_note ip img mw mh img2)) with
          | (Raise e, w2) => (Raise e, w2)
          | (Ok _, w2) =>
              let o := Z.pos nb in
              let n := Z.pos (jpeg_nbytes img2 q) in
              (Ok (o, n), printed w2 [Compressed (basename ip) o n])
          end
      end
  end.
Proof.
  unfold reduce_image_size_body. unfold bind at 1.
  unfold Image_open, open_for_reading.
  destruct (stat w ip) as [[|[fmt img nb|?]]|] eqn:Hst; try done.
  destruct (is_decompression_bomb img); [done|].
  cbv beta. unfold bind at 1. rewrite resize_step_spec.
  destruct (prepared img mw mh) as [img2|] eqn:Hprep; [|done].
  set (w1 := printed w _).
  unfold bind at 1. unfold getsize.
  rewrite (stat_eq w1 w) by done. rewrite Hst. simpl nbytes_of.
  unfold bind at 1.
  destruct (Image_save_JPEG jpeg_nbytes img2 op q w1) as [[u|e] w2] eqn:Hsave;
    [|done].
  destruct (Image_save_JPEG_ok _ _ _ _ _ _ Hsave) as (k & _ & _ & _ & Hst2).
  unfold bind at 1. rewrite Hst2. simpl nbytes_of.
  reflexivity.
Qed.

Lemma reduce_image_size_body_raises (ip op : string) (q mw mh : Z)
    (w w' : world) (e : exn) :
  reduce_image_size_body jpeg_nbytes ip op q mw mh w = (Raise e, w') ->
  is_Exception e = true.
Proof.
  rewrite reduce_image_size_body_eq.
  destruct (stat w ip) as [[|[fmt img nb|?]]|]; try (by intros [= <- _]).
  destruct (is_decompression_bomb img); [by intros [= <- _]|].
  destruct (prepared img mw mh) eqn:Hp.
  - destruct (Image_save_JPEG _ _ _ _ _) as [[u|e'] w2] eqn:Hs; [done|].
    intros [= <- _]. eapply Image_save_JPEG_raises, Hs.
  - intros [= <- _]. eapply prepared_raises, Hp.
Qed.

(** When the body runs to its [return]: the source is a picture file,
    the prepared image was written to the destination as JPEG, and the
    two sizes are the byte counts of the source and of the new file. *)
Lemma reduce_image_size_body_ok (ip op : string) (q mw mh : Z)
    (w w' : world) (o n : Z) :
  reduce_image_size_body jpeg_nbytes ip op q mw mh w = (Ok (o, n), w') ->
  exists fmt img nb img2 k,
    stat w ip = Some (File (Encoded fmt img nb)) /\
    prepared img mw mh = Ok img2 /\
    open_for_writing w op = Ok k /\
    is_Some (jpeg_rawmode (img_mode img2)) /\
    o = Z.pos nb /\ n = Z.pos (jpeg_nbytes img2 q) /\
    stat w' op =
      Some (File (Encoded JPEG (jpeg_readback img2) (jpeg_nbytes img2 q))) /\
    w' = mkWorld (cwd w)
           (<[k := File (Encoded JPEG (jpeg_readback img2)
                                 (jpeg_nbytes img2 q))]> (files w))
           (console w ++ resize_note ip img mw mh img2
                      ++ [Compressed (basename ip) o n]).
Proof.
  rewrite reduce_image_size_body_eq.
  destruct (stat w ip) as [[|[fmt img nb|?]]|] eqn:Hst; try done.
  destruct (is_decompression_bomb img); [done|].
  destruct (prepared img mw mh) as [img2|] eqn:Hp; [|done].
  destruct (Image_save_JPEG _ _ _ _ _) as [[u|e'] w2] eqn:Hs; [|done].
  destruct (Image_save_JPEG_ok _ _ _ _ _ _ Hs) as (k & Hk & Hraw & -> & Hst2).
  cbv zeta. intros [= <- <- <-].
  exists fmt, img, nb, img2, k. repeat split; try done.
  unfold printed, set_files. simpl. by rewrite <- app_assoc.
Qed.

(** [Image.open] has let the picture through: it is no decompression
    bomb, and its sides, when positive, are sizes Pillow can hold. *)
Lemma reduce_image_size_body_ok_pixels (ip op : string) (q mw mh : Z)
    (w w' : world) (o n : Z) (fmt : format) (img : Image) (nb : positive) :
  stat w ip = Some (File (Encoded fmt img nb)) ->
  reduce_image_size_body jpeg_nbytes ip op q mw mh w = (Ok (o, n), w') ->
  is_decompression_bomb img = false.
Proof.
  intros Hst. rewrite reduce_image_size_body_eq, Hst.
  by destruct (is_decompression_bomb img).
Qed.

Lemma not_a_bomb_dim_ok (img : Image) :
  is_decompression_bomb img = false ->
  0 < width img -> 0 < height img ->
  dim_ok (width img) /\ dim_ok (height img).
Proof.
  unfold is_decompression_bomb, MAX_IMAGE_PIXELS, dim_ok.
  rewrite Z.ltb_ge. intros H Hw Hh.
  rewrite !Z.max_r in H by lia. nia.
Qed.

(** The wrapper of lines 18 and 42-44. *)
Lemma reduce_image_size_eq (ip op : string) (q mw mh : Z) (w : world) :
  reduce_image_size jpeg_nbytes ip op q mw mh w =
  match reduce_image_size_body jpeg_nbytes ip op q mw mh w with
  | (Ok sizes, w') => (Ok sizes, w')
  | (Raise e, w') => (Ok (0, 0), printed w' [ErrorProcessing ip e])
  end.
Proof.
  unfold reduce_image_size, try_except.
  destruct (reduce_image_size_body _ _ _ _ _ _ _) as [[sizes|e] w'] eqn:Hb;
    [done|].
  by rewrite (reduce_image_size_body_raises _ _ _ _ _ _ _ _ Hb).
Qed.

End TransformFacts.

Section TransformClaims.
Import Pillow.
Variable jpeg_nbytes : Image -> Z -> positive.

(** Lines 22-23 convert the modes [RGBA] and [P], and only those. *)
Lemma normalize_mode (img : Image) :
  img_mode (normalize img) =
  match img_mode img with
  | RGBA | P => RGB
  | m => m
  end.
Proof.
  unfold normalize, mode_in_RGBA_P, exif_transpose.
  destruct img as [m w h o]; simpl.
  destruct (is_transposing o), (swaps_axes o), m; reflexivity.
Qed.

Lemma normalize_size (img : Image) :
  size (normalize img) = size (exif_transpose img).
Proof. unfold normalize. by destruct (mode_in_RGBA_P _). Qed.

Lemma exif_transpose_size (img : Image) :
  size (exif_transpose img) =
  if swaps_axes (orientation img)
  then (height img, width img) else (width img, height img).
Proof.
  unfold exif_transpose.
  destruct (orientation img) as [[|p|p]|]; try reflexivity.
  do 4 (try destruct p as [p|p|]; try reflexivity).
Qed.

Lemma prepared_mode (img img2 : Image) (mw mh : Z) :
  prepared img mw mh = Ok img2 -> img_mode img2 = img_mode (normalize img).
Proof.
  unfold prepared, thumbnail, resize. cbv zeta.
  repeat case_match; intros; simplify_eq; done.
Qed.

(** Whatever file the transform writes holds an image without alpha
    channel and without palette. *)
Lemma written_file_has_no_alpha (ip op : string) (q mw mh : Z)
    (w w' : world) (o n : Z) :
  reduce_image_size_body jpeg_nbytes ip op q mw mh w = (Ok (o, n), w') ->
  exists out nb,
    stat w' op = Some (File (Encoded JPEG out nb)) /\
    has_alpha (img_mode out) = false /\ is_palette (img_mode out) = false.
Proof.
  intros H. apply reduce_image_size_body_ok in H
    as (fmt & img & nb & img2 & k & _ & _ & _ & _ & _ & _ & Hst & _).
  eexists _, _. split; [exact Hst|].
  simpl. by destruct (img_mode img2).
Qed.

(** An image whose mode has an alpha channel or a palette and is neither
    [RGBA] nor [P] is not converted, and the encoder refuses it. *)
Lemma unconverted_alpha_is_refused (ip op : string) (q mw mh : Z)
    (w : world) (fmt : format) (img : Image) (nb : positive) :
  stat w ip = Some (File (Encoded fmt img nb)) ->
  has_alpha (img_mode img) || is_palette (img_mode img) = true ->
  mode_in_RGBA_P img = false ->
  img_mode (normalize img) = img_mode img /\
  exists w', reduce_image_size jpeg_nbytes ip op q mw mh w = (Ok (0, 0), w').
Proof.
  intros Hst Halpha Hnot.
  assert (Hm : img_mode (normalize img) = img_mode img).
  { rewrite normalize_mode. unfold mode_in_RGBA_P in Hnot.
    by destruct (img_mode img). }
  split; [exact Hm|].
  rewrite reduce_image_size_eq.
  destruct (reduce_image_size_body _ _ _ _ _ _ _) as [[[o n]|e] w'] eqn:Hb;
    [|by eexists].
  apply reduce_image_size_body_ok in Hb
    as (fmt' & img' & nb' & img2 & k & Hst' & Hp & _ & [r Hraw] & _).
  rewrite Hst in Hst'. simplify_eq.
  apply prepared_mode in Hp. rewrite Hm in Hp. rewrite Hp in Hraw.
  by destruct (img_mode img').
Qed.

(** C1 (the code departs from the claim).  A greyscale picture with an
    alpha channel (mode LA) has an alpha channel, yet it is not converted
    to RGB: its mode is not one of the two that line 22 tests.  The JPEG
    writer then refuses the mode, nothing is written, and the transform
    returns (0, 0). *)
Theorem grey_alpha_picture_is_not_converted :
  let w := Examples.provisioned_world in
  let img := Examples.grey_alpha_png in
  stat w "/app/photos/c.png" = Some (File (Encoded PNG img 4000)) /\
  has_alpha (img_mode img) = true /\
  img_mode (normalize img) = LA /\
  reduce_image_size jpeg_nbytes "/app/photos/c.png" "/app/reduced/c.png"
                    85 1200 1200 w
  = (Ok (0, 0),
     printed w [ErrorProcessing "/app/photos/c.png" CannotWriteMode]) /\
  stat (printed w [ErrorProcessing "/app/photos/c.png" CannotWriteMode])
       "/app/reduced/c.png" = None.
Proof. cbv zeta. repeat split; vm_compute; reflexivity. Qed.

(** C4.  [reduce_image_size] always returns a pair and never raises:
    when the body of its [try] runs to the [return] of line 40 it returns
    that pair, and when any step of the body raises it prints the error
    with the path of the file and returns (0, 0). *)
Theorem reduce_image_size_never_raises (ip op : string) (q mw mh : Z)
    (w : world) :
  (exists sizes w',
     reduce_image_size jpeg_nbytes ip op q mw mh w = (Ok sizes, w')) /\
  match reduce_image_size_body jpeg_nbytes ip op q mw mh w with
  | (Ok sizes, w') =>
      reduce_image_size jpeg_nbytes ip op q mw mh w = (Ok sizes, w')
  | (Raise e, w') =>
      reduce_image_size jpeg_nbytes ip op q mw mh w
      = (Ok (0, 0), printed w' [ErrorProcessing ip e])
  end.
Proof.
  rewrite reduce_image_size_eq.
  destruct (reduce_image_size_body _ _ _ _ _ _ _) as [[sizes|e] w'];
    split; eauto.
Qed.

(** The kinds of failure: a file that cannot be read, bytes that are no
    picture, a mode the encoder cannot write, a destination that cannot
    be written. *)
Lemma unreadable_file_gives_sentinel (ip op : string) (q mw mh : Z)
    (w : world) :
  stat w ip = None ->
  reduce_image_size jpeg_nbytes ip op q mw mh w
  = (Ok (0, 0), printed w [ErrorProcessing ip FileNotFoundError]).
Proof.
  intros H. rewrite reduce_image_size_eq, reduce_image_size_body_eq.
  by rewrite H.
Qed.

Lemma corrupt_data_gives_sentinel (ip op : string) (q mw mh : Z)
    (w : world) (n : N) :
  stat w ip = Some (File (Opaque n)) ->
  reduce_image_size jpeg_nbytes ip op q mw mh w
  = (Ok (0, 0), printed w [ErrorProcessing ip UnidentifiedImageError]).
Proof.
  intros H. rewrite reduce_image_size_eq, reduce_image_size_body_eq.
  by rewrite H.
Qed.

Lemma unwritable_destination_gives_sentinel (ip op : string) (q mw mh : Z)
    (w : world) (e : exn) :
  open_for_writing w op = Raise e ->
  exists w', reduce_image_size jpeg_nbytes ip op q mw mh w = (Ok (0, 0), w').
Proof.
  intros H. rewrite reduce_image_size_eq.
  destruct (reduce_image_size_body _ _ _ _ _ _ _) as [[[o n]|e'] w'] eqn:Hb;
    [|by eexists].
  apply reduce_image_size_body_ok in Hb
    as (? & ? & ? & ? & k & _ & _ & Hk & _).
  congruence.
Qed.

End TransformClaims.

Section ResizeClaim.
Import Pillow.
Variable jpeg_nbytes : Image -> Z -> positive.

(** C2 (amended).  The sizes compared with the bounds are those the
    script reads on line 25, after the orientation step: the decoded width
    and height, exchanged when the EXIF orientation is a quarter turn.
    When both are within the bounds the file written has exactly that
    size; when one exceeds its bound the file written has the size
    [Image.thumbnail] computes in doubles, which fits the bounds and keeps
    the aspect ratio within one pixel. *)
Theorem resize_exactly_when_oversized (ip op : string) (q mw mh : Z)
    (w w' : world) (o n : Z) (fmt : format) (img : Image) (nb : positive) :
  stat w ip = Some (File (Encoded fmt img nb)) ->
  0 < width img -> 0 < height img -> 0 < mw -> 0 < mh ->
  reduce_image_size_body jpeg_nbytes ip op q mw mh w = (Ok (o, n), w') ->
  let ow := width (exif_transpose img) in
  let oh := height (exif_transpose img) in
  (ow, oh) = (if swaps_axes (orientation img)
              then (height img, width img) else (width img, height img)) /\
  exists out nb',
    stat w' op = Some (File (Encoded JPEG out nb')) /\
    (ow <= mw /\ oh <= mh -> size out = (ow, oh)) /\
    (mw < ow \/ mh < oh ->
       1 <= width out <= mw /\ 1 <= height out <= mh /\
       keeps_aspect ow oh mw mh (width out) (height out)).
Proof.
  intros Hst Hw Hh Hmw Hmh Hb ow oh.
  pose proof (exif_transpose_size img) as Hsz.
  split; [exact Hsz|].
  pose proof (reduce_image_size_body_ok_pixels
                _ _ _ _ _ _ _ _ _ _ _ _ _ Hst Hb) as Hbomb.
  destruct (not_a_bomb_dim_ok _ Hbomb Hw Hh) as [Dw Dh].
  apply reduce_image_size_body_ok in Hb
    as (fmt' & img' & nb' & img2 & k & Hst' & Hp & _ & _ & _ & _ & Hout & _).
  rewrite Hst in Hst'. simplify_eq.
  exists (jpeg_readback img2), (jpeg_nbytes img2 q).
  split; [exact Hout|].
  pose proof (normalize_size img') as Hn.
  unfold size in Hn. injection Hn as Hnw Hnh.
  fold ow in Hnw. fold oh in Hnh.
  assert (Hdim : dim_ok ow /\ dim_ok oh).
  { unfold size in Hsz. fold ow oh in Hsz.
    destruct (swaps_axes _); injection Hsz as -> ->; done. }
  destruct Hdim as [Dow Doh].
  unfold prepared in Hp. cbv zeta in Hp. rewrite Hnw, Hnh in Hp.
  destruct ((ow >? mw) || (oh >? mh)) eqn:Hguard.
  - apply orb_true_iff in Hguard. rewrite !Z.gtb_gt in Hguard.
    destruct (ThumbnailFacts.thumbnail_spec (normalize img') img2 mw mh)
      as (_ & _ & Hbw & Hbh & _ & _ & Hk);
      rewrite ?Hnw, ?Hnh; try done; try lia.
    rewrite Hnw, Hnh in Hk.
    split; [lia|]. intros _. simpl. auto.
  - apply orb_false_iff in Hguard. rewrite !Z.gtb_ltb, !Z.ltb_ge in Hguard.
    injection Hp as <-.
    split; [|lia]. intros _. unfold size. simpl. by rewrite Hnw, Hnh.
Qed.

(** With bounds no larger than what the encoder accepts, the transform
    of a readable picture whose mode can be written, towards a writable
    destination, does run to its [return]. *)
Lemma reduce_image_size_body_succeeds (ip op : string) (q mw mh : Z)
    (w : world) (fmt : format) (img : Image) (nb : positive) (k : key) :
  stat w ip = Some (File (Encoded fmt img nb)) ->
  0 < width img -> 0 < height img ->
  is_decompression_bomb img = false ->
  0 < mw <= 65500 -> 0 < mh <= 65500 ->
  is_Some (jpeg_rawmode (img_mode (normalize img))) ->
  open_for_writing w op = Ok k ->
  exists n w',
    reduce_image_size_body jpeg_nbytes ip op q mw mh w
    = (Ok (Z.pos nb, n), w').
Proof.
  intros Hst Hw Hh Hbomb Hmw Hmh [r Hraw] Hk.
  rewrite reduce_image_size_body_eq, Hst, Hbomb.
  destruct (not_a_bomb_dim_ok _ Hbomb Hw Hh) as [Dw Dh].
  pose proof (normalize_size img) as Hn.
  pose proof (exif_transpose_size img) as Hsz.
  rewrite Hsz in Hn. unfold size in Hn.
  assert (Hdim : dim_ok (width (normalize img)) /\
                 dim_ok (height (normalize img))).
  { destruct (swaps_axes _); injection Hn as -> ->; done. }
  destruct Hdim as [Dnw Dnh].
  assert (Hprep : exists img2,
             prepared img mw mh = Ok img2 /\
             img_mode img2 = img_mode (normalize img) /\
             1 <= width img2 <= 65500 /\ 1 <= height img2 <= 65500).
  { unfold prepared. cbv zeta.
    destruct (_ || _) eqn:Hguard.
    - apply orb_true_iff in Hguard. rewrite !Z.gtb_gt in Hguard.
      destruct (ThumbnailFacts.thumbnail_succeeds (normalize img) mw mh)
        as [im' Ht]; try done; try (unfold dim_ok; lia).
      destruct (ThumbnailFacts.thumbnail_spec (normalize img) im' mw mh)
        as (Hm & _ & Hbw & Hbh & _); try done; try lia.
      exists im'. repeat split; try done; lia.
    - apply orb_false_iff in Hguard. rewrite !Z.gtb_ltb, !Z.ltb_ge in Hguard.
      unfold dim_ok in *.
      eexists. repeat split; try done; lia. }
  destruct Hprep as (img2 & -> & Hm & Hbw & Hbh).
  unfold Image_save_JPEG. rewrite open_for_writing_printed, Hk.
  replace ((width img2 =? 0) || (height img2 =? 0)) with false
    by (symmetry; apply orb_false_iff; rewrite !Z.eqb_neq; lia).
  rewrite Hm, Hraw.
  replace ((65500 <? width img2) || (65500 <? height img2)) with false
    by (symmetry; apply orb_false_iff; rewrite !Z.ltb_ge; lia).
  cbv zeta. eauto.
Qed.

End ResizeClaim.

(** C2, as stated, fails on a picture stored with a quarter-turn
    orientation tag: decoded it is 800x600, within the bounds 1200x1200,
    and the file written is 600x800. *)
Lemma rotated_picture_changes_size :
  let w := Examples.provisioned_world in
  let ip := "/app/photos/a.jpg" in
  let op := "/app/reduced/a.jpg" in
  let run := reduce_image_size Examples.sample_jpeg_nbytes ip op
                               85 1200 1200 w in
  Image_open ip w = (Ok (Pillow.mkImage Pillow.RGB 800 600 (Some 6)), w) /\
  800 <= 1200 /\ 600 <= 1200 /\
  fst run = Ok (90000, 40900) /\
  stat (snd run) op
  = Some (File (Encoded JPEG (Pillow.mkImage Pillow.RGB 600 800 None) 40900))
  /\ (600, 800) <> (800, 600).
Proof. cbv zeta. repeat split; try (vm_compute; reflexivity); done. Qed.

Lemma resize_exactly_when_oversized_witness :
  let w := Examples.provisioned_world in
  let ip := "/app/photos/b.PNG" in
  let op := "/app/reduced/b.PNG" in
  exists out nb',
    stat (snd (reduce_image_size_body Examples.sample_jpeg_nbytes ip op
                 85 1200 1200 w)) op
    = Some (File (Encoded JPEG out nb')) /\
    Pillow.width out <= 1200 /\ Pillow.height out <= 1200.
Proof.
  cbv zeta.
  destruct (resize_exactly_when_oversized Examples.sample_jpeg_nbytes
              "/app/photos/b.PNG" "/app/reduced/b.PNG" 85 1200 1200
              Examples.provisioned_world
              (snd (reduce_image_size_body Examples.sample_jpeg_nbytes
                      "/app/photos/b.PNG" "/app/reduced/b.PNG"
                      85 1200 1200 Examples.provisioned_world))
              500000 91900 PNG Examples.large_rgba_png 500000%positive)
    as (_ & out & nb' & Hst & _ & Hbig);
    [vm_compute; reflexivity | reflexivity | reflexivity | reflexivity
    | reflexivity | vm_compute; reflexivity |].
  exists out, nb'. split; [exact Hst|].
  destruct Hbig as (Hw & Hh & _); [left; vm_compute; reflexivity|]. lia.
Defined.

(** ** Strings *)

Lemma endswith_spec (s suffix : string) :
  endswith s suffix = true <-> exists pre, s = pre +:+ suffix.
Proof.
  split.
  - induction s as [|c s IH]; cbn [endswith].
    + rewrite orb_false_r. intros H%String.eqb_eq. by exists EmptyString.
    + intros [H%String.eqb_eq|H]%orb_true_iff.
      * by exists EmptyString.
      * destruct (IH H) as [pre ->]. by exists (String c pre).
  - intros [pre ->]. induction pre as [|c pre IH].
    + change (EmptyString +:+ suffix) with suffix.
      destruct suffix; cbn [endswith]; by rewrite String.eqb_refl.
    + change (String c pre +:+ suffix) with (String c (pre +:+ suffix)).
      cbn [endswith]. rewrite IH. apply orb_true_r.
Qed.

Lemma lower_app (a b : string) : lower (a +:+ b) = lower a +:+ lower b.
Proof. induction a as [|c a IH]; simpl; [done|]. by rewrite IH. Qed.

Lemma lower_split (s a b : string) :
  lower s = a +:+ b -> exists x y, s = x +:+ y /\ lower x = a /\ lower y = b.
Proof.
  revert s. induction a as [|c a IH]; intros s H.
  - by exists EmptyString, s.
  - destruct s as [|d s]; [done|]. simpl in H. injection H as Hc Hs.
    destruct (IH _ Hs) as (x & y & -> & Hx & Hy).
    exists (String d x), y. simpl. by rewrite Hc, Hx.
Qed.

Lemma str_le_refl (a : string) : str_le a a.
Proof.
  unfold str_le, String.leb.
  destruct (String.compare a a) eqn:E; try done.
  pose proof (String.compare_antisym a a) as H. rewrite E in H. done.
Qed.

Lemma string_compare_lt_trans (a b c : string) :
  String.compare a b = Lt -> String.compare b c = Lt ->
  String.compare a c = Lt.
Proof.
  revert b c. induction a as [|x a IH]; intros [|y b] [|z c]; simpl; try done.
  unfold Ascii.compare.
  destruct (N.compare_spec (N_of_ascii x) (N_of_ascii y)) as [Exy|Lxy|Gxy];
    destruct (N.compare_spec (N_of_ascii y) (N_of_ascii z)) as [Eyz|Lyz|Gyz];
    try done; intros H1 H2.
  - rewrite Exy, Eyz, N.compare_refl. eauto.
  - rewrite Exy. by apply N.compare_lt_iff in Lyz as ->.
  - rewrite <- Eyz. by apply N.compare_lt_iff in Lxy as ->.
  - assert (N_of_ascii x < N_of_ascii z)%N as ->%N.compare_lt_iff by lia.
    done.
Qed.

#[global] Instance str_le_trans : Transitive str_le.
Proof.
  intros a b c. unfold str_le, String.leb. intros Hab Hbc.
  destruct (String.compare a b) eqn:Eab; [| |done].
  - apply String.compare_eq_iff in Eab as ->. exact Hbc.
  - destruct (String.compare b c) eqn:Ebc; [| |done].
    + apply String.compare_eq_iff in Ebc as <-. by rewrite Eab.
    + by rewrite (string_compare_lt_trans _ _ _ Eab Ebc).
Qed.

#[global] Instance str_le_total : Total str_le.
Proof. intros a b. apply String.leb_total. Qed.

#[global] Instance str_le_antisym : AntiSymm (=) str_le.
Proof. intros a b. apply String.leb_antisym. Qed.

(** [sorted] returns the one ascending arrangement of its argument. *)
Lemma sorted_spec (l : list string) :
  StronglySorted str_le (sorted l) /\ sorted l ≡ₚ l.
Proof.
  split.
  - apply StronglySorted_merge_sort; apply _.
  - apply merge_sort_Permutation.
Qed.

(** ** The Directory Scanner *)

Lemma child_name_spec (k k' : key) (n : string) :
  child_name k k' = Some n <-> k' = k ++ [n].
Proof.
  revert k'. induction k as [|c k IH]; intros k'; simpl.
  - destruct k' as [|c' [|? ?]]; split; intros H; by simplify_eq.
  - destruct k' as [|c' k']; [split; intros H; by simplify_eq|].
    destruct (String.eqb_spec c c') as [->|Hne].
    + rewrite IH. split; intros H; by simplify_eq.
    + split; intros H; by simplify_eq.
Qed.

Lemma listdir_spec (p : string) (w w' : world) (names : list string) :
  listdir p w = (Ok names, w') ->
  w' = w /\ isdir w p = true /\
  forall name,
    name ∈ names <-> is_Some (files w !! (resolve w p ++ [name])).
Proof.
  unfold listdir, isdir.
  destruct (stat w p) as [[|c]|]; try done.
  intros [= <- <-]. repeat split; try done.
  - rewrite list_elem_of_omap. intros ((k & n) & Hin & Hc).
    apply elem_of_map_to_list in Hin. simpl in Hc.
    apply child_name_spec in Hc as ->. by exists n.
  - intros [n Hn]. rewrite list_elem_of_omap.
    exists (resolve w p ++ [name], n). split.
    + by apply elem_of_map_to_list.
    + by apply child_name_spec.
Qed.

Lemma collect_eq (folder_path : string) (names : list string) :
  collect folder_path names
  = map (join folder_path) (List.filter is_supported names).
Proof.
  unfold collect.
  enough (H : forall acc,
             fold_left
               (fun image_files filename =>
                  if is_supported filename
                  then image_files ++ [join folder_path filename]
                  else image_files) names acc
             = acc ++ map (join folder_path) (List.filter is_supported names))
    by apply (H []).
  induction names as [|n names IH]; intros acc; simpl.
  - by rewrite app_nil_r.
  - rewrite IH. destruct (is_supported n); simpl; [|done].
    by rewrite <- app_assoc.
Qed.

(** A name is supported when it ends with a full stop and one of the six
    extensions, in any mix of upper and lower case. *)
Lemma is_supported_spec (filename : string) :
  is_supported filename = true <->
  exists stem ending,
    filename = stem +:+ ending /\
    lower ending ∈ [".jpg"; ".jpeg"; ".png"; ".bmp"; ".tiff"; ".webp"].
Proof.
  unfold is_supported, endswith_any, supported_formats.
  rewrite existsb_exists. split.
  - intros (ext & Hin & Hend).
    apply endswith_spec in Hend as [pre Hpre].
    apply lower_split in Hpre as (x & y & -> & _ & Hy).
    exists x, y. split; [done|]. rewrite Hy. by apply list_elem_of_In.
  - intros (stem & ending & -> & Hin).
    exists (lower ending). split; [by apply list_elem_of_In|].
    apply endswith_spec. exists (lower stem). apply lower_app.
Qed.

(** C3.  The scanner returns the paths of the entries of the folder
    itself (no deeper ones) whose name ends, in any letter case, with one
    of .jpg, .jpeg, .png, .bmp, .tiff, .webp; nothing else; in ascending
    lexicographic order of the full path. *)
Theorem get_image_files_spec (folder_path : string) (w : world)
    (names : list string) :
  listdir folder_path w = (Ok names, w) ->
  exists image_files,
    get_image_files folder_path w = (Ok image_files, w) /\
    (forall name,
       name ∈ names <->
       is_Some (files w !! (resolve w folder_path ++ [name]))) /\
    image_files ≡ₚ map (join folder_path) (List.filter is_supported names) /\
    (forall path,
       path ∈ image_files <->
       exists name stem ending,
         name ∈ names /\ path = join folder_path name /\
         name = stem +:+ ending /\
         lower ending ∈ [".jpg"; ".jpeg"; ".png"; ".bmp"; ".tiff"; ".webp"]) /\
    StronglySorted str_le image_files.
Proof.
  intros Hls.
  destruct (listdir_spec _ _ _ _ Hls) as (_ & _ & Hnames).
  exists (sorted (collect folder_path names)).
  destruct (sorted_spec (collect folder_path names)) as [Hsorted Hperm].
  rewrite collect_eq in Hperm, Hsorted |- *.
  split; [|split; [exact Hnames|split; [exact Hperm|split; [|exact Hsorted]]]].
  - unfold get_image_files, bind. by rewrite Hls, collect_eq.
  - intros path. rewrite Hperm, list_elem_of_In, in_map_iff. split.
    + intros (name & <- & [Hin Hsup]%filter_In).
      apply is_supported_spec in Hsup as (stem & ending & Hname & Hext).
      exists name, stem, ending. by rewrite list_elem_of_In.
    + intros (name & stem & ending & Hin & -> & Hname & Hext).
      exists name. split; [done|]. apply filter_In.
      split; [by apply list_elem_of_In|].
      apply is_supported_spec. eauto.
Qed.

Lemma get_image_files_spec_witness :
  exists image_files,
    get_image_files "/app/photos" Examples.fresh_world
    = (Ok image_files, Examples.fresh_world) /\
    image_files
    = ["/app/photos/a.jpg"; "/app/photos/b.PNG"; "/app/photos/c.png"].
Proof.
  destruct (get_image_files_spec "/app/photos" Examples.fresh_world
              (match listdir "/app/photos" Examples.fresh_world with
               | (Ok names, _) => names
               | (Raise _, _) => []
               end))
    as (l & Hl & _); [vm_compute; reflexivity|].
  exists l. split; [exact Hl|].
  assert (H : get_image_files "/app/photos" Examples.fresh_world
              = (Ok ["/app/photos/a.jpg"; "/app/photos/b.PNG";
                     "/app/photos/c.png"], Examples.fresh_world))
    by (vm_compute; reflexivity).
  rewrite H in Hl. by injection Hl.
Defined.

(** ** Path names *)

Lemma split_sep_nonempty (p : string) : split_sep p <> [].
Proof.
  destruct p as [|c r]; simpl; [done|].
  destruct (Ascii.eqb c sep); [done|]. by destruct (split_sep r).
Qed.

Lemma split_sep_app (a b : string) :
  split_sep (a +:+ String sep b) = split_sep a ++ split_sep b.
Proof.
  induction a as [|c a IH]; simpl.
  - done.
  - destruct (Ascii.eqb c sep); [by rewrite IH|].
    rewrite IH. pose proof (split_sep_nonempty a).
    by destruct (split_sep a).
Qed.

(** The pieces of a path hold no separator. *)
Lemma split_sep_pieces (p : string) :
  Forall (fun x => split_sep x = [x]) (split_sep p).
Proof.
  induction p as [|c r IH]; simpl.
  - by constructor.
  - destruct (Ascii.eqb c sep) eqn:Ec; [by constructor|].
    destruct (split_sep r) as [|h t]; [by constructor; [simpl; rewrite Ec|]|].
    inversion IH as [|? ? Hh Ht]; subst.
    constructor; [|done]. simpl. by rewrite Ec, Hh.
Qed.

Lemma basename_piece (p : string) :
  split_sep (basename p) = [basename p].
Proof.
  unfold basename. pose proof (split_sep_pieces p) as H.
  pose proof (split_sep_nonempty p) as Hne.
  induction H as [|x l Hx Hl IH]; [done|].
  destruct l as [|y l]; [done|]. apply IH. done.
Qed.

Lemma last_app_nonempty {A} (l1 l2 : list A) (d : A) :
  l2 <> [] -> List.last (l1 ++ l2) d = List.last l2 d.
Proof.
  intros H. induction l1 as [|x l1 IH]; simpl; [done|].
  rewrite IH. destruct (l1 ++ l2) eqn:E; [|done].
  by apply app_eq_nil in E as [_ ->].
Qed.

Lemma basename_app_sep (a b : string) :
  basename (a +:+ String sep b) = basename b.
Proof.
  unfold basename. rewrite split_sep_app.
  apply last_app_nonempty, split_sep_nonempty.
Qed.

Lemma endswith_sep_inv (a : string) :
  endswith_sep a = true -> exists a', a = a' +:+ String sep EmptyString.
Proof.
  induction a as [|c a IH]; [done|]. simpl.
  destruct a as [|d a].
  - intros ->%Ascii.eqb_eq. by exists EmptyString.
  - intros H. destruct (IH H) as [a' ->]. by exists (String c a').
Qed.

Lemma string_app_assoc (a b c : string) : (a +:+ b) +:+ c = a +:+ (b +:+ c).
Proof.
  induction a as [|x a IH]; [done|].
  change (String x ((a +:+ b) +:+ c) = String x (a +:+ (b +:+ c))).
  by rewrite IH.
Qed.

(** [os.path.basename(os.path.join(d, os.path.basename(p)))] is
    [os.path.basename(p)]. *)
Lemma basename_join_basename (d p : string) :
  basename (join d (basename p)) = basename p.
Proof.
  pose proof (basename_piece p) as Hf.
  set (f := basename p) in *.
  assert (Hbf : basename f = f) by (unfold basename at 1; by rewrite Hf).
  unfold join.
  destruct (startswith_sep f); [done|].
  destruct (String.eqb_spec d EmptyString) as [->|Hd]; simpl; [done|].
  destruct (endswith_sep d) eqn:Hend.
  - apply endswith_sep_inv in Hend as [d' ->].
    rewrite string_app_assoc.
    change (String sep EmptyString +:+ f) with (String sep f).
    by rewrite basename_app_sep.
  - by rewrite basename_app_sep.
Qed.

(** ** The Batch Driver *)

Section DriverFacts.
Import Pillow.
Variable jpeg_nbytes : Image -> Z -> positive.

(** One turn of the loop, step by step. *)
Lemma process_file_with_eq (transform : transform_fn) (b r : string)
    (t : totals) (p : string) (w : world) :
  process_file_with transform b r t p w =
  match copy2 p (join b (basename p)) w with
  | (Raise e, _) => (Ok t, printed w [ErrorProcessing (basename p) e])
  | (Ok _, w1) =>
      match transform p (join r (basename p)) QUALITY MAX_WIDTH MAX_HEIGHT
              (printed w1 [CreatedBackup (basename p)]) with
      | (Ok (o, n), w2) =>
          (Ok (if (o >? 0) && (n >? 0)
               then mkTotals (processed_count t + 1)
                             (total_original_size t + o)
                             (total_new_size t + n)
               else t), w2)
      | (Raise e, w2) =>
          if is_Exception e
          then (Ok t, printed w2 [ErrorProcessing (basename p) e])
          else (Raise e, w2)
      end
  end.
Proof.
  unfold process_file_with, try_except. unfold bind at 1.
  destruct (copy2 _ _ w) as [[d|e] w1] eqn:Hc.
  - unfold bind at 1. rewrite print_printed. unfold bind at 1.
    destruct (transform _ _ _ _ _ _) as [[[o n]|e] w2]; [|done].
    by destruct (_ && _).
  - apply copy2_raises in Hc as [-> ->]. done.
Qed.

Lemma process_file_eq (b r : string) (t : totals) (p : string) (w : world) :
  process_file jpeg_nbytes b r t p w =
  match copy2 p (join b (basename p)) w with
  | (Raise e, _) => (Ok t, printed w [ErrorProcessing (basename p) e])
  | (Ok _, w1) =>
      match reduce_image_size_body jpeg_nbytes p (join r (basename p))
              QUALITY MAX_WIDTH MAX_HEIGHT
              (printed w1 [CreatedBackup (basename p)]) with
      | (Ok (o, n), w2) =>
          (Ok (mkTotals (processed_count t + 1)
                        (total_original_size t + o)
                        (total_new_size t + n)), w2)
      | (Raise e, w2) => (Ok t, printed w2 [ErrorProcessing p e])
      end
  end.
Proof.
  unfold process_file. rewrite process_file_with_eq.
  destruct (copy2 _ _ w) as [[d|e] w1]; [|done].
  rewrite reduce_image_size_eq.
  destruct (reduce_image_size_body _ _ _ _ _ _ _) as [[[o n]|e] w2] eqn:Hb;
    [|done].
  apply reduce_image_size_body_ok in Hb
    as (? & ? & ? & ? & ? & _ & _ & _ & _ & -> & -> & _).
  done.
Qed.

End DriverFacts.

Section DriverClaims.
Import Pillow.
Variable jpeg_nbytes : Image -> Z -> positive.

(** C5.  When the backup copy of a file raises, the loop prints the
    error and goes on to the next file: the totals are as before, no file
    is written, and the result is the same whatever the transform would
    have done, since it is not called. *)
Theorem backup_failure_skips_file (transform : transform_fn)
    (b r : string) (t : totals) (p : string) (rest : list string)
    (w w1 : world) (e : exn) :
  copy2 p (join b (basename p)) w = (Raise e, w1) ->
  process_file_with transform b r t p w
  = (Ok t, printed w [ErrorProcessing (basename p) e]) /\
  files (printed w [ErrorProcessing (basename p) e]) = files w /\
  process_files_with transform b r (p :: rest) t w
  = process_files_with transform b r rest t
      (printed w [ErrorProcessing (basename p) e]).
Proof.
  intros Hc.
  assert (Hstep : process_file_with transform b r t p w
                  = (Ok t, printed w [ErrorProcessing (basename p) e]))
    by (by rewrite process_file_with_eq, Hc).
  repeat split; [exact Hstep|].
  simpl. unfold bind at 1. by rewrite Hstep.
Qed.

(** C10.  After a successful backup, a pair returned by the transform
    is counted exactly when both of its components are positive; a pair
    with a zero component leaves the totals as they were, even when it is
    not the pair (0, 0). *)
Theorem counted_only_when_both_sizes_positive (transform : transform_fn)
    (b r : string) (t : totals) (p : string) (w w1 w2 : world)
    (d : string) (o n : Z) :
  copy2 p (join b (basename p)) w = (Ok d, w1) ->
  transform p (join r (basename p)) QUALITY MAX_WIDTH MAX_HEIGHT
            (printed w1 [CreatedBackup (basename p)]) = (Ok (o, n), w2) ->
  (0 < o /\ 0 < n ->
   process_file_with transform b r t p w
   = (Ok (mkTotals (processed_count t + 1) (total_original_size t + o)
                   (total_new_size t + n)), w2)) /\
  (o <= 0 \/ n <= 0 ->
   process_file_with transform b r t p w = (Ok t, w2)).
Proof.
  intros Hc Ht. rewrite process_file_with_eq, Hc, Ht.
  split.
  - intros [Ho Hn].
    by replace ((o >? 0) && (n >? 0)) with true
      by (symmetry; apply andb_true_iff; rewrite !Z.gtb_gt; lia).
  - intros Hz.
    by replace ((o >? 0) && (n >? 0)) with false
      by (symmetry; apply andb_false_iff; rewrite !Z.gtb_ltb, !Z.ltb_ge; lia).
Qed.

Lemma add_pairs_nil (t : totals) : add_pairs t [] = t.
Proof. destruct t. unfold add_pairs. simpl. f_equal; lia. Qed.

Lemma add_pairs_cons (t : totals) (o n : Z) (pairs : list (Z * Z)) :
  add_pairs t ((o, n) :: pairs)
  = add_pairs (mkTotals (processed_count t + 1) (total_original_size t + o)
                        (total_new_size t + n)) pairs.
Proof.
  unfold add_pairs. rewrite !fmap_cons. cbn [length foldr fst snd].
  rewrite Nat2Z.inj_succ.
  cbn [processed_count total_original_size total_new_size].
  f_equal; lia.
Qed.

(** What one turn of the loop does to the totals, and that the world it
    leaves does not depend on them. *)
Lemma process_file_contribution (b r : string) (t : totals) (p : string)
    (w : world) :
  process_file jpeg_nbytes b r t p w
  = (Ok match contribution jpeg_nbytes b r p w with
        | Some (o, n) =>
            mkTotals (processed_count t + 1) (total_original_size t + o)
                     (total_new_size t + n)
        | None => t
        end,
     snd (process_file jpeg_nbytes b r (mkTotals 0 0 0) p w)).
Proof.
  rewrite !process_file_eq. unfold contribution.
  destruct (copy2 _ _ w) as [[d|e] w1]; [|done].
  by destruct (reduce_image_size_body _ _ _ _ _ _ _) as [[[o n]|e] w2].
Qed.

(** C6.  Each file that is copied to the backup folder and then
    transformed adds one to [processed_count] and its pair of sizes to the
    two sums; a file for which either step raises adds nothing.  So at the
    end of the loop the totals are the initial ones plus the pairs of the
    files for which both steps succeeded, each counted once. *)
Theorem totals_count_each_success_once (b r : string)
    (image_files : list string) (t : totals) (w : world) :
  (forall p t0 w0,
     fst (process_file jpeg_nbytes b r t0 p w0)
     = Ok match contribution jpeg_nbytes b r p w0 with
          | Some (o, n) =>
              mkTotals (processed_count t0 + 1) (total_original_size t0 + o)
                       (total_new_size t0 + n)
          | None => t0
          end) /\
  fst (process_files jpeg_nbytes b r image_files t w)
  = Ok (add_pairs t
          (omap id (contributions jpeg_nbytes b r image_files w))).
Proof.
  split.
  - intros p t0 w0. by rewrite process_file_contribution.
  - revert t w. induction image_files as [|p rest IH]; intros t w.
    + simpl. by rewrite add_pairs_nil.
    + unfold process_files in *. simpl. unfold bind at 1.
      fold (process_file jpeg_nbytes).
      rewrite process_file_contribution. rewrite IH.
      destruct (contribution jpeg_nbytes b r p w) as [[o n]|]; simpl; [|done].
      by rewrite add_pairs_cons.
Qed.

(** C9.  When a file is backed up and transformed, the new file is
    written in the reduced folder under the very name of the source,
    extension included, and it holds JPEG data whatever the format of the
    source. *)
Theorem reduced_file_keeps_name_and_is_jpeg (b r : string) (t : totals)
    (p : string) (w : world) (o n : Z) :
  contribution jpeg_nbytes b r p w = Some (o, n) ->
  let reduced_path := join r (basename p) in
  let w' := snd (process_file jpeg_nbytes b r t p w) in
  basename reduced_path = basename p /\
  (forall ext, endswith (basename reduced_path) ext = endswith (basename p) ext)
  /\
  exists out nb,
    stat w' reduced_path = Some (File (Encoded JPEG out nb)).
Proof.
  intros Hc reduced_path w'.
  assert (Hname : basename reduced_path = basename p)
    by apply basename_join_basename.
  split; [exact Hname|]. split; [intros ext; by rewrite Hname|].
  unfold w'. rewrite process_file_eq.
  unfold contribution in Hc.
  destruct (copy2 _ _ w) as [[d|e] w1]; [|done].
  destruct (reduce_image_size_body _ _ _ _ _ _ _) as [[[o' n']|e] w2] eqn:Hb;
    [|done].
  apply reduce_image_size_body_ok in Hb
    as (? & ? & ? & img2 & ? & _ & _ & _ & _ & _ & _ & Hst & _).
  simpl. eauto.
Qed.

End DriverClaims.

Lemma backup_failure_skips_file_witness :
  process_file_with (reduce_image_size Examples.sample_jpeg_nbytes)
    "/app/backup" "/app/reduced" (mkTotals 0 0 0) "/app/photos/a.jpg"
    Examples.fresh_world
  = (Ok (mkTotals 0 0 0),
     printed Examples.fresh_world [ErrorProcessing "a.jpg" FileNotFoundError]).
Proof.
  apply (backup_failure_skips_file
           (reduce_image_size Examples.sample_jpeg_nbytes)
           "/app/backup" "/app/reduced" (mkTotals 0 0 0)
           "/app/photos/a.jpg" [] Examples.fresh_world Examples.fresh_world
           FileNotFoundError).
  vm_compute. reflexivity.
Defined.

Lemma counted_only_when_both_sizes_positive_witness :
  process_file_with Examples.zero_new_size_transform
    "/app/backup" "/app/reduced" (mkTotals 0 0 0) "/app/photos/a.jpg"
    Examples.provisioned_world
  = (Ok (mkTotals 0 0 0),
     printed (snd (copy2 "/app/photos/a.jpg" "/app/backup/a.jpg"
                         Examples.provisioned_world))
             [CreatedBackup "a.jpg"]).
Proof.
  apply (counted_only_when_both_sizes_positive
           Examples.zero_new_size_transform
           "/app/backup" "/app/reduced" (mkTotals 0 0 0)
           "/app/photos/a.jpg" Examples.provisioned_world
           (snd (copy2 "/app/photos/a.jpg" "/app/backup/a.jpg"
                       Examples.provisioned_world))
           _ "/app/backup/a.jpg" 5 0).
  - vm_compute. reflexivity.
  - reflexivity.
  - right. lia.
Defined.

Lemma reduced_file_keeps_name_and_is_jpeg_witness :
  basename (join "/app/reduced" (basename "/app/photos/b.PNG"))
  = basename "/app/photos/b.PNG" /\
  stat Examples.provisioned_world "/app/photos/b.PNG"
  = Some (File (Encoded PNG Examples.large_rgba_png 500000)) /\
  exists out nb,
    stat (snd (process_file Examples.sample_jpeg_nbytes
                 "/app/backup" "/app/reduced" (mkTotals 0 0 0)
                 "/app/photos/b.PNG" Examples.provisioned_world))
         "/app/reduced/b.PNG"
    = Some (File (Encoded JPEG out nb)).
Proof.
  destruct (reduced_file_keeps_name_and_is_jpeg Examples.sample_jpeg_nbytes
              "/app/backup" "/app/reduced" (mkTotals 0 0 0)
              "/app/photos/b.PNG" Examples.provisioned_world 500000 91900)
    as (Hname & _ & Hout); [vm_compute; reflexivity|].
  split; [exact Hname|]. split; [vm_compute; reflexivity|]. exact Hout.
Defined.

(** ** The Folder Provisioner *)

Lemma mkdir_key_ok (k : key) (f f' : gmap key node) (u : unit) :
  mkdir_key k f = (Ok u, f') ->
  node_at f k = None /\ node_at f (removelast k) = Some Dir /\
  f' = <[k := Dir]> f.
Proof.
  unfold mkdir_key. repeat case_match; intros; simplify_eq; done.
Qed.

Lemma mkdir_key_raise (k : key) (f f' : gmap key node) (e : exn) :
  mkdir_key k f = (Raise e, f') ->
  f' = f /\ (e = FileExistsError -> is_Some (node_at f k)).
Proof.
  unfold mkdir_key.
  repeat case_match; intros; simplify_eq; (split; [done|]); try done;
    intros _; eauto.
Qed.

Lemma node_at_insert_fresh (f : gmap key node) (k k' : key) (n n' : node) :
  node_at f k = None -> node_at f k' = Some n' ->
  node_at (<[k := n]> f) k' = Some n'.
Proof.
  intros Hk Hk'. rewrite node_at_insert_ne; [done|]. congruence.
Qed.

Lemma makedirs_rev_eq (rk : list string) (f : gmap key node) :
  makedirs_rev rk f =
  match
    match rk with
    | _ :: ((_ :: _) as rhead) =>
        match node_at f (rev rhead) with
        | Some _ => (Ok tt, f)
        | None =>
            match makedirs_rev rhead f with
            | (Raise FileExistsError, f') => (Ok tt, f')
            | r => r
            end
        end
    | _ => (Ok tt, f)
    end
  with
  | (Raise e, f') => (Raise e, f')
  | (Ok _, f') =>
      match mkdir_key (rev rk) f' with
      | (Ok _, f'') => (Ok tt, f'')
      | (Raise e, f'') =>
          match node_at f'' (rev rk) with
          | Some Dir => (Ok tt, f'')
          | _ => (Raise e, f'')
          end
      end
  end.
Proof. by destruct rk. Qed.

(** The last step of [makedirs]: [mkdir], forgiven when the leaf is a
    directory. *)
Lemma mkdir_exist_ok_spec (k : key) (f1 f' : gmap key node)
    (res : outcome unit) :
  match mkdir_key k f1 with
  | (Ok _, f'') => (Ok tt, f'')
  | (Raise e, f'') =>
      match node_at f'' k with
      | Some Dir => (Ok tt, f'')
      | _ => (Raise e, f'')
      end
  end = (res, f') ->
  (forall k' n, node_at f1 k' = Some n -> node_at f' k' = Some n) /\
  (forall u, res = Ok u -> node_at f' k = Some Dir) /\
  (res = Raise FileExistsError -> is_Some (node_at f' k)).
Proof.
  destruct (mkdir_key k f1) as [[u|e] f''] eqn:Hm.
  - apply mkdir_key_ok in Hm as (Hnone & _ & ->). intros [= <- <-].
    repeat split; [|intros _ _|done].
    + intros k' n Hk'. by apply node_at_insert_fresh.
    + apply node_at_insert. by destruct k.
  - apply mkdir_key_raise in Hm as [-> Hex].
    destruct (node_at f1 k) as [[|c]|] eqn:Hk; intros [= <- <-];
      repeat split; try done; intros [= ->]; rewrite ?Hk; by apply Hex.
Qed.

(** [makedirs] never removes or replaces an entry. *)
Lemma makedirs_rev_preserves (rk : list string) (f f' : gmap key node)
    (res : outcome unit) :
  makedirs_rev rk f = (res, f') ->
  forall k n, node_at f k = Some n -> node_at f' k = Some n.
Proof.
  revert f f' res. induction rk as [|c rk IH]; intros f f' res.
  - rewrite makedirs_rev_eq. intros H%mkdir_exist_ok_spec. apply H.
  - rewrite makedirs_rev_eq.
    destruct rk as [|c' rk'].
    { intros H%mkdir_exist_ok_spec. apply H. }
    destruct (node_at f (rev (c' :: rk'))) eqn:Hhead.
    { intros H%mkdir_exist_ok_spec. apply H. }
    destruct (makedirs_rev (c' :: rk') f) as [[u|e] f1] eqn:Hrec.
    + intros H%mkdir_exist_ok_spec k n Hk. apply H. eapply IH; eauto.
    + destruct e; cbv beta iota;
        first [ intros [= <- <-]; eapply IH; eauto
              | intros H%mkdir_exist_ok_spec k n Hk; apply H;
                eapply IH; eauto ].
Qed.

(** [makedirs] raises [FileExistsError] only for a leaf that exists. *)
Lemma makedirs_rev_raises_exists (rk : list string) (f f' : gmap key node)
    (e : exn) :
  makedirs_rev rk f = (Raise e, f') ->
  e = FileExistsError -> is_Some (node_at f' (rev rk)).
Proof.
  rewrite makedirs_rev_eq. intros H ->.
  destruct (match rk with
            | _ :: (_ :: _) as rhead => _
            | _ => (Ok tt, f)
            end) as [[u|e] f0] eqn:Hpar.
  - by apply mkdir_exist_ok_spec in H as (_ & _ & Hex); apply Hex.
  - injection H as -> ->.
    destruct rk as [|c [|c' rk']]; try done.
    destruct (node_at f (rev (c' :: rk'))); [done|].
    destruct (makedirs_rev (c' :: rk') f) as [[?|[]] ?]; done.
Qed.

(** When [makedirs] succeeds the leaf is a directory and, below the top
    level, its parent exists. *)
Lemma makedirs_rev_ok (rk : list string) (f f' : gmap key node) (u : unit) :
  makedirs_rev rk f = (Ok u, f') ->
  node_at f' (rev rk) = Some Dir /\
  match rk with
  | _ :: ((_ :: _) as rhead) => is_Some (node_at f' (rev rhead))
  | _ => True
  end.
Proof.
  rewrite makedirs_rev_eq.
  destruct rk as [|c [|c' rk']].
  - intros H%mkdir_exist_ok_spec. split; [|done]. by eapply H.
  - intros H%mkdir_exist_ok_spec. split; [|done]. by eapply H.
  - destruct (node_at f (rev (c' :: rk'))) eqn:Hhead.
    { intros H%mkdir_exist_ok_spec. split; [by eapply H|].
      eexists. by apply H. }
    destruct (makedirs_rev (c' :: rk') f) as [[u'|e] f1] eqn:Hrec.
    + rewrite makedirs_rev_eq in Hrec.
      destruct (match rk' with
                | [] => (Ok tt, f)
                | _ :: _ => _
                end) as [[u''|e'] f0] eqn:Hpar; [|done].
      apply mkdir_exist_ok_spec in Hrec as (_ & Hdir & _).
      intros H%mkdir_exist_ok_spec. split; [by eapply H|].
      eexists. apply H. by eapply Hdir.
    + pose proof (makedirs_rev_raises_exists _ _ _ _ Hrec) as Hex.
      destruct e; cbv beta iota; try done.
      destruct (Hex eq_refl) as [n Hn].
      intros H%mkdir_exist_ok_spec. split; [by eapply H|].
      eexists. by apply H.
Qed.

(** On a leaf that is a directory whose parent exists, [makedirs] does
    nothing and raises nothing. *)
Lemma makedirs_rev_existing (rk : list string) (f : gmap key node) :
  node_at f (rev rk) = Some Dir ->
  match rk with
  | _ :: ((_ :: _) as rhead) => is_Some (node_at f (rev rhead))
  | _ => True
  end ->
  makedirs_rev rk f = (Ok tt, f).
Proof.
  intros Hdir Hhead. rewrite makedirs_rev_eq.
  assert (Hlast : match mkdir_key (rev rk) f with
                  | (Ok _, f'') => (Ok tt, f'')
                  | (Raise e, f'') =>
                      match node_at f'' (rev rk) with
                      | Some Dir => (Ok tt, f'')
                      | _ => (Raise e, f'')
                      end
                  end = (Ok tt, f)).
  { unfold mkdir_key. by rewrite Hdir, Hdir. }
  destruct rk as [|c [|c' rk']]; try exact Hlast.
  destruct Hhead as [n ->]. exact Hlast.
Qed.

Lemma makedirs_rev_idempotent (rk : list string) (f f' : gmap key node)
    (u : unit) :
  makedirs_rev rk f = (Ok u, f') -> makedirs_rev rk f' = (Ok tt, f').
Proof.
  intros [Hdir Hhead]%makedirs_rev_ok. by apply makedirs_rev_existing.
Qed.

Lemma set_files_id (w : world) : set_files (files w) w = w.
Proof. by destruct w. Qed.

Lemma isdir_node (w : world) (p : string) :
  isdir w p = true <-> node_at (files w) (resolve w p) = Some Dir.
Proof.
  unfold isdir, stat.
  destruct (node_at (files w) (resolve w p)) as [[|c]|]; naive_solver.
Qed.

Lemma makedirs_spec (name : string) (w w' : world) (u : unit) :
  makedirs name w = (Ok u, w') ->
  exists f',
    makedirs_rev (rev (resolve w name)) (files w) = (Ok u, f') /\
    w' = set_files f' w.
Proof.
  unfold makedirs.
  destruct (makedirs_rev _ _) as [r f'] eqn:Hm. intros [= -> <-]. eauto.
Qed.

Section ProvisionerClaims.
Import Pillow.
Variable jpeg_nbytes : Image -> Z -> positive.

(** C8.  When the Folder Provisioner succeeds it returns the paths of
    [backup] and [reduced] under the base path, both are directories
    afterwards, and running it again, now that they exist, raises
    nothing, returns the same two paths and changes nothing. *)
Theorem create_folders_idempotent (base_path : string) (w w' : world)
    (dirs : string * string) :
  create_folders base_path w = (Ok dirs, w') ->
  dirs = (join base_path "backup", join base_path "reduced") /\
  isdir w' (join base_path "backup") = true /\
  isdir w' (join base_path "reduced") = true /\
  create_folders base_path w' = (Ok dirs, w').
Proof.
  unfold create_folders. cbv zeta.
  set (b := join base_path "backup"). set (r := join base_path "reduced").
  unfold bind at 1.
  destruct (makedirs b w) as [[u1|e1] w1] eqn:Hb; [|done].
  unfold bind at 1.
  destruct (makedirs r w1) as [[u2|e2] w2] eqn:Hr; [|done].
  unfold ret. intros [= <- <-].
  apply makedirs_spec in Hb as (f1 & Hb & ->).
  apply makedirs_spec in Hr as (f2 & Hr & ->).
  change (files (set_files f1 w)) with f1 in Hr.
  rewrite (resolve_eq (set_files f1 w) w) in Hr by done.
  destruct (makedirs_rev_ok _ _ _ _ Hb) as [Hbdir Hbhead].
  destruct (makedirs_rev_ok _ _ _ _ Hr) as [Hrdir Hrhead].
  pose proof (makedirs_rev_preserves _ _ _ _ Hr) as Hpres.
  rewrite rev_involutive in Hbdir, Hrdir.
  set (w2 := set_files f2 (set_files f1 w)).
  assert (Hb2 : makedirs b w2 = (Ok tt, w2)).
  { unfold makedirs. rewrite (resolve_eq w2 w) by done.
    change (files w2) with f2.
    rewrite makedirs_rev_existing; [done| |].
    - rewrite rev_involutive. by apply Hpres.
    - destruct (rev (resolve w b)) as [|c [|c' rk']]; try done.
      destruct Hbhead as [n Hn]. exists n. by apply Hpres. }
  assert (Hr2 : makedirs r w2 = (Ok tt, w2)).
  { unfold makedirs. rewrite (resolve_eq w2 w) by done.
    change (files w2) with f2.
    rewrite makedirs_rev_existing; [done| |done].
    by rewrite rev_involutive. }
  repeat split.
  - apply isdir_node. rewrite (resolve_eq w2 w) by done. by apply Hpres.
  - apply isdir_node. by rewrite (resolve_eq w2 w) by done.
  - unfold bind. by rewrite Hb2, Hr2.
Qed.

(** In a tree-like file system, directories that are already there are
    no error: the Provisioner returns their paths and changes nothing. *)
Lemma create_folders_existing (base_path : string) (w : world) :
  tree_like (files w) ->
  isdir w (join base_path "backup") = true ->
  isdir w (join base_path "reduced") = true ->
  create_folders base_path w
  = (Ok (join base_path "backup", join base_path "reduced"), w).
Proof.
  intros Htree Hb Hr.
  assert (Hmk : forall p, isdir w p = true -> makedirs p w = (Ok tt, w)).
  { intros p Hp%isdir_node. unfold makedirs.
    rewrite makedirs_rev_existing; [by rewrite set_files_id| |].
    - by rewrite rev_involutive.
    - destruct (rev (resolve w p)) as [|c [|c' rk']] eqn:Hrev; try done.
      apply (f_equal (@rev string)) in Hrev. rewrite rev_involutive in Hrev.
      simpl in Hrev. rewrite Hrev in Hp.
      assert (Hlk : files w !! ((rev rk' ++ [c']) ++ [c]) = Some Dir).
      { destruct ((rev rk' ++ [c']) ++ [c]) eqn:E; [|done].
        by apply app_eq_nil in E as [_ ?]. }
      apply Htree in Hlk. rewrite removelast_last in Hlk.
      simpl. eauto. }
  unfold create_folders, bind. by rewrite (Hmk _ Hb), (Hmk _ Hr).
Qed.

(** C7 (amended).  When the photos folder is a directory that holds no
    supported picture, [main] prints that no image files were found and
    the list of supported formats, and stops there: it returns before
    line 110, so the file system is left as it was, and [backup] and
    [reduced] are not created. *)
Theorem main_without_pictures (script_dir : string) (w : world)
    (names : list string) :
  listdir (join script_dir "photos") w = (Ok names, w) ->
  Forall (fun name => is_supported name = false) names ->
  main jpeg_nbytes script_dir w
  = (Ok tt, printed w [NoImageFilesFound (join script_dir "photos");
                       SupportedFormats]) /\
  files (printed w [NoImageFilesFound (join script_dir "photos");
                    SupportedFormats]) = files w.
Proof.
  intros Hls Hnone. split; [|done].
  destruct (listdir_spec _ _ _ _ Hls) as (_ & Hdir & _).
  unfold main. cbv zeta.
  assert (Hex : exists_ w (join script_dir "photos") = true).
  { unfold exists_. unfold isdir in Hdir. by destruct (stat w _). }
  rewrite Hex, Hdir. simpl negb. cbv iota.
  unfold bind at 1. unfold get_image_files, bind at 1. rewrite Hls.
  rewrite collect_eq.
  assert (Hfilter : List.filter is_supported names = []).
  { clear -Hnone.
    induction Hnone as [|n l Hn _ IH]; [done|]. simpl. by rewrite Hn. }
  rewrite Hfilter.
  change (sorted (map (join (join script_dir "photos")) [])) with (@nil string).
  unfold ret, bind. rewrite !print_printed, printed_printed. reflexivity.
Qed.

End ProvisionerClaims.

(** C7, as stated, fails: with a photos folder that holds no picture
    the run ends with neither [backup] nor [reduced] in existence. *)
Lemma no_pictures_no_folders :
  let run := main Examples.sample_jpeg_nbytes "/app" Examples.no_picture_world in
  fst run = Ok tt /\
  console (snd run) = [NoImageFilesFound "/app/photos"; SupportedFormats] /\
  exists_ (snd run) "/app/backup" = false /\
  exists_ (snd run) "/app/reduced" = false.
Proof. cbv zeta. repeat split; vm_compute; reflexivity. Qed.

Lemma main_without_pictures_witness :
  main Examples.sample_jpeg_nbytes "/app" Examples.no_picture_world
  = (Ok tt, printed Examples.no_picture_world
              [NoImageFilesFound "/app/photos"; SupportedFormats]).
Proof.
  apply (main_without_pictures Examples.sample_jpeg_nbytes "/app"
           Examples.no_picture_world ["notes.txt"]).
  - vm_compute. reflexivity.
  - repeat constructor.
Defined.

Lemma create_folders_idempotent_witness :
  let w' := snd (create_folders "/app" Examples.fresh_world) in
  isdir w' "/app/backup" = true /\ isdir w' "/app/reduced" = true /\
  create_folders "/app" w' = (Ok ("/app/backup", "/app/reduced"), w').
Proof.
  cbv zeta.
  destruct (create_folders_idempotent "/app" Examples.fresh_world
              (snd (create_folders "/app" Examples.fresh_world))
              ("/app/backup", "/app/reduced"))
    as (_ & Hb & Hr & Hagain); [vm_compute; reflexivity|].
  auto.
Defined.

(** ** The Provisioner in an existing directory *)

Lemma startswith_sep_app (a b : string) :
  a <> EmptyString -> startswith_sep (a +:+ b) = startswith_sep a.
Proof. by destruct a. Qed.

Lemma resolve_join (w : world) (base name : string) :
  split_sep name = [name] ->
  resolve_step (resolve w base) name = resolve w (join base name).
Proof.
  intros Hname.
  assert (Hstart : startswith_sep name = false).
  { destruct name as [|c name]; [done|]. simpl in *.
    destruct (Ascii.eqb c sep); [|done].
    pose proof (split_sep_nonempty name). by destruct (split_sep name). }
  unfold join. rewrite Hstart.
  destruct (String.eqb_spec base EmptyString) as [->|Hbase]; simpl orb.
  - unfold resolve. change (EmptyString +:+ name) with name.
    by rewrite Hname, Hstart.
  - destruct (endswith_sep base) eqn:Hend.
    + apply endswith_sep_inv in Hend as [a ->].
      rewrite string_app_assoc.
      change (String sep EmptyString +:+ name) with (String sep name).
      unfold resolve. rewrite !split_sep_app, Hname, !fold_left_app.
      assert (Hs : startswith_sep (a +:+ String sep name)
                   = startswith_sep (a +:+ String sep EmptyString))
        by (by destruct a).
      rewrite Hs. reflexivity.
    + unfold resolve. rewrite split_sep_app, Hname, fold_left_app.
      by rewrite startswith_sep_app.
Qed.

Lemma makedirs_child (w : world) (parent name : string) :
  split_sep name = [name] ->
  resolve_step (resolve w parent) name = resolve w parent ++ [name] ->
  isdir w parent = true ->
  (forall c, stat w (join parent name) <> Some (File c)) ->
  exists f',
    makedirs (join parent name) w = (Ok tt, set_files f' w) /\
    (f' = files w \/ f' = <[resolve w parent ++ [name] := Dir]> (files w)).
Proof.
  intros Hname Hstep Hdir%isdir_node Hnofile.
  unfold makedirs, stat in *.
  rewrite <- (resolve_join w parent name Hname) in *. rewrite Hstep in *.
  set (k := resolve w parent) in *.
  rewrite makedirs_rev_eq, rev_involutive, rev_unit.
  assert (Hpar : match rev k with
                 | [] => (Ok tt, files w)
                 | _ :: _ =>
                     match node_at (files w) (rev (rev k)) with
                     | Some _ => (Ok tt, files w)
                     | None =>
                         match makedirs_rev (rev k) (files w) with
                         | (Raise FileExistsError, f') => (Ok tt, f')
                         | r => r
                         end
                     end
                 end = (Ok tt, files w)).
  { destruct (rev k) eqn:Hrev; [done|].
    rewrite <- Hrev, rev_involutive. by rewrite Hdir. }
  assert (Hpar' : match name :: rev k with
                  | _ :: ((_ :: _) as rhead) =>
                      match node_at (files w) (rev rhead) with
                      | Some _ => (Ok tt, files w)
                      | None =>
                          match makedirs_rev rhead (files w) with
                          | (Raise FileExistsError, f') => (Ok tt, f')
                          | r => r
                          end
                      end
                  | _ => (Ok tt, files w)
                  end = (Ok tt, files w)).
  { destruct (rev k) eqn:Hrev; [done|]. rewrite <- Hrev in *. exact Hpar. }
  rewrite Hpar'. unfold mkdir_key.
  rewrite removelast_last, Hdir.
  destruct (node_at (files w) (k ++ [name])) as [[|c]|] eqn:Hleaf.
  - rewrite Hleaf. exists (files w). by split; [|left].
  - by destruct (Hnofile c).
  - exists (<[k ++ [name] := Dir]> (files w)). by split; [|right].
Qed.

(** In an existing directory where neither name is taken by a file, the
    Provisioner succeeds. *)
Lemma create_folders_succeeds (base_path : string) (w : world) :
  isdir w base_path = true ->
  (forall c, stat w (join base_path "backup") <> Some (File c)) ->
  (forall c, stat w (join base_path "reduced") <> Some (File c)) ->
  exists w',
    create_folders base_path w
    = (Ok (join base_path "backup", join base_path "reduced"), w').
Proof.
  intros Hdir Hb Hr.
  destruct (makedirs_child w base_path "backup") as (f1 & Hm1 & Hf1);
    [done|done|done|done|].
  assert (Hkeep : forall k n, node_at (files w) k = Some n ->
                              node_at f1 k = Some n).
  { intros k n Hk. destruct Hf1 as [->| ->]; [done|].
    destruct (node_at (files w) (resolve w base_path ++ ["backup"]))
      as [[|c]|] eqn:Hold.
    - destruct (decide (resolve w base_path ++ ["backup"] = k)) as [<-|Hne].
      + rewrite node_at_insert; [congruence|]. by destruct (resolve w _).
      + by rewrite node_at_insert_ne.
    - destruct (Hb c). unfold stat.
      by rewrite <- (resolve_join w base_path "backup").
    - by apply node_at_insert_fresh. }
  destruct (makedirs_child (set_files f1 w) base_path "reduced")
    as (f2 & Hm2 & _); [done|done| | |].
  - apply isdir_node. apply isdir_node in Hdir. by apply Hkeep.
  - intros c Hc. unfold stat in Hc.
    rewrite (resolve_eq _ w) in Hc by done.
    change (files (set_files f1 w)) with f1 in Hc.
    destruct Hf1 as [->| ->]; [by destruct (Hr c)|].
    rewrite node_at_insert_ne in Hc; [by destruct (Hr c)|].
    rewrite <- !(resolve_join w base_path) by done.
    intros Heq. simpl in Heq. by apply app_inj_tail in Heq as [_ ?].
  - unfold create_folders, bind. rewrite Hm1, Hm2. eauto.
Qed.

(** ** A run on the example folder *)

(** With bounds that are not square the quarter turn also changes the
    decision: decoded, this picture is 1000x2000, within 1200x2500; it is
    compared as 2000x1000 and resized to 1200x600. *)
Lemma rotated_picture_is_resized_within_decoded_bounds :
  let w := mkWorld []
             (list_to_map
                [(["in.jpg"],
                  File (Encoded JPEG
                          (Pillow.mkImage Pillow.RGB 1000 2000 (Some 6))
                          90000))]) [] in
  let run := reduce_image_size Examples.sample_jpeg_nbytes
               "/in.jpg" "/out.jpg" 85 1200 2500 w in
  fst run = Ok (90000, 61300) /\
  console (snd run)
  = [Resized "in.jpg" 2000 1000 1200 600; Compressed "in.jpg" 90000 61300] /\
  stat (snd run) "/out.jpg"
  = Some (File (Encoded JPEG (Pillow.mkImage Pillow.RGB 1200 600 None) 61300)).
Proof. cbv zeta. repeat split; vm_compute; reflexivity. Qed.

(** The whole script on the example folder: the rotated JPEG and the
    RGBA PNG are reduced, the greyscale-with-alpha PNG is backed up and
    then dropped by the encoder, the text file is not looked at. *)
Lemma main_on_the_example_folder :
  let run := main Examples.sample_jpeg_nbytes "/app" Examples.fresh_world in
  fst run = Ok tt /\
  console (snd run)
  = [Starting; InputFolder "/app/photos"; BackupFolder "/app/backup";
     ReducedFolder "/app/reduced"; Settings 85 1200 1200; Found 3; Rule;
     CreatedBackup "a.jpg"; Compressed "a.jpg" 90000 40900;
     CreatedBackup "b.PNG"; Resized "b.PNG" 2000 1500 1200 900;
     Compressed "b.PNG" 500000 91900;
     CreatedBackup "c.png";
     ErrorProcessing "/app/photos/c.png" CannotWriteMode;
     Rule; ProcessingComplete; ImagesProcessed 2;
     TotalSizeReduction 590000 132800;
     BackedUpIn "/app/backup"; SavedIn "/app/reduced"] /\
  stat (snd run) "/app/reduced/c.png" = None /\
  stat (snd run) "/app/backup/c.png"
  = stat Examples.fresh_world "/app/photos/c.png".
Proof. cbv zeta. repeat split; vm_compute; reflexivity. Qed.

(** * Further properties *)

(** ** More on the Image Transform *)

Section TransformMore.
Import Pillow.
Variable jpeg_nbytes : Image -> Z -> positive.

(** What the prepared image is, for a picture and bounds that are
    positive: the normalized image itself when it fits, otherwise an image
    of the same mode that fits the bounds, is no larger than the normalized
    image, and keeps its aspect ratio. *)
Lemma prepared_spec (img img2 : Image) (mw mh : Z) :
  dim_ok (width img) -> dim_ok (height img) -> 0 < mw -> 0 < mh ->
  prepared img mw mh = Ok img2 ->
  let n := normalize img in
  img_mode img2 = img_mode n /\ orientation img2 = orientation n /\
  1 <= width img2 <= width n /\ 1 <= height img2 <= height n /\
  (width n <= mw /\ height n <= mh /\ img2 = n \/
   (mw < width n \/ mh < height n) /\
   width img2 <= mw /\ height img2 <= mh /\
   keeps_aspect (width n) (height n) mw mh (width img2) (height img2)).
Proof.
  intros Hw Hh Hmw Hmh Hp n.
  assert (Hdim : dim_ok (width n) /\ dim_ok (height n)).
  { pose proof (normalize_size img) as Hn.
    rewrite exif_transpose_size in Hn. unfold size in Hn. fold n in Hn.
    destruct (swaps_axes _); injection Hn as -> ->; done. }
  destruct Hdim as [Dw Dh].
  unfold prepared in Hp. cbv zeta in Hp. fold n in Hp.
  destruct ((width n >? mw) || (height n >? mh)) eqn:Hguard.
  - apply orb_true_iff in Hguard. rewrite !Z.gtb_gt in Hguard.
    destruct (ThumbnailFacts.thumbnail_spec n img2 mw mh)
      as (Hm & Ho & Hbw & Hbh & Hsw & Hsh & Hk); try done; try lia.
    repeat split; try done; try lia.
    right. repeat split; try done; lia.
  - apply orb_false_iff in Hguard. rewrite !Z.gtb_ltb, !Z.ltb_ge in Hguard.
    unfold dim_ok in *.
    injection Hp as <-. repeat split; try lia. left. repeat split; lia.
Qed.

(** X1 (never enlarges).  The picture written is never larger, in either
    direction, than the picture as oriented on line 20: the transform only
    ever shrinks. *)
Theorem transform_never_enlarges (ip op : string) (q mw mh : Z)
    (w w' : world) (o n : Z) (fmt : format) (img : Image) (nb : positive) :
  stat w ip = Some (File (Encoded fmt img nb)) ->
  0 < width img -> 0 < height img -> 0 < mw -> 0 < mh ->
  reduce_image_size_body jpeg_nbytes ip op q mw mh w = (Ok (o, n), w') ->
  exists out nb',
    stat w' op = Some (File (Encoded JPEG out nb')) /\
    1 <= width out <= width (exif_transpose img) /\
    1 <= height out <= height (exif_transpose img).
Proof.
  intros Hst Hw Hh Hmw Hmh Hb.
  pose proof (reduce_image_size_body_ok_pixels
                _ _ _ _ _ _ _ _ _ _ _ _ _ Hst Hb) as Hbomb.
  destruct (not_a_bomb_dim_ok _ Hbomb Hw Hh) as [Dw Dh].
  apply reduce_image_size_body_ok in Hb
    as (fmt' & img' & nb' & img2 & k & Hst' & Hp & _ & _ & _ & _ & Hout & _).
  rewrite Hst in Hst'. simplify_eq.
  destruct (prepared_spec _ _ _ _ Dw Dh Hmw Hmh Hp)
    as (_ & _ & Hbw & Hbh & _).
  pose proof (normalize_size img') as Hn. unfold size in Hn.
  injection Hn as Hnw Hnh. rewrite Hnw in Hbw. rewrite Hnh in Hbh.
  eexists _, _. split; [exact Hout|]. simpl. lia.
Qed.

(** X2 (long side on the bound).  With a square bounding box, as in
    [main], a picture that exceeds it is written with its longer side
    exactly on the bound. *)
Theorem oversized_picture_fills_square_box (ip op : string) (q b : Z)
    (w w' : world) (o n : Z) (fmt : format) (img : Image) (nb : positive) :
  stat w ip = Some (File (Encoded fmt img nb)) ->
  0 < width img -> 0 < height img -> 0 < b ->
  b < width img \/ b < height img ->
  reduce_image_size_body jpeg_nbytes ip op q b b w = (Ok (o, n), w') ->
  exists out nb',
    stat w' op = Some (File (Encoded JPEG out nb')) /\
    Z.max (width out) (height out) = b.
Proof.
  intros Hst Hw Hh Hb Hbig Hbody.
  pose proof (reduce_image_size_body_ok_pixels
                _ _ _ _ _ _ _ _ _ _ _ _ _ Hst Hbody) as Hbomb.
  destruct (not_a_bomb_dim_ok _ Hbomb Hw Hh) as [Dw Dh].
  apply reduce_image_size_body_ok in Hbody
    as (fmt' & img' & nb' & img2 & k & Hst' & Hp & _ & _ & _ & _ & Hout & _).
  rewrite Hst in Hst'. simplify_eq.
  destruct (prepared_spec _ _ _ _ Dw Dh Hb Hb Hp)
    as (_ & _ & _ & _ & Hcase).
  pose proof (normalize_size img') as Hn.
  rewrite exif_transpose_size in Hn. unfold size in Hn.
  eexists _, _. split; [exact Hout|]. simpl.
  destruct Hcase as [(Hfw & Hfh & _)|(_ & Hbw & Hbh & [[Hk _]|[Hk _]])].
  - destruct (swaps_axes _); injection Hn as Hnw Hnh; lia.
  - lia.
  - lia.
Qed.

(** X3 (a second pass changes nothing).  The picture written needs no
    further conversion or resizing under the same bounds: preparing it
    again gives it back, and the encoder would store it as it is. *)
Theorem transform_output_is_stable (ip op : string) (q mw mh : Z)
    (w w' : world) (o n : Z) (fmt : format) (img : Image) (nb : positive) :
  stat w ip = Some (File (Encoded fmt img nb)) ->
  0 < width img -> 0 < height img -> 0 < mw -> 0 < mh ->
  reduce_image_size_body jpeg_nbytes ip op q mw mh w = (Ok (o, n), w') ->
  exists out nb',
    stat w' op = Some (File (Encoded JPEG out nb')) /\
    prepared out mw mh = Ok out /\ jpeg_readback out = out.
Proof.
  intros Hst Hw Hh Hmw Hmh Hb.
  pose proof (reduce_image_size_body_ok_pixels
                _ _ _ _ _ _ _ _ _ _ _ _ _ Hst Hb) as Hbomb.
  destruct (not_a_bomb_dim_ok _ Hbomb Hw Hh) as [Dw Dh].
  apply reduce_image_size_body_ok in Hb
    as (fmt' & img' & nb' & img2 & k & Hst' & Hp & _ & _ & _ & _ & Hout & _).
  rewrite Hst in Hst'. simplify_eq.
  destruct (prepared_spec _ _ _ _ Dw Dh Hmw Hmh Hp)
    as (_ & _ & Hbw & Hbh & Hcase).
  assert (Hfit : width img2 <= mw /\ height img2 <= mh).
  { destruct Hcase as [(? & ? & _)|(_ & ? & ? & _)]; lia. }
  eexists _, _. split; [exact Hout|].
  set (out := jpeg_readback img2).
  assert (Hnorm : normalize out = out).
  { unfold normalize, exif_transpose, mode_in_RGBA_P, out. simpl.
    by destruct (img_mode img2). }
  split.
  - unfold prepared. cbv zeta. rewrite Hnorm. unfold out. simpl.
    replace ((width img2 >? mw) || (height img2 >? mh)) with false; [done|].
    symmetry. apply orb_false_iff. rewrite !Z.gtb_ltb, !Z.ltb_ge. lia.
  - unfold out, jpeg_readback. simpl. by destruct (img_mode img2).
Qed.

(** [Image.save] touches no path but its destination. *)
Lemma Image_save_JPEG_frame (im : Image) (p : string) (q : Z)
    (w w' : world) (res : outcome unit) :
  Image_save_JPEG jpeg_nbytes im p q w = (res, w') ->
  cwd w' = cwd w /\ console w' = console w /\
  forall k, k <> resolve w p -> node_at (files w') k = node_at (files w) k.
Proof.
  unfold Image_save_JPEG.
  destruct (open_for_writing w p) as [k0|e] eqn:Hopen.
  - destruct (open_for_writing_nonroot _ _ _ Hopen) as [-> _].
    repeat case_match; intros; simplify_eq; repeat split; try done;
      intros k Hk; simpl; by rewrite node_at_insert_ne.
  - intros [= <- <-]. done.
Qed.

Lemma reduce_image_size_frame (ip op : string)
    (q mw mh : Z) (w w' : world) (res : outcome (Z * Z)) :
  reduce_image_size jpeg_nbytes ip op q mw mh w = (res, w') ->
  cwd w' = cwd w /\
  forall k, k <> resolve w op -> node_at (files w') k = node_at (files w) k.
Proof.
  intros H.
  rewrite reduce_image_size_eq, reduce_image_size_body_eq in H.
  destruct (stat w ip) as [[|[fmt img nb|?]]|];
    try (by injection H as <- <-).
  destruct (is_decompression_bomb img); [by injection H as <- <-|].
  destruct (prepared img mw mh) as [img2|]; [|by injection H as <- <-].
  destruct (Image_save_JPEG _ _ _ _ _) as [[u|e] w2] eqn:Hs;
    apply Image_save_JPEG_frame in Hs as (Hc & _ & Hf);
    injection H as <- <-; split; try done;
    intros k Hk; simpl; apply Hf;
    by rewrite (resolve_eq _ w).
Qed.

(** X4 (touches only the destination).  Whether it succeeds or fails,
    [reduce_image_size] leaves every path other than [output_path] as it
    was; in particular the source, when it is another file. *)
Theorem reduce_image_size_touches_only_output (ip op : string)
    (q mw mh : Z) (w w' : world) (res : outcome (Z * Z)) :
  reduce_image_size jpeg_nbytes ip op q mw mh w = (res, w') ->
  (forall p, resolve w p <> resolve w op -> stat w' p = stat w p) /\
  (resolve w ip <> resolve w op -> stat w' ip = stat w ip).
Proof.
  intros [Hc Hf]%reduce_image_size_frame.
  assert (Hall : forall p, resolve w p <> resolve w op ->
                           stat w' p = stat w p).
  { intros p Hne. unfold stat. rewrite (resolve_eq w' w) by done.
    by apply Hf. }
  split; [exact Hall|]. apply Hall.
Qed.

End TransformMore.

(** ** More on the Batch Driver *)

Section DriverMore.
Import Pillow.
Variable jpeg_nbytes : Image -> Z -> positive.

Lemma contribution_positive (b r p : string) (w : world) (o n : Z) :
  contribution jpeg_nbytes b r p w = Some (o, n) -> 0 < o /\ 0 < n.
Proof.
  unfold contribution.
  destruct (copy2 _ _ w) as [[d|e] w1]; [|done].
  destruct (reduce_image_size_body _ _ _ _ _ _ _) as [[[o' n']|e] w2] eqn:Hb;
    [|done].
  intros [= -> ->].
  apply reduce_image_size_body_ok in Hb
    as (? & ? & ? & ? & ? & _ & _ & _ & _ & -> & -> & _).
  lia.
Qed.

(** The loop never raises; it adds to the totals one pair of positive
    sizes for some of the files. *)
Lemma process_files_spec (b r : string) (image_files : list string)
    (t : totals) (w : world) :
  exists pairs w',
    process_files jpeg_nbytes b r image_files t w
    = (Ok (add_pairs t pairs), w') /\
    (length pairs <= length image_files)%nat /\
    Forall (fun on => 0 < fst on /\ 0 < snd on) pairs.
Proof.
  revert t w. induction image_files as [|p rest IH]; intros t w.
  - exists [], w. by rewrite add_pairs_nil.
  - unfold process_files in *. simpl. unfold bind at 1.
    fold (process_file jpeg_nbytes).
    rewrite process_file_contribution.
    set (w1 := snd _).
    destruct (contribution jpeg_nbytes b r p w) as [[o n]|] eqn:Hc.
    + destruct (IH (mkTotals (processed_count t + 1)
                             (total_original_size t + o)
                             (total_new_size t + n)) w1)
        as (pairs & w' & -> & Hlen & Hpos).
      exists ((o, n) :: pairs), w'. rewrite add_pairs_cons.
      split; [done|]. split; [simpl; lia|].
      constructor; [|done]. by apply contribution_positive in Hc.
    + destruct (IH t w1) as (pairs & w' & -> & Hlen & Hpos).
      exists pairs, w'. split; [done|]. split; [simpl; lia|done].
Qed.

Lemma sum_of_positive_pairs (pairs : list (Z * Z)) :
  Forall (fun on => 0 < fst on /\ 0 < snd on) pairs ->
  Z.of_nat (length pairs) <= foldr Z.add 0 (fst <$> pairs) /\
  Z.of_nat (length pairs) <= foldr Z.add 0 (snd <$> pairs).
Proof.
  induction 1 as [|[o n] pairs [Ho Hn] _ [IH1 IH2]]; [done|].
  rewrite !fmap_cons. cbn [length foldr fst snd] in *.
  rewrite Nat2Z.inj_succ. lia.
Qed.

(** X5 (the totals of a run).  Starting from the three zeros of lines
    120-122 the loop never raises, counts at most one per file, and every
    counted file adds at least one byte to each sum: so when
    [processed_count] is positive [total_original_size] is positive too and
    the division of line 155 is safe, and when it is zero both sums are
    zero. *)
Theorem run_totals_are_consistent (b r : string)
    (image_files : list string) (w : world) :
  exists t w',
    process_files jpeg_nbytes b r image_files (mkTotals 0 0 0) w
    = (Ok t, w') /\
    0 <= processed_count t <= Z.of_nat (length image_files) /\
    processed_count t <= total_original_size t /\
    processed_count t <= total_new_size t /\
    (processed_count t = 0 ->
     total_original_size t = 0 /\ total_new_size t = 0).
Proof.
  destruct (process_files_spec b r image_files (mkTotals 0 0 0) w)
    as (pairs & w' & Hrun & Hlen & Hpos).
  exists (add_pairs (mkTotals 0 0 0) pairs), w'.
  split; [exact Hrun|].
  destruct (sum_of_positive_pairs pairs Hpos) as [H1 H2].
  unfold add_pairs.
  cbn [processed_count total_original_size total_new_size].
  split; [lia|]. split; [lia|]. split; [lia|].
  intros Hz. assert (pairs = []) as -> by (destruct pairs; [done|simpl in Hz; lia]).
  done.
Qed.

(** [copy2] touches no path but its destination, which, when the copy
    succeeds, holds the bytes of the source. *)
Lemma copy2_spec (src dst : string) (w w' : world) (res : outcome string) :
  copy2 src dst w = (res, w') ->
  let dst' := if isdir w dst then join dst (basename src) else dst in
  cwd w' = cwd w /\ console w' = console w /\
  (forall k, k <> resolve w dst' ->
             node_at (files w') k = node_at (files w) k) /\
  (forall d, res = Ok d ->
             d = dst' /\ stat w' dst' = stat w src /\
             exists c, stat w src = Some (File c)).
Proof.
  unfold copy2, open_for_reading. cbv zeta.
  set (dst' := if isdir w dst then _ else _).
  destruct (samefile w src dst'); [by intros [= <- <-]|].
  destruct (stat w src) as [[|c]|] eqn:Hsrc; try (by intros [= <- <-]).
  destruct (open_for_writing w dst') as [k|e] eqn:Hopen;
    [|by intros [= <- <-]].
  destruct (open_for_writing_nonroot _ _ _ Hopen) as [-> Hroot].
  intros [= <- <-]. repeat split; try done.
  - intros k Hk. simpl. by rewrite node_at_insert_ne.
  - by injection H as <-.
  - change (node_at (<[resolve w dst' := File c]> (files w)) (resolve w dst')
            = Some (File c)).
    by rewrite node_at_insert.
  - eauto.
Qed.

(** X6 (the backup is an exact copy).  After a turn of the loop in which
    the copy succeeded, the backup path holds exactly the bytes the source
    had, whatever the transform did afterwards, and the source is as it
    was: provided the backup path is not a directory and the backup, the
    reduced copy and the source are different files. *)
Theorem backup_is_an_exact_copy (b r : string) (t : totals) (p : string)
    (w w1 : world) (d : string) :
  let backup_path := join b (basename p) in
  let reduced_path := join r (basename p) in
  copy2 p backup_path w = (Ok d, w1) ->
  isdir w backup_path = false ->
  resolve w backup_path <> resolve w reduced_path ->
  let w' := snd (process_file jpeg_nbytes b r t p w) in
  stat w' backup_path = stat w p /\
  (resolve w p <> resolve w reduced_path -> stat w' p = stat w p).
Proof.
  intros backup_path reduced_path Hc Hnd Hbr w'.
  pose proof (copy2_spec _ _ _ _ _ Hc) as (Hcwd & _ & Hf1 & Hok).
  cbv zeta in Hf1, Hok. fold backup_path in Hf1, Hok.
  rewrite Hnd in Hf1, Hok.
  destruct (Hok d eq_refl) as (_ & Hcopy & c & Hsrc).
  assert (Hw' : cwd w' = cwd w1 /\
                forall k, k <> resolve w reduced_path ->
                          node_at (files w') k = node_at (files w1) k).
  { unfold w'. rewrite process_file_eq. fold backup_path. rewrite Hc.
    fold reduced_path.
    destruct (reduce_image_size_body _ _ _ _ _ _ _) as [[[o n]|e] w2] eqn:Hb.
    - assert (Hr : reduce_image_size jpeg_nbytes p reduced_path
                     QUALITY MAX_WIDTH MAX_HEIGHT
                     (printed w1 [CreatedBackup (basename p)])
                   = (Ok (o, n), w2))
        by (by rewrite reduce_image_size_eq, Hb).
      apply reduce_image_size_frame in Hr as (Hc2 & Hf2).
      split; [done|]. intros k Hk. simpl. apply Hf2.
      rewrite (resolve_eq _ w) by (simpl; congruence). done.
    - assert (Hr : reduce_image_size jpeg_nbytes p reduced_path
                     QUALITY MAX_WIDTH MAX_HEIGHT
                     (printed w1 [CreatedBackup (basename p)])
                   = (Ok (0, 0), printed w2 [ErrorProcessing p e]))
        by (by rewrite reduce_image_size_eq, Hb).
      apply reduce_image_size_frame in Hr as (Hc2 & Hf2).
      split; [done|]. intros k Hk. simpl in *. apply Hf2.
      rewrite (resolve_eq _ w) by (simpl; congruence). done. }
  destruct Hw' as [Hcwd' Hf2].
  assert (Hcw : cwd w' = cwd w) by congruence.
  split.
  - rewrite <- Hcopy. unfold stat.
    rewrite (resolve_eq w' w), (resolve_eq w1 w) by done. by apply Hf2.
  - intros Hpr. unfold stat. rewrite (resolve_eq w' w) by done.
    rewrite Hf2 by done.
    destruct (decide (resolve w p = resolve w backup_path)) as [Heq|Hne].
    + rewrite Heq. fold (stat w p) in Hsrc.
      unfold stat in Hcopy. rewrite (resolve_eq w1 w) in Hcopy by done.
      rewrite Hcopy. unfold stat. by rewrite Heq.
    + by apply Hf1.
Qed.

End DriverMore.

(** ** More on the Directory Scanner *)

Lemma filter_supported_Permutation (names1 names2 : list string) :
  names1 ≡ₚ names2 ->
  List.filter is_supported names1 ≡ₚ List.filter is_supported names2.
Proof.
  induction 1 as [|x l1 l2 _ IH|x y l|l1 l2 l3 _ IH1 _ IH2]; simpl.
  - done.
  - destruct (is_supported x); [by apply perm_skip|done].
  - destruct (is_supported x), (is_supported y); try done. apply perm_swap.
  - by etrans.
Qed.

(** X7 (the order of the listing does not matter).  Whatever order
    [os.listdir] yields the names in, the scanner returns the same list:
    the result depends on the set of entries only. *)
Theorem scanner_ignores_listing_order (folder_path : string)
    (names1 names2 : list string) :
  names1 ≡ₚ names2 ->
  sorted (collect folder_path names1) = sorted (collect folder_path names2).
Proof.
  intros Hperm.
  destruct (sorted_spec (collect folder_path names1)) as [Hs1 Hp1].
  destruct (sorted_spec (collect folder_path names2)) as [Hs2 Hp2].
  apply (StronglySorted_unique str_le); [done|done|].
  rewrite Hp1, Hp2, !collect_eq.
  by apply Permutation_map, filter_supported_Permutation.
Qed.

(** ** More on the Folder Provisioner *)

Lemma makedirs_preserves (name : string) (w w' : world) (res : outcome unit) :
  makedirs name w = (res, w') ->
  cwd w' = cwd w /\ console w' = console w /\
  forall k n, node_at (files w) k = Some n -> node_at (files w') k = Some n.
Proof.
  unfold makedirs.
  destruct (makedirs_rev _ _) as [r f'] eqn:Hm. intros [= <- <-].
  repeat split; try done. by eapply makedirs_rev_preserves.
Qed.

Lemma create_folders_preserves (base_path : string) (w w' : world)
    (res : outcome (string * string)) :
  create_folders base_path w = (res, w') ->
  cwd w' = cwd w /\ console w' = console w /\
  forall k n, node_at (files w) k = Some n -> node_at (files w') k = Some n.
Proof.
  unfold create_folders, bind. cbv zeta.
  destruct (makedirs _ w) as [[u1|e1] w1] eqn:H1.
  - apply makedirs_preserves in H1 as (Hc1 & Ho1 & Hf1).
    destruct (makedirs _ w1) as [[u2|e2] w2] eqn:H2;
      apply makedirs_preserves in H2 as (Hc2 & Ho2 & Hf2);
      intros [= <- <-]; (repeat split; [congruence|congruence|]); auto.
  - apply makedirs_preserves in H1 as (Hc1 & Ho1 & Hf1).
    by intros [= <- <-].
Qed.


Lemma makedirs_rev_on_file (k : key) (f : gmap key node) (c : content) :
  node_at f k = Some (File c) ->
  is_Some (node_at f (removelast k)) ->
  makedirs_rev (rev k) f = (Raise FileExistsError, f).
Proof.
  intros Hleaf Hhead. rewrite makedirs_rev_eq, rev_involutive.
  assert (Hlast : match mkdir_key k f with
                  | (Ok _, f'') => (Ok tt, f'')
                  | (Raise e, f'') =>
                      match node_at f'' k with
                      | Some Dir => (Ok tt, f'')
                      | _ => (Raise e, f'')
                      end
                  end = (Raise FileExistsError, f)).
  { unfold mkdir_key. by rewrite Hleaf, Hleaf. }
  destruct (rev k) as [|x [|y rk']] eqn:Hrev; try exact Hlast.
  apply (f_equal (@rev string)) in Hrev. rewrite rev_involutive in Hrev.
  simpl in Hrev. rewrite Hrev, removelast_last in Hhead.
  change (rev (y :: rk')) with (rev rk' ++ [y]).
  destruct Hhead as [n ->]. exact Hlast.
Qed.

Lemma create_folders_file_in_the_way (base_path : string) (w : world)
    (c : content) :
  isdir w base_path = true ->
  stat w (join base_path "backup") = Some (File c) ->
  create_folders base_path w = (Raise FileExistsError, w).
Proof.
  intros Hdir%isdir_node Hfile.
  unfold create_folders, bind, makedirs. cbv zeta.
  unfold stat in Hfile.
  rewrite <- (resolve_join w base_path "backup") in * by done.
  change (resolve_step (resolve w base_path) "backup")
    with (resolve w base_path ++ ["backup"]) in *.
  rewrite (makedirs_rev_on_file _ _ c); [by rewrite set_files_id|done|].
  rewrite removelast_last. eauto.
Qed.

(** X10 (a file in the way).  [exist_ok=True] forgives a directory, not a
    file: when [backup] under an existing base directory is a regular
    file, [create_folders] raises [FileExistsError] and creates nothing,
    not even [reduced]. *)
Theorem create_folders_blocked_by_a_file (base_path : string) (w : world)
    (c : content) :
  isdir w base_path = true ->
  stat w (join base_path "backup") = Some (File c) ->
  create_folders base_path w = (Raise FileExistsError, w) /\
  stat w (join base_path "reduced")
  = stat (snd (create_folders base_path w)) (join base_path "reduced").
Proof.
  intros Hdir Hfile.
  by rewrite (create_folders_file_in_the_way _ _ c).
Qed.

(** ** The whole run *)

Section MainFacts.
Import Pillow.
Variable jpeg_nbytes : Image -> Z -> positive.

(** The lines [main] prints before and after the loop. *)
Lemma main_eq (script_dir : string) (w : world) :
  let input_folder := join script_dir "photos" in
  main jpeg_nbytes script_dir w =
  if negb (exists_ w input_folder) then
    (Ok tt, printed w [PhotosFolderNotFound input_folder])
  else if negb (isdir w input_folder) then
    (Ok tt, printed w [IsNotADirectory input_folder])
  else
    match get_image_files input_folder w with
    | (Raise e, w1) => (Raise e, w1)
    | (Ok [], w1) =>
        (Ok tt, printed w1 [NoImageFilesFound input_folder; SupportedFormats])
    | (Ok image_files, w1) =>
        match create_folders script_dir w1 with
        | (Raise e, w2) => (Raise e, w2)
        | (Ok (b, r), w2) =>
            match process_files jpeg_nbytes b r image_files (mkTotals 0 0 0)
                    (printed w2
                       [Starting; InputFolder input_folder; BackupFolder b;
                        ReducedFolder r;
                        Settings QUALITY MAX_WIDTH MAX_HEIGHT;
                        Found (length image_files); Rule]) with
            | (Raise e, w3) => (Raise e, w3)
            | (Ok t, w3) =>
                (Ok tt,
                 printed w3
                   ([Rule; ProcessingComplete;
                     ImagesProcessed (processed_count t)] ++
                    if processed_count t >? 0
                    then [TotalSizeReduction (total_original_size t)
                                             (total_new_size t);
                          BackedUpIn b; SavedIn r]
                    else []))
            end
        end
    end.
Proof.
  cbv zeta. unfold main.
  destruct (negb (exists_ w _)); [done|].
  destruct (negb (isdir w _)); [done|].
  unfold bind at 1.
  destruct (get_image_files _ w) as [[[|p l]|e] w1]; [| |done].
  - unfold bind. by rewrite !print_printed, printed_printed.
  - unfold bind at 1.
    destruct (create_folders script_dir w1) as [[[b r]|e] w2]; [|done].
    unfold bind at 1 2 3 4 5 6 7 8. rewrite !print_printed.
    rewrite !printed_printed. cbn [app].
    destruct (process_files _ _ _ _ _ _) as [[t|e] w3]; [|done].
    unfold bind at 1 2 3. rewrite !print_printed, !printed_printed.
    cbn [app].
    destruct (processed_count t >? 0).
    + unfold bind. rewrite !print_printed, !printed_printed. done.
    + reflexivity.
Qed.

(** X11 (no photos folder).  Without a [photos] directory beside the
    script, [main] prints one line, saying that the folder was not found
    or that the path is not a directory, and stops: nothing is scanned,
    created or copied. *)
Theorem main_stops_without_photos_directory (script_dir : string)
    (w : world) :
  isdir w (join script_dir "photos") = false ->
  main jpeg_nbytes script_dir w
  = (Ok tt,
     printed w [if exists_ w (join script_dir "photos")
                then IsNotADirectory (join script_dir "photos")
                else PhotosFolderNotFound (join script_dir "photos")]).
Proof.
  intros Hnd. rewrite main_eq. cbv zeta. rewrite Hnd.
  by destruct (exists_ w _).
Qed.

Lemma get_image_files_in_directory (folder_path : string) (w : world) :
  isdir w folder_path = true ->
  exists l, get_image_files folder_path w = (Ok l, w).
Proof.
  unfold isdir, get_image_files, bind, listdir.
  destruct (stat w folder_path) as [[|c]|]; try done. by eexists.
Qed.

(** X12 (the run always completes).  When the script's directory exists
    and neither [backup] nor [reduced] in it is a regular file, [main]
    returns normally whatever the pictures are: no failure on a single
    file stops the run or escapes as an exception. *)
Theorem main_returns_normally (script_dir : string) (w : world) :
  isdir w script_dir = true ->
  (forall c, stat w (join script_dir "backup") <> Some (File c)) ->
  (forall c, stat w (join script_dir "reduced") <> Some (File c)) ->
  exists w', main jpeg_nbytes script_dir w = (Ok tt, w').
Proof.
  intros Hdir Hb Hr. rewrite main_eq. cbv zeta.
  destruct (negb (exists_ w _)); [by eexists|].
  destruct (negb (isdir w (join script_dir "photos"))) eqn:Hphotos;
    [by eexists|].
  apply negb_false_iff in Hphotos.
  destruct (get_image_files_in_directory _ _ Hphotos) as [l ->].
  destruct l as [|p l]; [by eexists|].
  destruct (create_folders_succeeds script_dir w Hdir Hb Hr) as [w2 ->].
  destruct (process_files_spec jpeg_nbytes (join script_dir "backup")
              (join script_dir "reduced") (p :: l) (mkTotals 0 0 0)
              (printed w2
                 [Starting; InputFolder (join script_dir "photos");
                  BackupFolder (join script_dir "backup");
                  ReducedFolder (join script_dir "reduced");
                  Settings QUALITY MAX_WIDTH MAX_HEIGHT;
                  Found (length (p :: l)); Rule]))
    as (pairs & w3 & -> & _).
  by eexists.
Qed.

(** X13 (a file named backup stops the run).  The call of line 110 is
    outside every [try]: when there is at least one picture and [backup]
    is a regular file, [main] ends with the [FileExistsError] of
    [os.makedirs], having printed nothing and processed no picture. *)
Theorem main_raises_when_backup_is_a_file (script_dir : string) (w : world)
    (p : string) (l : list string) (c : content) :
  isdir w script_dir = true ->
  get_image_files (join script_dir "photos") w = (Ok (p :: l), w) ->
  stat w (join script_dir "backup") = Some (File c) ->
  main jpeg_nbytes script_dir w = (Raise FileExistsError, w).
Proof.
  intros Hdir Hscan Hfile. rewrite main_eq. cbv zeta.
  assert (Hphotos : isdir w (join script_dir "photos") = true).
  { unfold get_image_files, bind in Hscan.
    destruct (listdir _ w) as [[names|e] w1] eqn:Hls; [|done].
    by apply listdir_spec in Hls as (_ & ? & _). }
  assert (Hex : exists_ w (join script_dir "photos") = true).
  { unfold exists_. unfold isdir in Hphotos.
    by destruct (stat w (join script_dir "photos")). }
  rewrite Hex, Hphotos, Hscan. simpl negb. cbv iota.
  by rewrite (create_folders_file_in_the_way _ _ c).
Qed.

End MainFacts.

(** ** What a run leaves alone *)

Lemma ascii_lower_sep (c : ascii) :
  Ascii.eqb (ascii_lower c) sep = Ascii.eqb c sep.
Proof. destruct c as [[] [] [] [] [] [] [] []]; reflexivity. Qed.

Lemma split_sep_lower (s : string) :
  split_sep (lower s) = map lower (split_sep s).
Proof.
  induction s as [|c s IH]; [done|].
  cbn [lower split_sep]. rewrite ascii_lower_sep, IH.
  destruct (Ascii.eqb c sep); [done|].
  pose proof (split_sep_nonempty s). by destruct (split_sep s).
Qed.

Lemma split_sep_singleton (s x : string) : split_sep s = [x] -> x = s.
Proof.
  revert x. induction s as [|c s IH]; intros x; cbn [split_sep].
  - by intros [= <-].
  - destruct (Ascii.eqb c sep).
    + pose proof (split_sep_nonempty s). by destruct (split_sep s).
    + pose proof (split_sep_nonempty s) as Hne.
      destruct (split_sep s) as [|h0 [|? ?]] eqn:E; try done.
      intros [= <-]. by rewrite (IH h0 eq_refl).
Qed.

Lemma piece_of_lower (s : string) :
  split_sep (lower s) = [lower s] -> split_sep s = [s].
Proof.
  rewrite split_sep_lower. intros H.
  destruct (split_sep s) as [|x [|? ?]] eqn:E; try done.
  by rewrite (split_sep_singleton _ _ E).
Qed.

Lemma split_sep_app_piece (a b : string) :
  split_sep b = [b] ->
  split_sep (a +:+ b)
  = removelast (split_sep a) ++ [List.last (split_sep a) EmptyString +:+ b].
Proof.
  intros Hb. induction a as [|c a IH].
  - exact Hb.
  - change (String c a +:+ b) with (String c (a +:+ b)).
    cbn [split_sep]. rewrite IH.
    pose proof (split_sep_nonempty a) as Hne.
    destruct (Ascii.eqb c sep).
    + destruct (split_sep a) as [|h t]; [done|]. reflexivity.
    + destruct (split_sep a) as [|h [|h' t]]; [done| |]; reflexivity.
Qed.

Lemma basename_app_piece (a b : string) :
  split_sep b = [b] -> basename (a +:+ b) = basename a +:+ b.
Proof.
  intros Hb. unfold basename. rewrite (split_sep_app_piece _ _ Hb).
  by rewrite last_last.
Qed.

Lemma supported_ending_is_piece (ending : string) :
  lower ending ∈ supported_formats -> split_sep ending = [ending].
Proof.
  intros Hin. apply piece_of_lower.
  unfold supported_formats in Hin.
  repeat (apply elem_of_cons in Hin as [->|Hin]; [reflexivity|]).
  by apply elem_of_nil in Hin.
Qed.

Lemma is_supported_basename (s : string) :
  is_supported s = true -> is_supported (basename s) = true.
Proof.
  intros (stem & ending & -> & Hin)%is_supported_spec.
  rewrite basename_app_piece by (by apply supported_ending_is_piece).
  apply is_supported_spec. eauto.
Qed.

Lemma is_supported_join (a s : string) :
  is_supported s = true -> is_supported (join a s) = true.
Proof.
  intros Hs. unfold join.
  destruct (startswith_sep s); [done|].
  apply is_supported_spec in Hs as (stem & ending & -> & Hin).
  apply is_supported_spec.
  destruct (_ || _).
  - exists (a +:+ stem), ending. by rewrite string_app_assoc.
  - exists (a +:+ String sep stem), ending.
    rewrite string_app_assoc. done.
Qed.

Lemma resolve_join_supported (w : world) (d f : string) :
  split_sep f = [f] -> is_supported f = true ->
  resolve w (join d f) = resolve w d ++ [f].
Proof.
  intros Hpiece Hsup. rewrite <- (resolve_join w d f Hpiece).
  unfold resolve_step.
  destruct (String.eqb_spec f EmptyString) as [->|_]; [done|].
  destruct (String.eqb_spec f ".") as [->|_]; [done|].
  destruct (String.eqb_spec f "..") as [->|_]; [done|].
  done.
Qed.

Lemma below_app (d rest : key) : rest <> [] -> below d (d ++ rest).
Proof. intros H. by exists rest. Qed.

Section RunFrame.
Import Pillow.
Variable jpeg_nbytes : Image -> Z -> positive.

(** One turn of the loop writes below the two output folders only. *)
Lemma process_file_frame (b r : string) (t : totals) (p : string)
    (w w' : world) (res : outcome totals) :
  is_supported (basename p) = true ->
  process_file jpeg_nbytes b r t p w = (res, w') ->
  cwd w' = cwd w /\
  forall k, ~ below (resolve w b) k -> ~ below (resolve w r) k ->
            node_at (files w') k = node_at (files w) k.
Proof.
  intros Hsup. rewrite process_file_eq.
  set (f := basename p) in *.
  pose proof (basename_piece p) as Hpiece. fold f in Hpiece.
  assert (Hkb : resolve w (join b f) = resolve w b ++ [f])
    by (by apply resolve_join_supported).
  assert (Hkr : resolve w (join r f) = resolve w r ++ [f])
    by (by apply resolve_join_supported).
  assert (Hkbb : resolve w (join (join b f) f) = resolve w b ++ [f; f]).
  { rewrite resolve_join_supported, Hkb by done. by rewrite <- app_assoc. }
  destruct (copy2 p (join b f) w) as [[d|e] w1] eqn:Hc.
  - pose proof (copy2_spec _ _ _ _ _ Hc) as (Hcwd & _ & Hf1 & _).
    cbv zeta in Hf1. fold f in Hf1.
    assert (Hcopy : forall k, ~ below (resolve w b) k ->
                              node_at (files w1) k = node_at (files w) k).
    { intros k Hk. apply Hf1. intros ->. apply Hk.
      destruct (isdir w (join b f)); [rewrite Hkbb|rewrite Hkb];
        by apply below_app. }
    destruct (reduce_image_size_body _ _ _ _ _ _ _) as [[[o n]|e] w2] eqn:Hb.
    + assert (Hr : reduce_image_size jpeg_nbytes p (join r f)
                     QUALITY MAX_WIDTH MAX_HEIGHT
                     (printed w1 [CreatedBackup f]) = (Ok (o, n), w2))
        by (by rewrite reduce_image_size_eq, Hb).
      apply reduce_image_size_frame in Hr as (Hc2 & Hf2).
      intros [= <- <-]. split; [simpl in *; congruence|].
      intros k Hkb' Hkr'. rewrite Hf2; [by apply Hcopy|].
      rewrite (resolve_eq _ w) by (simpl; congruence).
      intros ->. apply Hkr'. rewrite Hkr. by apply below_app.
    + assert (Hr : reduce_image_size jpeg_nbytes p (join r f)
                     QUALITY MAX_WIDTH MAX_HEIGHT
                     (printed w1 [CreatedBackup f])
                   = (Ok (0, 0), printed w2 [ErrorProcessing p e]))
        by (by rewrite reduce_image_size_eq, Hb).
      apply reduce_image_size_frame in Hr as (Hc2 & Hf2).
      intros [= <- <-]. split; [simpl in *; congruence|].
      intros k Hkb' Hkr'. rewrite Hf2; [by apply Hcopy|].
      rewrite (resolve_eq _ w) by (simpl; congruence).
      intros ->. apply Hkr'. rewrite Hkr. by apply below_app.
  - by intros [= <- <-].
Qed.

Lemma process_files_frame (b r : string) (image_files : list string)
    (t : totals) (w w' : world) (res : outcome totals) :
  Forall (fun p => is_supported (basename p) = true) image_files ->
  process_files jpeg_nbytes b r image_files t w = (res, w') ->
  cwd w' = cwd w /\
  forall k, ~ below (resolve w b) k -> ~ below (resolve w r) k ->
            node_at (files w') k = node_at (files w) k.
Proof.
  intros Hall. revert t w.
  induction Hall as [|p rest Hp _ IH]; intros t w.
  - by intros [= <- <-].
  - unfold process_files in *. simpl. unfold bind at 1.
    fold (process_file jpeg_nbytes).
    destruct (process_file jpeg_nbytes b r t p w) as [[t1|e] w1] eqn:H1.
    + destruct (process_file_frame _ _ _ _ _ _ _ Hp H1) as [Hc1 Hf1].
      intros [Hc2 Hf2]%IH. split; [congruence|].
      intros k Hkb Hkr. rewrite Hf2, Hf1; try done;
        by rewrite (resolve_eq w1 w).
    + intros [= <- <-]. by eapply process_file_frame.
Qed.

Lemma scanned_paths_are_supported (folder_path : string) (w w1 : world)
    (l : list string) :
  get_image_files folder_path w = (Ok l, w1) ->
  w1 = w /\ Forall (fun p => is_supported (basename p) = true) l.
Proof.
  unfold get_image_files, bind.
  destruct (listdir folder_path w) as [[names|e] w0] eqn:Hls; [|done].
  apply listdir_spec in Hls as (-> & _ & _).
  unfold ret. intros [= <- <-]. split; [done|].
  destruct (sorted_spec (collect folder_path names)) as [_ Hperm].
  rewrite Hperm, collect_eq.
  apply Forall_forall. intros p [name [<- Hin]]%list_elem_of_In%in_map_iff.
  apply filter_In in Hin as [_ Hsup].
  by apply is_supported_basename, is_supported_join.
Qed.

Lemma create_folders_paths (base_path : string) (w w' : world)
    (b r : string) :
  create_folders base_path w = (Ok (b, r), w') ->
  b = join base_path "backup" /\ r = join base_path "reduced".
Proof.
  unfold create_folders, bind. cbv zeta.
  destruct (makedirs _ w) as [[?|?] w1]; [|done].
  destruct (makedirs _ w1) as [[?|?] w2]; [|done].
  by intros [= <- <- _].
Qed.

(** The run removes or replaces nothing outside [backup] and
    [reduced]. *)
Lemma main_frame (script_dir : string) (w w' : world) (res : outcome unit) :
  main jpeg_nbytes script_dir w = (res, w') ->
  forall k n,
    node_at (files w) k = Some n ->
    ~ below (resolve w script_dir ++ ["backup"]) k ->
    ~ below (resolve w script_dir ++ ["reduced"]) k ->
    node_at (files w') k = Some n.
Proof.
  rewrite main_eq. cbv zeta.
  destruct (negb (exists_ w _)); [by intros [= <- <-]|].
  destruct (negb (isdir w _)); [by intros [= <- <-]|].
  destruct (get_image_files _ w) as [[l|e] w1] eqn:Hscan.
  - apply scanned_paths_are_supported in Hscan as [-> Hsup].
    destruct l as [|p l]; [by intros [= <- <-]|].
    destruct (create_folders script_dir w) as [[[b r]|e] w2] eqn:Hcf.
    + destruct (create_folders_paths _ _ _ _ _ Hcf) as [-> ->].
      apply create_folders_preserves in Hcf as (Hc2 & _ & Hf2).
      destruct (process_files _ _ _ _ _ _) as [[t|e] w3] eqn:Hrun;
        apply (process_files_frame _ _ _ _ _ _ _ Hsup) in Hrun
          as [Hc3 Hf3];
        intros [= <- <-] k n Hk Hkb Hkr;
        simpl; rewrite Hf3;
        try (by apply Hf2);
        rewrite (resolve_eq _ w) by (simpl; congruence);
        rewrite <- (resolve_join w script_dir) by done; done.
    + apply create_folders_preserves in Hcf as (_ & _ & Hf2).
      intros [= <- <-]. auto.
  - unfold get_image_files, bind in Hscan.
    destruct (listdir _ w) as [[names|e'] w0] eqn:Hls; [done|].
    unfold listdir in Hls. destruct (stat w _) as [[|?]|];
      simplify_eq; intros [= <- <-]; auto.
Qed.

(** X14 (the originals are never touched).  Whatever happens during the
    run, nothing outside the folders [backup] and [reduced] is removed or
    replaced; in particular every entry of [photos] is afterwards exactly
    what it was before. *)
Theorem main_leaves_the_originals_alone (script_dir : string)
    (w w' : world) (res : outcome unit) :
  main jpeg_nbytes script_dir w = (res, w') ->
  (forall k n,
     node_at (files w) k = Some n ->
     ~ below (resolve w script_dir ++ ["backup"]) k ->
     ~ below (resolve w script_dir ++ ["reduced"]) k ->
     node_at (files w') k = Some n) /\
  (forall rest n,
     node_at (files w) (resolve w script_dir ++ "photos" :: rest) = Some n ->
     node_at (files w') (resolve w script_dir ++ "photos" :: rest) = Some n).
Proof.
  intros Hmain. pose proof (main_frame _ _ _ _ Hmain) as Hframe.
  split; [exact Hframe|].
  intros rest n Hn. apply Hframe; [done| |];
    intros (rest' & _ & Heq); rewrite <- app_assoc in Heq;
    by apply app_inv_head in Heq.
Qed.

End RunFrame.

(** ** The further properties on the example folder *)

Lemma transform_never_enlarges_witness :
  exists out nb',
    stat (snd (reduce_image_size_body Examples.sample_jpeg_nbytes
                 "/app/photos/b.PNG" "/app/reduced/b.PNG" 85 1200 1200
                 Examples.provisioned_world)) "/app/reduced/b.PNG"
    = Some (File (Encoded JPEG out nb')) /\
    1 <= Pillow.width out <= 2000 /\ 1 <= Pillow.height out <= 1500.
Proof.
  apply (transform_never_enlarges Examples.sample_jpeg_nbytes
           "/app/photos/b.PNG" "/app/reduced/b.PNG" 85 1200 1200
           Examples.provisioned_world _ 500000 91900 PNG
           Examples.large_rgba_png 500000%positive);
    [vm_compute; reflexivity | reflexivity | reflexivity | reflexivity
    | reflexivity | vm_compute; reflexivity].
Defined.

Lemma oversized_picture_fills_square_box_witness :
  exists out nb',
    stat (snd (reduce_image_size_body Examples.sample_jpeg_nbytes
                 "/app/photos/b.PNG" "/app/reduced/b.PNG" 85 1200 1200
                 Examples.provisioned_world)) "/app/reduced/b.PNG"
    = Some (File (Encoded JPEG out nb')) /\
    Z.max (Pillow.width out) (Pillow.height out) = 1200.
Proof.
  apply (oversized_picture_fills_square_box Examples.sample_jpeg_nbytes
           "/app/photos/b.PNG" "/app/reduced/b.PNG" 85 1200
           Examples.provisioned_world _ 500000 91900 PNG
           Examples.large_rgba_png 500000%positive);
    [vm_compute; reflexivity | reflexivity | reflexivity | reflexivity
    | left; reflexivity | vm_compute; reflexivity].
Defined.

Lemma transform_output_is_stable_witness :
  exists out nb',
    stat (snd (reduce_image_size_body Examples.sample_jpeg_nbytes
                 "/app/photos/a.jpg" "/app/reduced/a.jpg" 85 1200 1200
                 Examples.provisioned_world)) "/app/reduced/a.jpg"
    = Some (File (Encoded JPEG out nb')) /\
    prepared out 1200 1200 = Ok out /\ Pillow.jpeg_readback out = out.
Proof.
  apply (transform_output_is_stable Examples.sample_jpeg_nbytes
           "/app/photos/a.jpg" "/app/reduced/a.jpg" 85 1200 1200
           Examples.provisioned_world _ 90000 40900 JPEG
           Examples.rotated_jpeg 90000%positive);
    [vm_compute; reflexivity | reflexivity | reflexivity | reflexivity
    | reflexivity | vm_compute; reflexivity].
Defined.

Lemma reduce_image_size_touches_only_output_witness :
  stat (snd (reduce_image_size Examples.sample_jpeg_nbytes
               "/app/photos/c.png" "/app/reduced/c.png" 85 1200 1200
               Examples.provisioned_world)) "/app/photos/c.png"
  = stat Examples.provisioned_world "/app/photos/c.png".
Proof.
  apply (reduce_image_size_touches_only_output Examples.sample_jpeg_nbytes
           "/app/photos/c.png" "/app/reduced/c.png" 85 1200 1200
           Examples.provisioned_world _ (Ok (0, 0))).
  - vm_compute. reflexivity.
  - vm_compute. discriminate.
Defined.

Lemma backup_is_an_exact_copy_witness :
  stat (snd (process_file Examples.sample_jpeg_nbytes
               "/app/backup" "/app/reduced" (mkTotals 0 0 0)
               "/app/photos/a.jpg" Examples.provisioned_world))
       "/app/backup/a.jpg"
  = stat Examples.provisioned_world "/app/photos/a.jpg".
Proof.
  destruct (backup_is_an_exact_copy Examples.sample_jpeg_nbytes
              "/app/backup" "/app/reduced" (mkTotals 0 0 0)
              "/app/photos/a.jpg" Examples.provisioned_world
              (snd (copy2 "/app/photos/a.jpg" "/app/backup/a.jpg"
                          Examples.provisioned_world))
              "/app/backup/a.jpg") as [Hcopy _].
  - vm_compute. reflexivity.
  - vm_compute. reflexivity.
  - vm_compute. discriminate.
  - exact Hcopy.
Defined.

Lemma scanner_ignores_listing_order_witness :
  sorted (collect "/app/photos" ["b.PNG"; "notes.txt"; "a.jpg"])
  = sorted (collect "/app/photos" ["notes.txt"; "b.PNG"; "a.jpg"]).
Proof.
  apply (scanner_ignores_listing_order "/app/photos"
           ["b.PNG"; "notes.txt"; "a.jpg"] ["notes.txt"; "b.PNG"; "a.jpg"]).
  apply perm_swap.
Defined.


Lemma create_folders_blocked_by_a_file_witness :
  create_folders "/app" MoreExamples.blocked_world
  = (Raise FileExistsError, MoreExamples.blocked_world).
Proof.
  apply (create_folders_blocked_by_a_file "/app" MoreExamples.blocked_world
           (Opaque 3)).
  - vm_compute. reflexivity.
  - vm_compute. reflexivity.
Defined.

Lemma main_stops_without_photos_directory_witness :
  main Examples.sample_jpeg_nbytes "/app" MoreExamples.no_photos_world
  = (Ok tt, printed MoreExamples.no_photos_world
              [PhotosFolderNotFound "/app/photos"]).
Proof.
  apply (main_stops_without_photos_directory Examples.sample_jpeg_nbytes
           "/app" MoreExamples.no_photos_world).
  vm_compute. reflexivity.
Defined.

Lemma main_returns_normally_witness :
  exists w',
    main Examples.sample_jpeg_nbytes "/app" Examples.fresh_world
    = (Ok tt, w').
Proof.
  apply (main_returns_normally Examples.sample_jpeg_nbytes "/app"
           Examples.fresh_world).
  - vm_compute. reflexivity.
  - intros c. vm_compute. discriminate.
  - intros c. vm_compute. discriminate.
Defined.

Lemma main_raises_when_backup_is_a_file_witness :
  main Examples.sample_jpeg_nbytes "/app" MoreExamples.blocked_world
  = (Raise FileExistsError, MoreExamples.blocked_world).
Proof.
  apply (main_raises_when_backup_is_a_file Examples.sample_jpeg_nbytes
           "/app" MoreExamples.blocked_world
           "/app/photos/a.jpg" ["/app/photos/b.PNG"; "/app/photos/c.png"]
           (Opaque 3)).
  - vm_compute. reflexivity.
  - vm_compute. reflexivity.
  - vm_compute. reflexivity.
Defined.

Lemma main_leaves_the_originals_alone_witness :
  node_at (files (snd (main Examples.sample_jpeg_nbytes "/app"
                         Examples.fresh_world)))
          ["app"; "photos"; "c.png"]
  = Some (File (Encoded PNG Examples.grey_alpha_png 4000)).
Proof.
  destruct (main_leaves_the_originals_alone Examples.sample_jpeg_nbytes
              "/app" Examples.fresh_world
              (snd (main Examples.sample_jpeg_nbytes "/app"
                      Examples.fresh_world)) (Ok tt)) as [_ Hphotos].
  - vm_compute. reflexivity.
  - apply (Hphotos ["c.png"]). vm_compute. reflexivity.
Defined.
